(** * render_app.py: safe extraction of an uploaded zip into ./site

  A shallow embedding of [src/render_app.py]: the containment check
  [is_within_directory], the extractor [safe_extract], the routes
  [upload_zip] and [serve_site] and the start of the process, over a model
  of the calls they make through [pathlib], [os] and [zipfile].

  Modelling choices, all stated where they are made:
  - Python [str] values are [string]s of bytes; ['/'] is the only
    separator (POSIX);
  - a [pathlib.Path] is an anchor and a list of components ([Path]);
  - the file system is a finite map from canonical locations to nodes;
    there are no symbolic links (the extractor never creates one), so
    [Path.resolve()] is the lexical walk of [posixpath.realpath];
  - every call that touches the disk threads the file system and may
    raise; an exception leaves what was written before it in place;
  - a system call is refused with [ENAMETOOLONG] for a component over
    [NAME_MAX] bytes or a path of [PATH_MAX] bytes or more, Python raises
    [ValueError] for a path with a NUL byte, and [open(p, "wb")] of an
    existing file is refused with [EACCES] when the mode of the file does
    not let the process write it; a [chmod] may be refused;
  - [safe_extract] is given the entries [zf.infolist()] returns, each with
    the bytes reading it delivers and whether reading it raises, before
    or after the target is opened;
  - directories carry no access rights: the program sets none, and the
    process is taken to have the right to search and to add to every
    directory of the tree.  A disk that is full, read-only or failing is
    not part of the model. *)

From stdpp Require Import gmap strings list.
From Stdlib Require Import Strings.Ascii Strings.Byte ZArith.

Local Open Scope string_scope.
Local Open Scope Z_scope.

#[global] Arguments String.append !_ _ / : simpl nomatch.

(** ** Python string operations used by the source *)

Module PyStr.

(** [s.split('/')]: never empty, [""] splits to [[""]]. *)
Fixpoint split_slash (s : string) : list string :=
  match s with
  | EmptyString => [EmptyString]
  | String c s' =>
      if Ascii.eqb c "/"%char then EmptyString :: split_slash s'
      else match split_slash s' with
           | [] => [String c EmptyString]
           | w :: ws => String c w :: ws
           end
  end.

(** [s.startswith(pre)]. *)
Fixpoint startswith (s pre : string) {struct pre} : bool :=
  match pre, s with
  | EmptyString, _ => true
  | String _ _, EmptyString => false
  | String a pre', String b s' => Ascii.eqb a b && startswith s' pre'
  end.

(** [s.endswith('/')]. *)
Fixpoint endswith_slash (s : string) : bool :=
  match s with
  | EmptyString => false
  | String c EmptyString => Ascii.eqb c "/"%char
  | String _ s' => endswith_slash s'
  end.

(** [s[n:]]. *)
Fixpoint slice_from (n : nat) (s : string) : string :=
  match n, s with
  | O, _ => s
  | S _, EmptyString => EmptyString
  | S n', String _ s' => slice_from n' s'
  end.

(** Truth value of a string: [bool(s)] is [s != ""]. *)
Definition truthy (s : string) : bool :=
  match s with EmptyString => false | String _ _ => true end.

(** ['/'.join(ws)]. *)
Fixpoint join_slash (ws : list string) : string :=
  match ws with
  | [] => EmptyString
  | [w] => w
  | w :: ws' => w ++ "/" ++ join_slash ws'
  end.

(** [c.lower()] and [s.lower()] on ASCII letters; other bytes are kept. *)
Definition lower_ascii (c : ascii) : ascii :=
  let n := nat_of_ascii c in
  if ((65 <=? n) && (n <=? 90))%nat then ascii_of_nat (n + 32) else c.

Fixpoint lower (s : string) : string :=
  match s with
  | EmptyString => EmptyString
  | String c s' => String (lower_ascii c) (lower s')
  end.

(** Does the string hold a NUL byte?  The [os] calls raise [ValueError]
    ("embedded null byte") on such a path. *)
Fixpoint has_nul (s : string) : bool :=
  match s with
  | EmptyString => false
  | String c s' => Ascii.eqb c Ascii.zero || has_nul s'
  end.

End PyStr.

(** ** Paths: [pathlib.PurePosixPath] *)

Module PurePath.
Import PyStr.

(** The [root] of a POSIX path: [''], ['/'] or ['//'] (exactly two
    leading slashes are kept apart by [pathlib]). *)
Inductive anchor := Relative | Slash | DoubleSlash.

(** A parsed path.  [parts] holds no empty component and no ["."];
    [".."] is kept as it is. *)
Record Path := MkPath { root : anchor; parts : list string }.

Definition splitroot (s : string) : anchor :=
  match s with
  | String "/"%char (String "/"%char (String "/"%char _)) => Slash
  | String "/"%char (String "/"%char _) => DoubleSlash
  | String "/"%char _ => Slash
  | _ => Relative
  end.

Definition keep_part (w : string) : bool :=
  negb (String.eqb w "") && negb (String.eqb w ".").

(** [Path(s)]. *)
Definition parse (s : string) : Path :=
  MkPath (splitroot s) (List.filter keep_part (split_slash s)).

(** [p.joinpath(s)]: an anchored argument replaces [p]. *)
Definition joinpath (p : Path) (s : string) : Path :=
  let q := parse s in
  match root q with
  | Relative => MkPath (root p) (parts p ++ parts q)
  | _ => q
  end.

(** [p.parent]: the path without its last component; a path without
    components is its own parent. *)
Definition parent (p : Path) : Path :=
  MkPath (root p) (removelast (parts p)).

(** [str(p)]. *)
Definition to_str (p : Path) : string :=
  match root p, parts p with
  | Relative, [] => "."
  | Relative, ps => join_slash ps
  | Slash, ps => "/" ++ join_slash ps
  | DoubleSlash, ps => "//" ++ join_slash ps
  end.

End PurePath.

(** ** The file system *)

Module Fs.
Import PyStr PurePath.

(** A canonical location: the component names from the root down, none
    of them [".."].  [[]] is the root directory. *)
Abbreviation loc := (list string).

Inductive node :=
| Dir
| File (content : list byte) (mode : Z).

#[global] Instance byte_eq_dec : EqDecision byte := Byte.byte_eq_dec.
#[global] Instance node_eq_dec : EqDecision node.
Proof. solve_decision. Defined.

Abbreviation FS := (gmap (list string) node).

(** The ways a system call on a path is refused.  [NulByte] is no error
    number: it marks a path with a NUL byte, for which Python raises
    [ValueError] in place of making the call. *)
Inductive errno :=
| ENOENT | ENOTDIR | EEXIST | EISDIR | EPERM | EACCES | ENAMETOOLONG
| NulByte.

#[global] Instance errno_eq_dec : EqDecision errno.
Proof. solve_decision. Defined.

(** What the process sees of the operating system besides the tree:
    its working directory, the mode a newly created file gets
    ([0o666 & ~umask]), whether a [chmod] of a location to a mode is
    permitted, and whether it may open for writing an existing file at a
    location whose permission bits are the given mode (for the owner of
    the file that is bit [0o200] of the mode, for the superuser it always
    is). *)
Record Env := MkEnv {
  cwd : loc;
  create_mode : Z;
  chmod_permitted : loc -> Z -> bool;
  open_permitted : loc -> Z -> bool
}.

(** The limits of the system on a component and on a whole path. *)
Definition NAME_MAX : Z := 255.
Definition PATH_MAX : Z := 4096.

(** A component the system refuses to look up or to make. *)
Definition long_name (x : string) : bool :=
  NAME_MAX <? Z.of_nat (String.length x).

(** A path too long to be handed to a system call. *)
Definition long_path (p : Path) : bool :=
  PATH_MAX <=? Z.of_nat (String.length (to_str p)).

(** What stops a call before the path is walked. *)
Definition path_check (p : Path) : option errno :=
  if existsb has_nul (parts p) then Some NulByte
  else if long_path p then Some ENAMETOOLONG
  else None.

(** One step of path resolution from directory [cur]. *)
Definition enter (cur : loc) (x : string) : loc :=
  if String.eqb x ".." then removelast cur else cur ++ [x].

(** Where resolution of [p] starts. *)
Definition start (env : Env) (p : Path) : loc :=
  match root p with
  | Relative => cwd env
  | _ => []
  end.

(** Follow components that must all be existing directories. *)
Fixpoint lookup_dir (fs : FS) (cur : loc) (ps : list string) : errno + loc :=
  match ps with
  | [] => inr cur
  | x :: ps' =>
      if long_name x then inl ENAMETOOLONG
      else
        let next := enter cur x in
        match fs !! next with
        | None => inl ENOENT
        | Some (File _ _) => inl ENOTDIR
        | Some Dir => lookup_dir fs next ps'
        end
  end.

(** The location a system call on [p] acts on: every component but the
    last must be an existing directory, the last one need not exist. *)
Definition namei (env : Env) (fs : FS) (p : Path) : errno + loc :=
  match path_check p with
  | Some e => inl e
  | None =>
      match lookup_dir fs (start env p) (removelast (parts p)) with
      | inl e => inl e
      | inr d =>
          match last (parts p) with
          | None => inr d
          | Some x => if long_name x then inl ENAMETOOLONG
                      else inr (enter d x)
          end
      end
  end.

(** [os.stat(p)], as far as the source looks at it. *)
Definition os_stat (env : Env) (fs : FS) (p : Path) : errno + node :=
  match namei env fs p with
  | inl e => inl e
  | inr l => match fs !! l with
             | None => inl ENOENT
             | Some n => inr n
             end
  end.

(** [os.mkdir(p)]. *)
Definition os_mkdir (env : Env) (fs : FS) (p : Path) : errno + FS :=
  match namei env fs p with
  | inl e => inl e
  | inr l => match fs !! l with
             | Some _ => inl EEXIST
             | None => inr (<[l := Dir]> fs)
             end
  end.

(** [open(p, "wb")] followed by writing [data] and closing: an existing
    file that the process may write is truncated and keeps its mode, a
    missing one is created. *)
Definition os_write (env : Env) (fs : FS) (p : Path) (data : list byte)
  : errno + FS :=
  match namei env fs p with
  | inl e => inl e
  | inr l => match fs !! l with
             | Some Dir => inl EISDIR
             | Some (File _ m) =>
                 if open_permitted env l m then inr (<[l := File data m]> fs)
                 else inl EACCES
             | None => inr (<[l := File data (create_mode env)]> fs)
             end
  end.

(** [os.chmod(p, mode)]; the modes of directories are not tracked. *)
Definition os_chmod (env : Env) (fs : FS) (p : Path) (mode : Z)
  : errno + FS :=
  match namei env fs p with
  | inl e => inl e
  | inr l => match fs !! l with
             | None => inl ENOENT
             | Some n =>
                 if chmod_permitted env l mode then
                   match n with
                   | Dir => inr fs
                   | File c _ => inr (<[l := File c mode]> fs)
                   end
                 else inl EPERM
             end
  end.

(** [Path.resolve()] (non-strict).  Without symbolic links this is the
    lexical walk of [posixpath.realpath]; it raises on a NUL byte. *)
Definition resolve (env : Env) (p : Path) : option Path :=
  if existsb has_nul (parts p) then None
  else Some (MkPath Slash (fold_left enter (parts p) (start env p))).

(** A well-formed tree: the root is a directory and every node lives in
    a directory. *)
Definition wf (fs : FS) : Prop :=
  fs !! [] = Some Dir ∧
  map_Forall (λ l _, l = [] ∨ fs !! removelast l = Some Dir) fs.

#[global] Instance wf_dec fs : Decision (wf fs).
Proof. unfold wf. apply _. Defined.

End Fs.

(** ** Exceptions and the state the calls thread *)

Module Exn.
Import Fs.

(** What [safe_extract] can raise: its own [Exception] (the message
    carries the entry's file name), an [OSError] of a system call, the
    [ValueError] for a path with a NUL byte, or what [zipfile] raises when
    an entry cannot be read ([BadZipFile], an error of the decompressor,
    [NotImplementedError], [RuntimeError]). *)
Inductive exn :=
| ExtractionOutside (name : string)
| OSError (e : errno)
| ValueError
| ReadError.

(** The exception a refused call raises. *)
Definition raised (e : errno) : exn :=
  match e with
  | NulByte => ValueError
  | _ => OSError e
  end.

#[global] Instance exn_eq_dec : EqDecision exn.
Proof. solve_decision. Defined.

(** A computation on the file system that returns or raises; what was
    written before an exception stays written. *)
Definition M (A : Type) : Type := FS -> FS * (exn + A).

(** [return a]. *)
Definition ret {A} (a : A) : M A := λ fs, (fs, inr a).

(** [raise e]. *)
Definition raise {A} (e : exn) : M A := λ fs, (fs, inl e).

(** [m] and then [k] on what [m] returned, unless [m] raised. *)
Definition bind {A B} (m : M A) (k : A -> M B) : M B :=
  λ fs, match m fs with
        | (fs', inl e) => (fs', inl e)
        | (fs', inr a) => k a fs'
        end.

#[global] Instance M_ret : MRet M := @ret.
#[global] Instance M_bind : MBind M := λ A B k m, bind m k.

(** [try: m except Exception: pass]. *)
Definition try_pass (m : M unit) : M unit :=
  λ fs, match m fs with
        | (fs', inl _) => (fs', inr tt)
        | r => r
        end.

(** Lift a system call. *)
Definition sys (call : FS -> errno + FS) : M unit :=
  λ fs, match call fs with
        | inl e => (fs, inl (raised e))
        | inr fs' => (fs', inr tt)
        end.

(** [for x in xs: body(x)]. *)
Fixpoint for_each {A} (body : A -> M unit) (xs : list A) : M unit :=
  match xs with
  | [] => ret tt
  | x :: xs' => body x ;; for_each body xs'
  end.

End Exn.

(** ** [pathlib.Path] methods that touch the disk *)

Module PathIO.
Import PyStr PurePath Fs Exn.

(** The errors of [stat] that [exists()], [is_dir()] and [is_file()] read
    as [False]: [ENOENT] and [ENOTDIR] (with [EBADF] and [ELOOP], which do
    not arise here) and the [ValueError] for a NUL byte; any other is
    raised again. *)
Definition ignored (e : errno) : bool :=
  match e with
  | ENOENT | ENOTDIR | NulByte => true
  | _ => false
  end.

Definition stat_test (test : node -> bool) (env : Env) (fs : FS) (p : Path)
  : errno + bool :=
  match os_stat env fs p with
  | inr n => inr (test n)
  | inl e => if ignored e then inr false else inl e
  end.

(** [p.is_dir()]. *)
Definition is_dir : Env -> FS -> Path -> errno + bool :=
  stat_test (λ n, match n with Dir => true | File _ _ => false end).

(** [p.exists()]. *)
Definition exists_ : Env -> FS -> Path -> errno + bool :=
  stat_test (λ _, true).

(** [p.is_file()]. *)
Definition is_file : Env -> FS -> Path -> errno + bool :=
  stat_test (λ n, match n with Dir => false | File _ _ => true end).

(** [p.exists()] as a step of a computation. *)
Definition path_exists (env : Env) (p : Path) : M bool :=
  λ fs, match exists_ env fs p with
        | inl e => (fs, inl (raised e))
        | inr b => (fs, inr b)
        end.

(** The [except OSError] clause of [Path.mkdir] with [exist_ok=True]:
    the error [e] of [os.mkdir] is forgiven when [p] is a directory;
    [is_dir()] may raise in its turn. *)
Definition forgive (env : Env) (p : Path) (e : errno) : M unit :=
  λ fs, match is_dir env fs p with
        | inl e' => (fs, inl (raised e'))
        | inr true => (fs, inr tt)
        | inr false => (fs, inl (raised e))
        end.

(** [p.mkdir(parents=False, exist_ok=True)]: [FileNotFoundError] is
    re-raised, [ValueError] is no [OSError] and goes through, any other
    [OSError] is forgiven when [p] is a directory. *)
Definition mkdir_exist_ok (env : Env) (p : Path) : M unit :=
  λ fs, match os_mkdir env fs p with
        | inr fs' => (fs', inr tt)
        | inl ENOENT => (fs, inl (OSError ENOENT))
        | inl NulByte => (fs, inl ValueError)
        | inl e => forgive env p e fs
        end.

(** [p.mkdir(parents=True, exist_ok=True)], by recursion on the
    components of [p] from the last one: on [FileNotFoundError] the parent
    is made first (unless [p] is its own parent) and the call repeated
    without [parents]. *)
Fixpoint mkdir_parents_rev (env : Env) (r : anchor) (rparts : list string)
  : M unit :=
  λ fs,
    let self := MkPath r (rev rparts) in
    match os_mkdir env fs self with
    | inr fs' => (fs', inr tt)
    | inl ENOENT =>
        match rparts with
        | [] => (fs, inl (OSError ENOENT))
        | _ :: rparent =>
            (mkdir_parents_rev env r rparent ;; mkdir_exist_ok env self) fs
        end
    | inl NulByte => (fs, inl ValueError)
    | inl e => forgive env self e fs
    end.

(** [p.mkdir(parents=True, exist_ok=True)]. *)
Definition mkdir_parents (env : Env) (p : Path) : M unit :=
  mkdir_parents_rev env (root p) (rev (parts p)).

(** What reading an entry comes to: it is read to its end, or [zf.open]
    raises before the target is opened, or the copy raises after the
    target was opened and the bytes delivered so far were written (a bad
    check sum is found when the end of the entry is reached). *)
Inductive reading := Sound | Unopenable | Corrupt.

#[global] Instance reading_eq_dec : EqDecision reading.
Proof. solve_decision. Defined.

(** [with zf.open(member) as source, open(p, "wb") as dest:
    shutil.copyfileobj(source, dest)], for an entry whose reading is
    [how] and delivers [data]. *)
Definition write_bytes (env : Env) (p : Path) (how : reading)
    (data : list byte) : M unit :=
  match how with
  | Unopenable => raise ReadError
  | Sound => sys (λ fs, os_write env fs p data)
  | Corrupt => sys (λ fs, os_write env fs p data) ;; raise ReadError
  end.

(** [p.chmod(mode)]. *)
Definition chmod (env : Env) (p : Path) (mode : Z) : M unit :=
  sys (λ fs, os_chmod env fs p mode).

End PathIO.

(** ** The application: [render_app.py] *)

Module RenderApp.
Import PyStr PurePath Fs Exn PathIO.

(** A [zipfile.ZipInfo] together with what reading the entry comes to:
    the bytes [zf.open(member)] delivers and whether it raises. *)
Record ZipInfo := MkZipInfo {
  filename : string;
  external_attr : Z;
  data : list byte;
  fault : reading
}.

(** [member.is_dir()]: the name ends in a slash. *)
Definition zip_is_dir (member : ZipInfo) : bool :=
  endswith_slash (filename member).

(** [is_within_directory(directory, target)]: both paths are resolved and
    their strings compared with [startswith]; an exception of [resolve]
    reads as [False]. *)
Definition is_within_directory (env : Env) (directory target : Path) : bool :=
  match resolve env directory with
  | None => false
  | Some directory' =>
      match resolve env target with
      | None => false
      | Some target' => startswith (to_str target') (to_str directory')
      end
  end.

(** The set comprehension of line 44: the first segment of every entry
    with a non-empty name that does not end in a slash. *)
Definition first_segment (name : string) : string :=
  List.hd "" (split_slash name).

Definition counts_for_root (p : ZipInfo) : bool :=
  truthy (filename p) && negb (endswith_slash (filename p)).

Definition top_levels (members : list ZipInfo) : gset string :=
  list_to_set (List.map (λ p, first_segment (filename p))
                        (List.filter counts_for_root members)).

(** Lines 42-46. *)
Definition common_root (keep_root : bool) (members : list ZipInfo) : string :=
  if keep_root then ""
  else
    if bool_decide (size (top_levels members) = 1%nat) then
      match elements (top_levels members) with
      | seg :: _ => seg ++ "/"
      | [] => ""
      end
    else "".

(** Lines 49-51: the name an entry is extracted under. *)
Definition effective_name (common_root name : string) : string :=
  if truthy common_root && startswith name common_root
  then slice_from (String.length common_root) name
  else name.

(** [(member.external_attr >> 16) & 0o777]. *)
Definition unix_attr (member : ZipInfo) : Z :=
  Z.land (Z.shiftr (external_attr member) 16) 511.

(** Lines 70-75. *)
Definition apply_mode (env : Env) (target_path : Path) (member : ZipInfo)
  : M unit :=
  try_pass (if bool_decide (unix_attr member = 0) then mret tt
            else chmod env target_path (unix_attr member)).

(** The body of the loop of lines 48-75 for one [member]; returning is
    [continue] or the end of the body. *)
Definition process_member (env : Env) (dest_dir : Path) (overwrite : bool)
    (common_root : string) (member : ZipInfo) : M unit :=
  let member_name := effective_name common_root (filename member) in
  if negb (truthy member_name) then mret tt
  else
    let target_path := joinpath dest_dir member_name in
    if negb (is_within_directory env dest_dir target_path)
    then raise (ExtractionOutside (filename member))
    else if zip_is_dir member then mkdir_parents env target_path
    else
      mkdir_parents env (parent target_path) ;;
      present ← path_exists env target_path;
      if present && negb overwrite then mret tt
      else
        write_bytes env target_path (fault member) (data member) ;;
        apply_mode env target_path member.

(** [safe_extract], on the entries [zf.infolist()] returns. *)
Definition safe_extract (env : Env) (members : list ZipInfo) (dest_dir : Path)
    (overwrite keep_root : bool) : M unit :=
  for_each (process_member env dest_dir overwrite (common_root keep_root members))
           members.

(** [SITE_DIR = Path("./site").resolve()]. *)
Definition SITE_DIR (env : Env) : Path :=
  default (MkPath Slash []) (resolve env (parse "./site")).

(** *** The [/upload] route *)

(** The uploaded file: its name and, when its bytes are a zip archive,
    the entries of that archive ([zipfile.ZipFile] raises otherwise). *)
Record Upload := MkUpload {
  upload_name : string;
  archive : option (list ZipInfo)
}.

Record Request := MkRequest {
  files : list (string * Upload);
  args : list (string * string)
}.

(** [request.args.get(key, default)]: the first value of [key]. *)
Fixpoint args_get (args : list (string * string)) (key default : string)
  : string :=
  match args with
  | [] => default
  | (k, v) :: args' => if String.eqb k key then v else args_get args' key default
  end.

Fixpoint files_get (files : list (string * Upload)) (key : string)
  : option Upload :=
  match files with
  | [] => None
  | (k, v) :: files' => if String.eqb k key then Some v else files_get files' key
  end.

(** Lines 86-87. *)
Definition overwrite_option (req : Request) : bool :=
  String.eqb (lower (args_get (args req) "overwrite" "false")) "true".

Definition keep_root_option (req : Request) : bool :=
  String.eqb (lower (args_get (args req) "keep_root" "false")) "true".

(** [upload_zip]: the HTTP status it answers with. *)
Definition upload_zip (env : Env) (req : Request) : FS -> FS * Z :=
  λ fs,
    match files_get (files req) "zip" with
    | None => (fs, 400)
    | Some file =>
        if String.eqb (upload_name file) "" then (fs, 400)
        else
          let overwrite := overwrite_option req in
          let keep_root := keep_root_option req in
          match archive file with
          | None => (fs, 400)
          | Some members =>
              match safe_extract env members (SITE_DIR env) overwrite keep_root fs with
              | (fs', inl _) => (fs', 400)
              | (fs', inr _) => (fs', 200)
              end
          end
    end.

End RenderApp.

(** ** The other routes and the start of the process *)

Module Serve.
Import PyStr PurePath Fs Exn PathIO RenderApp.

(** What a view hands back: the call [send_from_directory(directory, path)]
    of Flask, whose code is not part of this program, or [abort(code)]; or
    an exception leaves the view, which Flask answers with status 500. *)
Inductive reply :=
| SendFromDirectory (directory path : string)
| Abort (code : Z)
| Uncaught (e : exn).

#[global] Instance reply_eq_dec : EqDecision reply.
Proof. solve_decision. Defined.

(** [serve_site(path)], lines 103-112; [and] calls [is_file()] only when
    [exists()] has returned [True]. *)
Definition serve_site (env : Env) (fs : FS) (path : string) : reply :=
  let target := joinpath (SITE_DIR env) path in
  match exists_ env fs target with
  | inl e => Uncaught (raised e)
  | inr found =>
      match (if found then is_file env fs target else inr false) with
      | inl e => Uncaught (raised e)
      | inr true => SendFromDirectory (to_str (SITE_DIR env)) path
      | inr false =>
          let index := joinpath (SITE_DIR env) "index.html" in
          match exists_ env fs index with
          | inl e => Uncaught (raised e)
          | inr true => SendFromDirectory (to_str (SITE_DIR env)) "index.html"
          | inr false => Abort 404
          end
      end
  end.

(** Line 28, run when the module is loaded:
    [SITE_DIR.mkdir(parents=True, exist_ok=True)]. *)
Definition startup (env : Env) : M unit :=
  mkdir_parents env (SITE_DIR env).

End Serve.

(** * The vocabulary of the properties *)

(** ** Names, query strings, containment, the result of a run *)

Module Words.
Import PyStr PurePath Fs Exn PathIO RenderApp.

(** A name without any slash. *)
Fixpoint no_slash (s : string) : bool :=
  match s with
  | EmptyString => true
  | String c s' => negb (Ascii.eqb c "/"%char) && no_slash s'
  end.

(** The first value a query string gives to [key], if any. *)
Fixpoint query_value (args : list (string * string)) (key : string)
  : option string :=
  match args with
  | [] => None
  | (k, v) :: args' => if String.eqb k key then Some v else query_value args' key
  end.

(** The sixteen spellings of [true] that differ only in case. *)
Definition spells_true (v : string) : Prop :=
  ∃ a b c d : ascii,
    v = String a (String b (String c (String d EmptyString))) ∧
    (a = "t"%char ∨ a = "T"%char) ∧ (b = "r"%char ∨ b = "R"%char) ∧
    (c = "u"%char ∨ c = "U"%char) ∧ (d = "e"%char ∨ d = "E"%char).

(** A query string that spells out the two options in lower case. *)
Definition plain_args (overwrite keep_root : bool) : list (string * string) :=
  [("overwrite", if overwrite then "true" else "false");
   ("keep_root", if keep_root then "true" else "false")].

(** An entry that is not a directory entry: its name is not empty and
    does not end in a slash. *)
Definition is_file_entry (p : ZipInfo) : Prop :=
  filename p ≠ "" ∧ endswith_slash (filename p) = false.

(** Containment by components: the resolved target is the resolved
    directory or lies below it. *)
Definition contained (env : Env) (directory target : Path) : Prop :=
  ∃ d t, resolve env directory = Some d ∧ resolve env target = Some t ∧
         parts d `prefix_of` parts t.

#[global] Instance contained_dec env directory target :
  Decision (contained env directory target).
Proof.
  unfold contained.
  destruct (resolve env directory) as [d|] eqn:Hd;
    [|right; by intros (? & ? & [=] & _)].
  destruct (resolve env target) as [t|] eqn:Ht;
    [|right; by intros (? & ? & _ & [=] & _)].
  destruct (decide (parts d `prefix_of` parts t)) as [H|H].
  - left. by exists d, t.
  - right. intros (? & ? & [= <-] & [= <-] & ?). done.
Defined.

(** The tree left by a run, whatever its outcome. *)
Definition tree_after (m : M unit) (fs : FS) : FS := (m fs).1.

(** What the run returned or raised. *)
Definition outcome (m : M unit) (fs : FS) : exn + unit := (m fs).2.

End Words.

(** ** The extractor over canonical locations *)

Module Canon.
Import PyStr PurePath Fs Exn PathIO RenderApp Words.
Local Open Scope list_scope.

(** Two nodes of the same kind: both directories or both files. *)
Definition same_kind (n n' : node) : Prop :=
  match n, n' with
  | Dir, Dir => True
  | File _ _, File _ _ => True
  | _, _ => False
  end.

(** [fs'] has every node of [fs], with its kind. *)
Definition extends (fs fs' : FS) : Prop :=
  ∀ l n, fs !! l = Some n → ∃ n', fs' !! l = Some n' ∧ same_kind n n'.

(** [fs'] has every node of [fs] unchanged and only directories more. *)
Definition grows (fs fs' : FS) : Prop :=
  fs ⊆ fs' ∧ ∀ l, fs !! l = None → is_Some (fs' !! l) → fs' !! l = Some Dir.

(** A well-formed tree in which the working directory exists. *)
Definition ready (env : Env) (fs : FS) : Prop :=
  wf fs ∧ fs !! cwd env = Some Dir.

#[global] Instance ready_dec env fs : Decision (ready env fs).
Proof. unfold ready. apply _. Defined.

(** What [p.mkdir(parents=True, exist_ok=True)] comes to on a path the
    system takes: walk the components, making each missing directory, and
    stop at a file or at a name that is too long. *)
Fixpoint mkdir_walk (fs : FS) (cur : loc) (ps : list string) : FS * bool :=
  match ps with
  | [] => (fs, true)
  | x :: ps' =>
      if long_name x then (fs, false)
      else
        let next := enter cur x in
        match fs !! next with
        | Some Dir => mkdir_walk fs next ps'
        | Some (File _ _) => (fs, false)
        | None => mkdir_walk (<[next := Dir]> fs) next ps'
        end
  end.

(** The same for any path: nothing is made for one the system refuses. *)
Definition mkdir_sem (env : Env) (p : Path) (fs : FS) : FS * bool :=
  match path_check p with
  | Some _ => (fs, false)
  | None => mkdir_walk fs (start env p) (parts p)
  end.

(** Is the last component of the path too long? *)
Definition long_last (p : Path) : bool :=
  match last (parts p) with
  | Some x => long_name x
  | None => false
  end.

(** Did the call end without an exception? *)
Definition ok {A} (r : exn + A) : bool :=
  match r with inr _ => true | inl _ => false end.

(** The canonical location a path names. *)
Definition target_loc (env : Env) (p : Path) : loc :=
  fold_left enter (parts p) (start env p).

(** The mode a written file ends with: the entry's, when it has one and
    [chmod] is permitted, else the one the file had. *)
Definition new_mode (env : Env) (l : loc) (member : ZipInfo) (mode : Z) : Z :=
  if bool_decide (unix_attr member = 0) then mode
  else if chmod_permitted env l (unix_attr member) then unix_attr member
  else mode.

(** Lines 68-75 at the location [l] for a target that can be opened, a
    file of mode [mode] or a missing one that the call makes with it. *)
Definition store (env : Env) (member : ZipInfo) (l : loc) (mode : Z) (fs : FS)
  : FS * bool :=
  match fault member with
  | Sound => (<[l := File (data member) (new_mode env l member mode)]> fs, true)
  | Unopenable => (fs, false)
  | Corrupt => (<[l := File (data member) mode]> fs, false)
  end.

(** Lines 64-75 at the location [l], once the parents exist and the
    system takes the path. *)
Definition write_sem (env : Env) (overwrite : bool) (member : ZipInfo)
    (l : loc) (fs : FS) : FS * bool :=
  match fs !! l with
  | Some Dir => (fs, negb overwrite)
  | Some (File _ mode) =>
      if overwrite
      then if open_permitted env l mode then store env member l mode fs
           else (fs, false)
      else (fs, true)
  | None => store env member l (create_mode env) fs
  end.

(** The tree one entry leaves and whether it ended without an exception,
    in terms of canonical locations. *)
Definition step_sem (env : Env) (dest_dir : Path) (overwrite : bool)
    (common_root : string) (member : ZipInfo) (fs : FS) : FS * bool :=
  let member_name := effective_name common_root (filename member) in
  if negb (truthy member_name) then (fs, true)
  else
    let target_path := joinpath dest_dir member_name in
    if negb (is_within_directory env dest_dir target_path) then (fs, false)
    else if zip_is_dir member then mkdir_sem env target_path fs
    else
      match mkdir_sem env (parent target_path) fs with
      | (fs1, false) => (fs1, false)
      | (fs1, true) =>
          if long_path target_path || long_last target_path then (fs1, false)
          else write_sem env overwrite member (target_loc env target_path) fs1
      end.

(** The location an entry is extracted to. *)
Definition entry_loc (env : Env) (dest_dir : Path) (common_root : string)
    (member : ZipInfo) : loc :=
  target_loc env (joinpath dest_dir (effective_name common_root (filename member))).

(** The tree [t] has the entry [m] at [l]: a node is there, a directory
    for a directory entry, and a file for a file entry when [overwrite] is
    on (with it off, a node that was there before is kept). *)
Definition holds_entry (t : FS) (overwrite : bool) (m : ZipInfo) (l : loc)
  : Prop :=
  is_Some (t !! l) ∧
  (zip_is_dir m = true → t !! l = Some Dir) ∧
  (zip_is_dir m = false → overwrite = true →
   ∃ c mode, t !! l = Some (File c mode)).

(** The path an entry is extracted to. *)
Definition entry_path (dest_dir : Path) (common_root : string)
    (member : ZipInfo) : Path :=
  joinpath dest_dir (effective_name common_root (filename member)).

(** The tree with the missing directories of [p] made. *)
Definition made (env : Env) (p : Path) (fs : FS) : FS :=
  (mkdir_walk fs (start env p) (parts p)).1.

(** No file stands where the walk from [cur] along [ps] needs a
    directory. *)
Fixpoint clear_walk (fs : FS) (cur : loc) (ps : list string) : bool :=
  match ps with
  | [] => true
  | x :: ps' =>
      match fs !! enter cur x with
      | Some (File _ _) => false
      | _ => clear_walk fs (enter cur x) ps'
      end
  end.

Definition way_clear (env : Env) (p : Path) (fs : FS) : bool :=
  clear_walk fs (start env p) (parts p).

(** A path the system takes: shorter than [PATH_MAX], no component
    longer than [NAME_MAX]. *)
Definition short_names (p : Path) : bool :=
  negb (long_path p) && negb (existsb long_name (parts p)).

(** An archive whose entries are all read to their end. *)
Definition sound (members : list ZipInfo) : Prop :=
  Forall (λ m, fault m = Sound) members.

#[global] Instance sound_dec members : Decision (sound members).
Proof. unfold sound. apply _. Defined.

(** The file an entry is extracted to stays writable for the process: at
    the location of a file entry it may open a file with the mode new
    files get, and one with the permission bits of the entry. *)
Definition writable_entry (env : Env) (dest_dir : Path) (common_root : string)
    (m : ZipInfo) : Prop :=
  zip_is_dir m = false →
  open_permitted env (entry_loc env dest_dir common_root m) (create_mode env)
  = true ∧
  (unix_attr m ≠ 0 →
   open_permitted env (entry_loc env dest_dir common_root m) (unix_attr m)
   = true).

#[global] Instance writable_entry_dec env dest_dir common_root m :
  Decision (writable_entry env dest_dir common_root m).
Proof. unfold writable_entry. apply _. Defined.

(** The same for every entry of an archive. *)
Definition stays_writable (env : Env) (dest_dir : Path) (common_root : string)
    (members : list ZipInfo) : Prop :=
  Forall (writable_entry env dest_dir common_root) members.

#[global] Instance stays_writable_dec env dest_dir common_root members :
  Decision (stays_writable env dest_dir common_root members).
Proof. unfold stays_writable. apply _. Defined.

(** The loop of [safe_extract] over [step_sem]: it stops at the first
    entry that raises. *)
Fixpoint run_sem (env : Env) (dest_dir : Path) (overwrite : bool)
    (common_root : string) (members : list ZipInfo) (fs : FS) : FS * bool :=
  match members with
  | [] => (fs, true)
  | member :: rest =>
      match step_sem env dest_dir overwrite common_root member fs with
      | (fs1, true) => run_sem env dest_dir overwrite common_root rest fs1
      | (fs1, false) => (fs1, false)
      end
  end.

(** The same process with another answer to [chmod]. *)
Definition with_chmod (env : Env) (permit : loc → Z → bool) : Env :=
  MkEnv (cwd env) (create_mode env) permit (open_permitted env).

(** Two trees with the same directories and the same files with the same
    bytes; the modes of the files may differ. *)
Definition same_node (o o' : option node) : Prop :=
  match o, o' with
  | None, None => True
  | Some Dir, Some Dir => True
  | Some (File c _), Some (File c' _) => c = c'
  | _, _ => False
  end.

Definition same_files (fs fs' : FS) : Prop :=
  ∀ l, same_node (fs !! l) (fs' !! l).

End Canon.

(** ** The writes of a run, replayed *)

Module Replay.
Import PyStr PurePath Fs Exn PathIO RenderApp Words Canon.
Local Open Scope list_scope.

(** What a successful write of a file entry does to a file that is there:
    new bytes and, when [chmod] went through, a new mode. *)
Record action := MkAction {
  a_loc : loc;
  a_data : list byte;
  a_mode : option Z
}.

Definition mode_opt (env : Env) (l : loc) (member : ZipInfo) : option Z :=
  if bool_decide (unix_attr member = 0) then None
  else if chmod_permitted env l (unix_attr member) then Some (unix_attr member)
  else None.

Definition file_action (env : Env) (dest_dir : Path) (root_ : string)
    (member : ZipInfo) : option action :=
  if negb (truthy (effective_name root_ (filename member))) || zip_is_dir member
  then None
  else Some (MkAction (entry_loc env dest_dir root_ member) (data member)
               (mode_opt env (entry_loc env dest_dir root_ member) member)).

Definition upd (a : action) (n : node) : node :=
  match n with
  | Dir => Dir
  | File _ mode => File (a_data a) (default mode (a_mode a))
  end.

Definition apply_action (u : FS) (a : action) : FS :=
  match u !! a_loc a with
  | Some n => <[a_loc a := upd a n]> u
  | None => u
  end.

Definition replay (acts : list action) (u : FS) : FS :=
  fold_left apply_action acts u.

(** The same, at one location. *)
Definition upd_at (k : loc) (o : option node) (a : action) : option node :=
  if decide (a_loc a = k) then upd a <$> o else o.

Definition replay_at (acts : list action) (k : loc) (o : option node)
  : option node :=
  fold_left (upd_at k) acts o.

(** The writes of a run with [overwrite=True], in order. *)
Fixpoint trace (env : Env) (dest_dir : Path) (root_ : string)
    (members : list ZipInfo) (fs : FS) : list action :=
  match members with
  | [] => []
  | m :: rest =>
      match step_sem env dest_dir true root_ m fs with
      | (fs1, true) =>
          option_list (file_action env dest_dir root_ m)
          ++ trace env dest_dir root_ rest fs1
      | (_, false) => []
      end
  end.

Definition settled (acts : list action) (t : FS) : Prop :=
  ∀ k, replay_at acts k (t !! k) = t !! k.

Definition all_files (acts : list action) (t : FS) : Prop :=
  ∀ a, a ∈ acts → ∃ c mode, t !! a_loc a = Some (File c mode).

Definition inv (env : Env) (acts : list action) (t : FS) : Prop :=
  ready env t ∧ settled acts t ∧ all_files acts t.

(** A run on [u] may open what a run on [fs] may: a file of [u] can be
    opened for writing exactly when the file of [fs] at its place can, and
    it can when [fs] has none there. *)
Definition agree (env : Env) (fs u : FS) : Prop :=
  ∀ l c mode,
    u !! l = Some (File c mode) →
    open_permitted env l mode
    = match fs !! l with
      | Some (File _ mode0) => open_permitted env l mode0
      | _ => true
      end.

End Replay.

(** ** Words for the further properties *)

Module MoreWords.
Import PyStr PurePath Fs Exn PathIO RenderApp Serve Words Canon.
Local Open Scope list_scope.

(** A component name: not empty, no slash. *)
Definition plain (x : string) : bool := truthy x && no_slash x.

(** What the string test of the containment check comes to on components:
    the target agrees with the directory up to the directory's last
    component, and at that place holds a name that starts with it. *)
Definition accepts (d t : list string) : Prop :=
  d = [] ∨
  ∃ pre x y rest, d = pre ++ [x] ∧ t = pre ++ y :: rest ∧
                  startswith y x = true.

(** The working directory is given by names, none of them [".."]. *)
Definition canonical (env : Env) : Prop := ".." ∉ cwd env.

#[global] Instance canonical_dec env : Decision (canonical env).
Proof. unfold canonical. apply _. Defined.

(** The location of [SITE_DIR]. *)
Definition site_loc (env : Env) : loc := cwd env ++ ["site"].

(** What the system has against a path as such: a NUL byte, too many
    bytes in all, or a component that is too long. *)
Definition path_error (p : Path) : option errno :=
  match path_check p with
  | Some e => Some e
  | None => if existsb long_name (parts p) then Some ENAMETOOLONG else None
  end.

(** The archive of an upload can be extracted again: its entries are all
    read to their end and, when [overwrite] is on, its files stay writable
    for the process. *)
Definition repeatable (env : Env) (req : Request) : Prop :=
  ∀ file members,
    files_get (files req) "zip" = Some file →
    archive file = Some members →
    sound members ∧
    (overwrite_option req = true →
     stays_writable env (SITE_DIR env)
       (common_root (keep_root_option req) members) members).

End MoreWords.

(** ** A small world to run the extractor in *)

Module Sample.
Import PyStr PurePath Fs Exn PathIO RenderApp Words.

(** The process runs in [/] and owns every file: new files get mode
    [0o644], every [chmod] is permitted, and a file can be opened for
    writing when its mode has the owner's write bit, [0o200]. *)
Definition env0 : Env := MkEnv [] 420 (λ _ _, true) (λ _ mode, Z.testbit mode 7).

(** The same, but no [chmod] is permitted. *)
Definition env_strict : Env :=
  MkEnv [] 420 (λ _ _, false) (λ _ mode, Z.testbit mode 7).

(** A disk that holds the empty directory [/site] and nothing else. *)
Definition fs0 : FS := <[ ["site"] := Dir ]> (<[ [] := Dir ]> ∅).

Definition site : Path := MkPath Slash ["site"].

(** A file entry with mode [0o644] and a directory entry. *)
Definition file_entry (name : string) (bytes : list byte) : ZipInfo :=
  MkZipInfo name (Z.shiftl 420 16) bytes Sound.

Definition dir_entry (name : string) : ZipInfo :=
  MkZipInfo name (Z.shiftl 493 16) [] Sound.

Definition project_archive : list ZipInfo :=
  [dir_entry "project/";
   file_entry "project/index.html" [x68; x69];
   dir_entry "project/css/";
   file_entry "project/css/a.css" [x61]].

(** An executable file, mode [0o755]. *)
Definition script_entry : ZipInfo :=
  MkZipInfo "run.sh" (Z.shiftl 493 16) [x61] Sound.


(** An archive whose second entry names a file in a sibling of [/site]
    whose name starts with [site]. *)
Definition sibling_archive : list ZipInfo :=
  [file_entry "index.html" [x68; x69];
   file_entry "../site-evil/x.txt" [x61]].

(** A disk on which [/site/index.html] is there already. *)
Definition fs_with_index : FS :=
  <[ ["site"; "index.html"] := File [x68; x69] 384 ]> fs0.


(** A file entry with mode [0o444], and one whose check sum is wrong. *)
Definition readonly_entry : ZipInfo :=
  MkZipInfo "index.html" (Z.shiftl 292 16) [x61] Sound.

Definition corrupt_entry : ZipInfo :=
  MkZipInfo "index.html" (Z.shiftl 420 16) [x61] Corrupt.

(** An upload of an archive with one file, with [overwrite] spelt in
    capitals and a value of [keep_root] that is not [true]. *)
Definition upload_sample : Request :=
  MkRequest [("zip", MkUpload "site.zip" (Some [file_entry "index.html" [x61]]))]
            [("overwrite", "TRUE"); ("keep_root", "yes")].

(** A name of 256 bytes, one more than [NAME_MAX]. *)
Definition long_component : string :=
  Eval cbv in String.concat "" (replicate 256 "a").

(** An archive that writes [a.txt] twice, with a read-only file between. *)
Definition locked_archive : list ZipInfo :=
  [file_entry "a.txt" [x61];
   MkZipInfo "f.txt" (Z.shiftl 292 16) [x62] Sound;
   file_entry "a.txt" [x63]].

End Sample.

Ltac by_compute :=
  cbv zeta; repeat split;
  (apply (bool_decide_eq_true_1 _); vm_compute; reflexivity).

(** * Properties *)

(** ** Strings *)

Module PyStrFacts.
Import PyStr.
Import Words Canon Replay.

Lemma startswith_app (pre r : string) : startswith (pre ++ r) pre = true.
Proof.
  induction pre as [|a pre IH]; simpl; [done|].
  rewrite Ascii.eqb_refl. exact IH.
Qed.

Lemma startswith_inv (s pre : string) :
  startswith s pre = true → ∃ r, s = pre ++ r.
Proof.
  revert s; induction pre as [|a pre IH]; intros s H; simpl in *.
  - by exists s.
  - destruct s as [|b s]; [done|].
    apply andb_true_iff in H as [Hab H].
    apply Ascii.eqb_eq in Hab as ->.
    destruct (IH _ H) as [r ->]. by exists r.
Qed.

Lemma startswith_iff (s pre : string) :
  startswith s pre = true ↔ ∃ r, s = pre ++ r.
Proof.
  split; [apply startswith_inv|]. intros [r ->]. apply startswith_app.
Qed.

Lemma slice_from_app (pre r : string) :
  slice_from (String.length pre) (pre ++ r) = r.
Proof. induction pre; simpl; auto. Qed.

Lemma split_slash_nonempty (s : string) : split_slash s ≠ [].
Proof.
  induction s as [|c s IH]; simpl; [done|].
  destruct (Ascii.eqb c "/"%char); [done|]. by destruct (split_slash s).
Qed.

Lemma split_slash_no_slash (s : string) :
  no_slash s = true → split_slash s = [s].
Proof.
  induction s as [|c s IH]; simpl; [done|].
  intros [Hc Hs]%andb_true_iff. apply negb_true_iff in Hc. rewrite Hc.
  by rewrite (IH Hs).
Qed.


Lemma endswith_slash_app (s : string) : endswith_slash (s ++ "/") = true.
Proof.
  induction s as [|c s IH]; simpl; [done|].
  destruct (s ++ "/") eqn:E; [by destruct s|]. done.
Qed.

Lemma truthy_false (s : string) : truthy s = false ↔ s = "".
Proof. by destruct s. Qed.

End PyStrFacts.

(** ** Option parsing of the [/upload] route *)

Module UploadFacts.
Import PyStr PurePath Fs Exn PathIO RenderApp.
Import Words Canon Replay Sample.

Lemma args_get_query (args : list (string * string)) (key default : string) :
  args_get args key default = from_option id default (query_value args key).
Proof.
  induction args as [|[k v] args IH]; simpl; [done|].
  by destruct (String.eqb k key).
Qed.

Lemma lower_ascii_cases (c x : ascii) :
  (97 <= nat_of_ascii x <= 122)%nat →
  lower_ascii c = x ↔ c = x ∨ c = ascii_of_nat (nat_of_ascii x - 32).
Proof.
  intros Hx. unfold lower_ascii.
  assert (Hc : (nat_of_ascii c < 256)%nat) by apply nat_ascii_bounded.
  destruct ((65 <=? nat_of_ascii c)%nat && (nat_of_ascii c <=? 90)%nat) eqn:E.
  - apply andb_true_iff in E as [E1 E2].
    apply Nat.leb_le in E1, E2. split.
    + intros <-. right.
      rewrite nat_ascii_embedding by lia.
      replace (nat_of_ascii c + 32 - 32)%nat with (nat_of_ascii c) by lia.
      by rewrite ascii_nat_embedding.
    + intros [-> | ->]; [lia|].
      rewrite nat_ascii_embedding by lia.
      replace (nat_of_ascii x - 32 + 32)%nat with (nat_of_ascii x) by lia.
      apply ascii_nat_embedding.
  - split; [by left|]. intros [-> | ->]; [done|].
    rewrite nat_ascii_embedding in E by lia.
    apply andb_false_iff in E as [E|E]; apply Nat.leb_gt in E; lia.
Qed.

Lemma lower_true (v : string) : lower v = "true" ↔ spells_true v.
Proof.
  split.
  - intros H.
    destruct v as [|a [|b [|c [|d [|]]]]]; simpl in H; try discriminate.
    injection H as Ha Hb Hc Hd.
    exists a, b, c, d. split; [done|].
    apply (lower_ascii_cases _ "t"%char) in Ha; [|vm_compute; lia].
    apply (lower_ascii_cases _ "r"%char) in Hb; [|vm_compute; lia].
    apply (lower_ascii_cases _ "u"%char) in Hc; [|vm_compute; lia].
    apply (lower_ascii_cases _ "e"%char) in Hd; [|vm_compute; lia].
    simpl in Ha, Hb, Hc, Hd. done.
  - intros (a & b & c & d & -> & Ha & Hb & Hc & Hd).
    destruct Ha as [-> | ->], Hb as [-> | ->], Hc as [-> | ->], Hd as [-> | ->];
      reflexivity.
Qed.

Lemma option_true_iff (args : list (string * string)) (key : string) :
  String.eqb (lower (args_get args key "false")) "true" = true ↔
  ∃ v, query_value args key = Some v ∧ spells_true v.
Proof.
  rewrite String.eqb_eq, args_get_query, lower_true.
  destruct (query_value args key) as [v|]; simpl.
  - split; [by exists v|]. by intros (? & [= <-] & ?).
  - split; [|by intros (? & [=] & _)].
    intros (a & b & c & d & [=] & _).
Qed.

(** C10. At the upload endpoint [overwrite] and [keep_root] are true exactly
    when the query string gives the parameter a value that is [true] up to
    the case of its letters; an absent parameter and every other value
    ([1], [yes], a misspelling) read as false.  And the endpoint acts on
    them: a request that carries an archive is answered by extracting it
    into [SITE_DIR] with exactly the options the query string spells, and
    with 200 when that extraction raises nothing, whatever the values are:
    none is rejected. *)
Theorem upload_options_case_insensitive (env : Env) (req : Request) :
  (overwrite_option req = true ↔
     ∃ v, query_value (args req) "overwrite" = Some v ∧ lower v = "true") ∧
  (keep_root_option req = true ↔
     ∃ v, query_value (args req) "keep_root" = Some v ∧ lower v = "true") ∧
  (∀ v, lower v = "true" ↔ spells_true v) ∧
  (∀ (fs : FS) (file : Upload) (members : list ZipInfo) (o k : bool),
     files_get (files req) "zip" = Some file →
     upload_name file ≠ "" →
     archive file = Some members →
     (o = true ↔
        ∃ v, query_value (args req) "overwrite" = Some v ∧ spells_true v) →
     (k = true ↔
        ∃ v, query_value (args req) "keep_root" = Some v ∧ spells_true v) →
     upload_zip env req fs
     = (tree_after (safe_extract env members (SITE_DIR env) o k) fs,
        if ok (outcome (safe_extract env members (SITE_DIR env) o k) fs)
        then 200 else 400)).
Proof.
  split; [|split; [|split]].
  - unfold overwrite_option. rewrite option_true_iff.
    by setoid_rewrite lower_true.
  - unfold keep_root_option. rewrite option_true_iff.
    by setoid_rewrite lower_true.
  - apply lower_true.
  - intros fs file members o k Hfile Hname Harch Ho Hk.
    assert (overwrite_option req = o) as <-.
    { apply eq_true_iff_eq. unfold overwrite_option.
      by rewrite option_true_iff, Ho. }
    assert (keep_root_option req = k) as <-.
    { apply eq_true_iff_eq. unfold keep_root_option.
      by rewrite option_true_iff, Hk. }
    unfold upload_zip, tree_after, outcome. rewrite Hfile, Harch.
    destruct (String.eqb_spec (upload_name file) ""); [done|].
    by destruct (safe_extract env members (SITE_DIR env) _ _ fs) as [t [e|[]]].
Qed.

Lemma upload_options_case_insensitive_witness :
  upload_zip env0 upload_sample fs_with_index
  = (<[ ["site"; "index.html"] := File [x61] 420 ]> fs_with_index, 200).
Proof.
  destruct (upload_options_case_insensitive env0 upload_sample)
    as (_ & _ & _ & H).
  rewrite (H fs_with_index (MkUpload "site.zip" (Some [file_entry "index.html" [x61]]))
             [file_entry "index.html" [x61]] true false).
  - apply (bool_decide_eq_true_1 _). vm_compute. reflexivity.
  - reflexivity.
  - discriminate.
  - reflexivity.
  - split; [|done]. intros _. exists "TRUE". split; [reflexivity|].
    exists "T"%char, "R"%char, "U"%char, "E"%char. naive_solver.
  - split; [done|]. intros (v & [= <-] & a & b & c & d & [=] & _).
Defined.

Example overwrite_upper : overwrite_option (MkRequest [] [("overwrite", "TRUE")]) = true.
Proof. reflexivity. Qed.

Example overwrite_capitalised : overwrite_option (MkRequest [] [("overwrite", "True")]) = true.
Proof. reflexivity. Qed.

Example keep_root_one : keep_root_option (MkRequest [] [("keep_root", "1")]) = false.
Proof. reflexivity. Qed.

Example keep_root_yes : keep_root_option (MkRequest [] [("keep_root", "yes")]) = false.
Proof. reflexivity. Qed.

Example overwrite_misspelt : overwrite_option (MkRequest [] [("overwrite", "ture")]) = false.
Proof. reflexivity. Qed.

Example overwrite_absent : overwrite_option (MkRequest [] [("keep_root", "true")]) = false.
Proof. reflexivity. Qed.

End UploadFacts.

(** ** The common root and the names entries are extracted under *)

Module RootFacts.
Import PyStr PyStrFacts PurePath Fs Exn PathIO RenderApp.
Import Words Canon Replay.

Lemma counts_for_root_iff (p : ZipInfo) :
  counts_for_root p = true ↔ is_file_entry p.
Proof.
  unfold counts_for_root, is_file_entry.
  rewrite andb_true_iff, negb_true_iff.
  destruct (filename p); simpl; split; intros [? ?]; split; congruence.
Qed.

Lemma elem_of_top_levels (members : list ZipInfo) (seg : string) :
  seg ∈ top_levels members ↔
  ∃ p, p ∈ members ∧ is_file_entry p ∧ first_segment (filename p) = seg.
Proof.
  unfold top_levels. rewrite elem_of_list_to_set, list_elem_of_In, in_map_iff.
  split.
  - intros (p & <- & [Hp Hc]%filter_In).
    exists p. by rewrite list_elem_of_In, <- counts_for_root_iff.
  - intros (p & Hp & Hc & <-). exists p. split; [done|].
    apply filter_In. by rewrite <- list_elem_of_In, counts_for_root_iff.
Qed.

Lemma common_root_singleton (members : list ZipInfo) (seg : string) :
  top_levels members = {[seg]} → common_root false members = seg ++ "/".
Proof.
  intros H. unfold common_root. rewrite H, size_singleton.
  rewrite bool_decide_eq_true_2 by done. by rewrite elements_singleton.
Qed.

Lemma common_root_not_one (members : list ZipInfo) :
  size (top_levels members) ≠ 1%nat → common_root false members = "".
Proof. intros H. unfold common_root. by rewrite bool_decide_eq_false_2. Qed.

Lemma first_segment_no_slash (name : string) :
  no_slash (first_segment name) = true.
Proof.
  unfold first_segment.
  induction name as [|c name IH]; simpl; [done|].
  destruct (Ascii.eqb c "/"%char) eqn:E; [done|].
  destruct (split_slash name) as [|w ws]; simpl in *; by rewrite E.
Qed.

Lemma first_segment_prefix (name : string) :
  name = first_segment name ∨
  ∃ r, name = first_segment name ++ "/" ++ r.
Proof.
  unfold first_segment.
  induction name as [|c name IH]; simpl; [by left|].
  destruct (Ascii.eqb c "/"%char) eqn:E.
  - apply Ascii.eqb_eq in E as ->. right. by exists name.
  - pose proof (split_slash_nonempty name) as Hne.
    destruct (split_slash name) as [|w ws]; [done|]. simpl in *.
    destruct IH as [IH|[r IH]]; [left|right; exists r]; by rewrite IH at 1.
Qed.


Lemma common_root_one_segment (members : list ZipInfo) (seg : string) :
  (∃ p, p ∈ members ∧ is_file_entry p ∧ first_segment (filename p) = seg) →
  (∀ p, p ∈ members → is_file_entry p → first_segment (filename p) = seg) →
  common_root false members = seg ++ "/".
Proof.
  intros Hex Hall. apply common_root_singleton.
  apply set_eq. intros s. rewrite elem_of_singleton, elem_of_top_levels.
  split.
  - intros (p & Hp & Hf & <-). by apply Hall.
  - intros ->. done.
Qed.

(** C3. With [keep_root] no common root is computed.  Without it, only
    entries with a non-empty name that does not end in a slash count: when
    their first segments are all one value the common root is that segment
    and a slash; when no entry counts, or two of them differ in their first
    segment, the common root is empty (and nothing is raised: the function
    is total).  The first segment of a name is its part before the first
    slash. *)
Theorem common_root_computation (members : list ZipInfo) :
  common_root true members = "" ∧
  (∀ seg,
     (∃ p, p ∈ members ∧ is_file_entry p ∧ first_segment (filename p) = seg) →
     (∀ p, p ∈ members → is_file_entry p → first_segment (filename p) = seg) →
     common_root false members = seg ++ "/") ∧
  ((∀ p, p ∈ members → ¬ is_file_entry p) → common_root false members = "") ∧
  (∀ p q, p ∈ members → q ∈ members → is_file_entry p → is_file_entry q →
     first_segment (filename p) ≠ first_segment (filename q) →
     common_root false members = "") ∧
  (∀ p, zip_is_dir p = true → ¬ is_file_entry p) ∧
  (∀ name, no_slash (first_segment name) = true ∧
           (name = first_segment name ∨
            ∃ r, name = first_segment name ++ "/" ++ r)).
Proof.
  split; [done|]. split; [|split; [|split; [|split]]].
  - apply common_root_one_segment.
  - intros Hnone. apply common_root_not_one.
    assert (top_levels members = ∅) as ->.
    { apply set_eq. intros s. rewrite elem_of_top_levels.
      split; [|by intros ?%not_elem_of_empty].
      intros (p & Hp & Hf & _). by destruct (Hnone p Hp). }
    by rewrite size_empty.
  - intros p q Hp Hq Hfp Hfq Hne. apply common_root_not_one.
    intros [s Hs]%size_1_elem_of.
    assert (first_segment (filename p) ∈ top_levels members) as Hp'
      by (apply elem_of_top_levels; eauto).
    assert (first_segment (filename q) ∈ top_levels members) as Hq'
      by (apply elem_of_top_levels; eauto).
    rewrite Hs in Hp', Hq'. apply elem_of_singleton in Hp', Hq'. congruence.
  - intros p Hd [_ Hf]. unfold zip_is_dir in Hd. congruence.
  - intros name. split; [apply first_segment_no_slash|apply first_segment_prefix].
Qed.

(** The corner case of the design notes: a lone top-level directory entry
    and files under two different top segments. *)
Example common_root_inconsistent_archive :
  common_root false
    [MkZipInfo "project/" 0 [] Sound; MkZipInfo "project/a.txt" 0 [] Sound;
     MkZipInfo "other/b.txt" 0 [] Sound] = "".
Proof. apply (bool_decide_eq_true_1 _). vm_compute. reflexivity. Qed.

Example common_root_project :
  common_root false
    [MkZipInfo "project/" 0 [] Sound; MkZipInfo "project/index.html" 0 [] Sound;
     MkZipInfo "project/css/a.css" 0 [] Sound] = "project/".
Proof. apply (bool_decide_eq_true_1 _). vm_compute. reflexivity. Qed.

End RootFacts.

Module StripFacts.
Import PyStr PyStrFacts PurePath Fs Exn PathIO RenderApp RootFacts Sample.
Import Words Canon Replay.

Lemma string_app_assoc (a b c : string) : (a ++ b) ++ c = a ++ b ++ c.
Proof. induction a; simpl; congruence. Qed.



Lemma effective_name_no_root (name : string) : effective_name "" name = name.
Proof. done. Qed.

(** C7. An entry whose name is empty after the common root is stripped is
    skipped: the tree is left as it is, nothing is raised, and the loop
    goes on with the entries that follow. *)
Theorem empty_name_skipped (env : Env) (dest_dir : Path) (overwrite : bool)
    (root_ : string) (member : ZipInfo) (rest : list ZipInfo) (fs : FS) :
  effective_name root_ (filename member) = "" →
  process_member env dest_dir overwrite root_ member fs = (fs, inr tt) ∧
  for_each (process_member env dest_dir overwrite root_) (member :: rest) fs
  = for_each (process_member env dest_dir overwrite root_) rest fs.
Proof.
  intros H.
  assert (Hstep : process_member env dest_dir overwrite root_ member fs
                  = (fs, inr tt)).
  { unfold process_member. by rewrite H. }
  split; [done|].
  simpl. unfold mbind, M_bind, bind. by rewrite Hstep.
Qed.

Lemma empty_name_skipped_witness :
  process_member env0 site false "project/" (dir_entry "project/") fs0
  = (fs0, inr tt).
Proof.
  apply (empty_name_skipped env0 site false "project/" (dir_entry "project/") []).
  reflexivity.
Defined.

End StripFacts.

(** ** The containment check *)

Module ContainFacts.
Import PyStr PyStrFacts PurePath Fs Exn PathIO RenderApp Sample.
Import Words Canon Replay.

Lemma join_slash_cons (w : string) (ws : list string) :
  ws ≠ [] → join_slash (w :: ws) = w ++ "/" ++ join_slash ws.
Proof. by destruct ws. Qed.

Lemma string_app_empty (w : string) : w ++ "" = w.
Proof. induction w; simpl; congruence. Qed.

Lemma join_slash_app (d r : list string) :
  d ≠ [] → ∃ rest, join_slash (d ++ r)%list = join_slash d ++ rest.
Proof.
  induction d as [|w d IH]; [done|]. intros _.
  destruct d as [|w' d].
  - destruct r as [|x r]; simpl.
    + exists "". by rewrite string_app_empty.
    + by exists ("/" ++ join_slash (x :: r)).
  - destruct IH as [rest IH]; [done|].
    exists rest.
    change ((w :: w' :: d) ++ r)%list with (w :: ((w' :: d) ++ r)%list).
    rewrite join_slash_cons by done. rewrite IH.
    rewrite (join_slash_cons w (w' :: d)) by done.
    by rewrite !StripFacts.string_app_assoc.
Qed.

(** The check never turns away a target that is contained ... *)
Lemma contained_accepted (env : Env) (directory target : Path) :
  contained env directory target →
  is_within_directory env directory target = true.
Proof.
  intros (d & t & Hd & Ht & [r Hr]).
  unfold is_within_directory. rewrite Hd, Ht.
  unfold resolve in Hd, Ht.
  destruct (existsb has_nul (parts directory)); [done|].
  destruct (existsb has_nul (parts target)); [done|].
  injection Hd as <-. injection Ht as <-. simpl in *.
  unfold to_str; simpl. rewrite Hr.
  destruct (fold_left enter (parts directory) (start env directory)) as [|w ws];
    [done|].
  destruct (join_slash_app (w :: ws) r) as [rest ->]; [done|].
  apply (startswith_app (String "/" (join_slash (w :: ws)))).
Qed.

(** ... so an entry it rejects does lie outside. *)
Lemma rejected_is_outside (env : Env) (directory target : Path) :
  is_within_directory env directory target = false →
  ¬ contained env directory target.
Proof. intros H Hc. apply contained_accepted in Hc. congruence. Qed.

(** C1 fails on the code. The check compares strings: [/site-evil/x.txt]
    starts with [/site], so the entry [../site-evil/x.txt] passes although
    its target is not contained in [/site], and the run, with the default
    options, ends without an exception and leaves a file outside the
    destination directory. *)
Theorem sibling_prefix_escapes :
  resolve env0 (joinpath site "../site-evil/x.txt")
    = Some (MkPath Slash ["site-evil"; "x.txt"]) ∧
  ¬ contained env0 site (joinpath site "../site-evil/x.txt") ∧
  is_within_directory env0 site (joinpath site "../site-evil/x.txt") = true ∧
  outcome (safe_extract env0 sibling_archive site false false) fs0 = inr tt ∧
  tree_after (safe_extract env0 sibling_archive site false false) fs0
    !! ["site-evil"; "x.txt"] = Some (File [x61] 420).
Proof.
  split; [reflexivity|]. split.
  - apply (bool_decide_eq_false_1 _). vm_compute. reflexivity.
  - by_compute.
Qed.

End ContainFacts.

(** ** The file system calls *)

Module FsFacts.
Import PyStr PurePath Fs Exn PathIO.
Import Words Canon Replay.
Local Open Scope list_scope.

Lemma same_kind_refl n : same_kind n n.
Proof. by destruct n. Qed.

Lemma same_kind_trans n1 n2 n3 :
  same_kind n1 n2 → same_kind n2 n3 → same_kind n1 n3.
Proof. by destruct n1, n2, n3. Qed.

Lemma same_kind_dir n : same_kind Dir n → n = Dir.
Proof. by destruct n. Qed.

Lemma same_kind_file c m n : same_kind (File c m) n → ∃ c' m', n = File c' m'.
Proof. destruct n; [done|]. eauto. Qed.

Lemma extends_refl fs : extends fs fs.
Proof. intros l n H. exists n. split; [done|apply same_kind_refl]. Qed.

Lemma extends_trans fs1 fs2 fs3 :
  extends fs1 fs2 → extends fs2 fs3 → extends fs1 fs3.
Proof.
  intros H12 H23 l n H.
  destruct (H12 l n H) as (n2 & H2 & K2).
  destruct (H23 l n2 H2) as (n3 & H3 & K3).
  exists n3. split; [done|]. by eapply same_kind_trans.
Qed.

Lemma extends_dir fs fs' l :
  extends fs fs' → fs !! l = Some Dir → fs' !! l = Some Dir.
Proof.
  intros H Hl. destruct (H l Dir Hl) as (n & Hn & K).
  by rewrite (same_kind_dir _ K) in Hn.
Qed.

Lemma extends_file fs fs' l c m :
  extends fs fs' → fs !! l = Some (File c m) →
  ∃ c' m', fs' !! l = Some (File c' m').
Proof.
  intros H Hl. destruct (H l _ Hl) as (n & Hn & K).
  destruct (same_kind_file _ _ _ K) as (c' & m' & ->). eauto.
Qed.

Lemma grows_refl fs : grows fs fs.
Proof. split; [done|]. intros l H [n Hn]. congruence. Qed.

Lemma grows_trans fs1 fs2 fs3 : grows fs1 fs2 → grows fs2 fs3 → grows fs1 fs3.
Proof.
  intros [S12 D12] [S23 D23]. split; [by etrans|].
  intros l H1 H3. destruct (fs2 !! l) as [n|] eqn:H2.
  - assert (n = Dir) as ->.
    { specialize (D12 l H1). rewrite H2 in D12.
      by injection (D12 (mk_is_Some _ _ eq_refl)). }
    by apply (lookup_weaken _ _ _ _ H2 S23).
  - by apply D23.
Qed.

Lemma grows_extends fs fs' : grows fs fs' → extends fs fs'.
Proof.
  intros [S _] l n H. exists n. split; [|apply same_kind_refl].
  by apply (lookup_weaken _ _ _ _ H S).
Qed.

Lemma grows_insert_dir (fs : FS) l : fs !! l = None → grows fs (<[l := Dir]> fs).
Proof.
  intros H. split; [by apply insert_subseteq|].
  intros k Hk [n Hn]. destruct (decide (l = k)) as [->|Hne].
  - by rewrite lookup_insert_eq.
  - rewrite lookup_insert_ne in Hn by done. congruence.
Qed.

(** *** Steps of path resolution *)

Lemma removelast_snoc (l : loc) (x : string) : removelast (l ++ [x]) = l.
Proof. apply removelast_last. Qed.

Lemma snoc_neq (l : loc) (x : string) : l ++ [x] ≠ l.
Proof.
  intros H. apply (f_equal length) in H. rewrite length_app in H.
  simpl in H. lia.
Qed.

Lemma wf_root fs : wf fs → fs !! [] = Some Dir.
Proof. by intros [H _]. Qed.

Lemma wf_parent fs l n :
  wf fs → fs !! l = Some n → fs !! removelast l = Some Dir.
Proof.
  intros [Hroot Hall] Hl. destruct (Hall l n Hl) as [->|H]; [|done].
  exact Hroot.
Qed.

Lemma wf_parent_snoc fs l x n :
  wf fs → fs !! (l ++ [x]) = Some n → fs !! l = Some Dir.
Proof.
  intros Hwf H. apply (wf_parent _ _ _ Hwf) in H.
  by rewrite removelast_snoc in H.
Qed.

Lemma enter_cases cur x :
  (x = ".." ∧ enter cur x = removelast cur) ∨
  (x ≠ ".." ∧ enter cur x = cur ++ [x]).
Proof.
  unfold enter. destruct (String.eqb_spec x ".."); [left|right]; done.
Qed.

Lemma enter_in_dir fs cur x :
  wf fs → fs !! cur = Some Dir → fs !! enter cur x = None →
  enter cur x = cur ++ [x].
Proof.
  intros Hwf Hcur Hnone.
  destruct (enter_cases cur x) as [[_ E]|[_ E]]; [|done].
  rewrite E, (wf_parent _ _ _ Hwf Hcur) in Hnone. done.
Qed.

Lemma wf_insert_child fs cur x n :
  wf fs → fs !! cur = Some Dir → fs !! (cur ++ [x]) = None →
  wf (<[cur ++ [x] := n]> fs).
Proof.
  intros Hwf Hcur Hnone. split.
  - rewrite lookup_insert_ne; [apply (wf_root _ Hwf)|]. by destruct cur.
  - apply map_Forall_insert; [done|]. split.
    + right. rewrite removelast_snoc, lookup_insert_ne; [done|apply snoc_neq].
    + intros k nk Hk. destruct k as [|k0 k] using rev_ind; [by left|]. right.
      clear IHk. pose proof (wf_parent_snoc _ _ _ _ Hwf Hk) as Hp.
      rewrite removelast_snoc, lookup_insert_ne; [done|]. congruence.
Qed.

Lemma wf_insert_file fs l c m c' m' :
  wf fs → fs !! l = Some (File c m) → wf (<[l := File c' m']> fs).
Proof.
  intros Hwf Hl. split.
  - rewrite lookup_insert_ne; [apply (wf_root _ Hwf)|].
    intros ->. rewrite (wf_root _ Hwf) in Hl. done.
  - intros k nk Hk.
    assert (Hin : is_Some (fs !! k)).
    { destruct (decide (l = k)) as [<-|Hne]; [eauto|].
      rewrite lookup_insert_ne in Hk by done. eauto. }
    destruct Hin as [n0 Hn0].
    destruct k as [|k0 k] using rev_ind; [by left|]. right. clear IHk.
    pose proof (wf_parent_snoc _ _ _ _ Hwf Hn0) as Hp.
    rewrite removelast_snoc, lookup_insert_ne; [done|]. congruence.
Qed.

(** *** Directory lookup and [mkdir] *)

Lemma lookup_dir_errno fs cur ps e :
  lookup_dir fs cur ps = inl e →
  e = ENOENT ∨ e = ENOTDIR ∨ e = ENAMETOOLONG.
Proof.
  revert cur. induction ps as [|x ps IH]; intros cur H; simpl in H; [done|].
  destruct (long_name x); [naive_solver|].
  destruct (fs !! enter cur x) as [[|]|]; naive_solver.
Qed.

Lemma lookup_dir_inr fs cur ps d :
  lookup_dir fs cur ps = inr d →
  d = fold_left enter ps cur ∧ (fs !! cur = Some Dir → fs !! d = Some Dir).
Proof.
  revert cur. induction ps as [|x ps IH]; intros cur H; simpl in *.
  - by injection H as <-.
  - destruct (long_name x); [done|].
    destruct (fs !! enter cur x) as [[|]|] eqn:E; try done.
    destruct (IH _ H) as [-> Hd]. split; [done|]. intros _. by apply Hd.
Qed.

Lemma lookup_dir_short fs cur ps d :
  lookup_dir fs cur ps = inr d → existsb long_name ps = false.
Proof.
  revert cur. induction ps as [|x ps IH]; intros cur H; simpl in *; [done|].
  destruct (long_name x); [done|].
  destruct (fs !! enter cur x) as [[|]|]; try done. by eapply IH.
Qed.

Lemma lookup_dir_app fs cur ps qs :
  lookup_dir fs cur (ps ++ qs)
  = match lookup_dir fs cur ps with
    | inl e => inl e
    | inr d => lookup_dir fs d qs
    end.
Proof.
  revert cur. induction ps as [|x ps IH]; intros cur; simpl; [done|].
  destruct (long_name x); [done|].
  by destruct (fs !! enter cur x) as [[|]|].
Qed.

Lemma lookup_dir_insert_other fs cur ps d l n :
  lookup_dir fs cur ps = inr d → fs !! l ≠ Some Dir →
  lookup_dir (<[l := n]> fs) cur ps = inr d.
Proof.
  intros H Hl. revert cur H.
  induction ps as [|x ps IH]; intros cur H; simpl in *; [done|].
  destruct (long_name x); [done|].
  destruct (fs !! enter cur x) as [[|]|] eqn:E; try done.
  rewrite lookup_insert_ne by congruence. rewrite E. by apply IH.
Qed.

Lemma mkdir_walk_app fs cur ps qs :
  mkdir_walk fs cur (ps ++ qs)
  = (let '(fs1, b) := mkdir_walk fs cur ps in
     if b then mkdir_walk fs1 (fold_left enter ps cur) qs else (fs1, false)).
Proof.
  revert fs cur. induction ps as [|x ps IH]; intros fs cur; simpl; [done|].
  destruct (long_name x); [done|].
  destruct (fs !! enter cur x) as [[|]|]; auto.
Qed.

Lemma mkdir_walk_found fs cur ps d :
  lookup_dir fs cur ps = inr d → mkdir_walk fs cur ps = (fs, true).
Proof.
  revert cur. induction ps as [|x ps IH]; intros cur H; simpl in *; [done|].
  destruct (long_name x); [done|].
  destruct (fs !! enter cur x) as [[|]|]; try done. by apply IH.
Qed.

(** Where the lookup stops for another reason than a missing directory,
    the walk stops too and has made nothing. *)
Lemma mkdir_walk_stopped fs cur ps e :
  lookup_dir fs cur ps = inl e → e ≠ ENOENT → mkdir_walk fs cur ps = (fs, false).
Proof.
  revert cur. induction ps as [|x ps IH]; intros cur H He; simpl in *; [done|].
  destruct (long_name x); [done|].
  destruct (fs !! enter cur x) as [[|]|]; try done; [by apply IH|congruence].
Qed.

Lemma mkdir_walk_grows fs cur ps fs' b :
  mkdir_walk fs cur ps = (fs', b) → grows fs fs'.
Proof.
  revert fs cur. induction ps as [|x ps IH]; intros fs cur H; simpl in H.
  - injection H as <- _. apply grows_refl.
  - destruct (long_name x); [injection H as <- _; apply grows_refl|].
    destruct (fs !! enter cur x) as [[|]|] eqn:E.
    + by eapply IH.
    + injection H as <- _. apply grows_refl.
    + eapply grows_trans; [by apply grows_insert_dir|]. by eapply IH.
Qed.

Lemma mkdir_walk_wf fs cur ps fs' b :
  wf fs → fs !! cur = Some Dir → mkdir_walk fs cur ps = (fs', b) → wf fs'.
Proof.
  revert fs cur. induction ps as [|x ps IH]; intros fs cur Hwf Hcur H;
    simpl in H.
  - by injection H as <- _.
  - destruct (long_name x); [by injection H as <- _|].
    destruct (fs !! enter cur x) as [[|]|] eqn:E.
    + by eapply IH.
    + by injection H as <- _.
    + pose proof (enter_in_dir _ _ _ Hwf Hcur E) as Heq. rewrite Heq in *.
      eapply IH; [| |exact H].
      * by apply wf_insert_child.
      * by rewrite lookup_insert_eq.
Qed.

Lemma mkdir_walk_made fs cur ps fs' :
  wf fs → fs !! cur = Some Dir → mkdir_walk fs cur ps = (fs', true) →
  lookup_dir fs' cur ps = inr (fold_left enter ps cur).
Proof.
  revert fs cur. induction ps as [|x ps IH]; intros fs cur Hwf Hcur H;
    simpl in *; [done|].
  destruct (long_name x); [done|].
  destruct (fs !! enter cur x) as [[|]|] eqn:E; [| done |].
  - destruct (mkdir_walk_grows _ _ _ _ _ H) as [Hsub _].
    rewrite (lookup_weaken _ _ _ _ E Hsub). by eapply IH.
  - pose proof (enter_in_dir _ _ _ Hwf Hcur E) as Heq. rewrite Heq in *.
    destruct (mkdir_walk_grows _ _ _ _ _ H) as [Hsub _].
    assert (fs' !! (cur ++ [x]) = Some Dir) as ->
      by (eapply lookup_weaken; [apply lookup_insert_eq|exact Hsub]).
    eapply IH; [| |exact H].
    + by apply wf_insert_child.
    + by rewrite lookup_insert_eq.
Qed.

(** *** Paths the system takes *)

Lemma string_length_app (a b : string) :
  String.length (a ++ b) = (String.length a + String.length b)%nat.
Proof. induction a; simpl; congruence. Qed.

Lemma join_slash_snoc_length (ps : list string) (x : string) :
  (String.length (join_slash ps) ≤ String.length (join_slash (ps ++ [x])))%nat.
Proof.
  induction ps as [|w ps IH]; simpl; [lia|].
  destruct ps as [|w' ps]; simpl in *.
  - rewrite string_length_app. lia.
  - rewrite !string_length_app. simpl. lia.
Qed.

Lemma long_path_snoc r ps x :
  long_path (MkPath r (ps ++ [x])) = false → long_path (MkPath r ps) = false.
Proof.
  unfold long_path, PATH_MAX. intros H.
  apply Z.leb_gt in H. apply Z.leb_gt.
  pose proof (join_slash_snoc_length ps x) as Hlen.
  destruct r; unfold to_str in *; cbn [root parts] in *.
  - destruct ps as [|w ps]; [simpl; lia|].
    change ((w :: ps) ++ [x]) with (w :: (ps ++ [x])) in *. lia.
  - rewrite string_length_app in *. lia.
  - rewrite string_length_app in *. lia.
Qed.

Lemma path_check_snoc r ps x :
  path_check (MkPath r (ps ++ [x])) = None → path_check (MkPath r ps) = None.
Proof.
  unfold path_check. cbn [parts]. rewrite existsb_app.
  destruct (existsb has_nul ps); [done|]. simpl.
  destruct (has_nul x); [done|]. simpl.
  destruct (long_path (MkPath r (ps ++ [x]))) eqn:E; [done|].
  by rewrite (long_path_snoc _ _ _ E).
Qed.

Lemma path_check_nil r : path_check (MkPath r []) = None.
Proof. by destruct r. Qed.


Lemma path_check_errno p e :
  path_check p = Some e → e = NulByte ∨ e = ENAMETOOLONG.
Proof.
  unfold path_check. destruct (existsb has_nul (parts p)); [naive_solver|].
  destruct (long_path p); naive_solver.
Qed.

Lemma namei_nil env fs r : namei env fs (MkPath r []) = inr (start env (MkPath r [])).
Proof. unfold namei. by rewrite path_check_nil. Qed.

Lemma namei_refused env fs p e : path_check p = Some e → namei env fs p = inl e.
Proof. intros H. unfold namei. by rewrite H. Qed.

Lemma namei_snoc env fs r ps x :
  path_check (MkPath r (ps ++ [x])) = None →
  namei env fs (MkPath r (ps ++ [x]))
  = match lookup_dir fs (start env (MkPath r [])) ps with
    | inl e => inl e
    | inr d => if long_name x then inl ENAMETOOLONG else inr (enter d x)
    end.
Proof.
  intros Hc. unfold namei. rewrite Hc. simpl.
  rewrite removelast_snoc, last_snoc.
  by destruct (lookup_dir _ _ _).
Qed.

Lemma os_mkdir_snoc env fs r ps x d :
  path_check (MkPath r (ps ++ [x])) = None →
  lookup_dir fs (start env (MkPath r [])) ps = inr d →
  long_name x = false →
  os_mkdir env fs (MkPath r (ps ++ [x]))
  = match fs !! enter d x with
    | Some _ => inl EEXIST
    | None => inr (<[enter d x := Dir]> fs)
    end.
Proof. intros Hc H Hx. unfold os_mkdir. by rewrite namei_snoc, H, Hx. Qed.

Lemma os_stat_snoc env fs r ps x d :
  path_check (MkPath r (ps ++ [x])) = None →
  lookup_dir fs (start env (MkPath r [])) ps = inr d →
  long_name x = false →
  os_stat env fs (MkPath r (ps ++ [x]))
  = match fs !! enter d x with
    | Some n => inr n
    | None => inl ENOENT
    end.
Proof. intros Hc H Hx. unfold os_stat. by rewrite namei_snoc, H, Hx. Qed.

Lemma os_mkdir_fail env fs p e :
  namei env fs p = inl e →
  os_mkdir env fs p = inl e ∧ os_stat env fs p = inl e.
Proof. intros H. unfold os_mkdir, os_stat. by rewrite H. Qed.

(** An error of the path itself is not forgiven. *)
Lemma forgive_fail env fs p e e' :
  namei env fs p = inl e' →
  ok (forgive env p e fs).2 = false ∧ (forgive env p e fs).1 = fs.
Proof.
  intros H. unfold forgive, is_dir, stat_test, os_stat. rewrite H.
  by destruct (ignored e').
Qed.

Lemma mkdir_exist_ok_walk env fs r ps x d :
  path_check (MkPath r (ps ++ [x])) = None →
  lookup_dir fs (start env (MkPath r [])) ps = inr d →
  ((mkdir_exist_ok env (MkPath r (ps ++ [x])) fs).1,
   ok (mkdir_exist_ok env (MkPath r (ps ++ [x])) fs).2)
  = mkdir_walk fs d [x].
Proof.
  intros Hc H. unfold mkdir_exist_ok. simpl.
  destruct (long_name x) eqn:Hx.
  - assert (Hn : namei env fs (MkPath r (ps ++ [x])) = inl ENAMETOOLONG)
      by by rewrite namei_snoc, H, Hx.
    destruct (os_mkdir_fail _ _ _ _ Hn) as [-> _].
    destruct (forgive_fail env fs _ ENAMETOOLONG _ Hn) as [Hok ->].
    by rewrite Hok.
  - rewrite (os_mkdir_snoc _ _ _ _ _ _ Hc H Hx).
    unfold forgive, is_dir, stat_test.
    rewrite (os_stat_snoc _ _ _ _ _ _ Hc H Hx).
    by destruct (fs !! enter d x) as [[|]|].
Qed.

(** [mkdir(parents=True, exist_ok=True)] leaves the tree, and succeeds or
    fails, as the walk does. *)
Lemma mkdir_parents_rev_walk env r rparts fs :
  wf fs → fs !! start env (MkPath r []) = Some Dir →
  ((mkdir_parents_rev env r rparts fs).1,
   ok (mkdir_parents_rev env r rparts fs).2)
  = mkdir_sem env (MkPath r (rev rparts)) fs.
Proof.
  revert fs. induction rparts as [|x rp IH]; intros fs Hwf Hst.
  - unfold mkdir_sem. simpl. rewrite path_check_nil.
    unfold os_mkdir, forgive, is_dir, stat_test, os_stat.
    rewrite namei_nil, Hst. done.
  - cbn [mkdir_parents_rev rev]. unfold mkdir_sem.
    destruct (path_check (MkPath r (rev rp ++ [x]))) as [e|] eqn:Hc.
    + pose proof (namei_refused env fs _ _ Hc) as Hn.
      destruct (os_mkdir_fail _ _ _ _ Hn) as [-> _].
      destruct (path_check_errno _ _ Hc) as [-> | ->]; [done|].
      destruct (forgive_fail env fs _ ENAMETOOLONG _ Hn) as [Hok ->].
      by rewrite Hok.
    + cbn [parts].
      change (start env (MkPath r (rev rp ++ [x])))
        with (start env (MkPath r [])).
      rewrite mkdir_walk_app.
      pose proof (path_check_snoc _ _ _ Hc) as Hc'.
      destruct (lookup_dir fs (start env (MkPath r [])) (rev rp)) as [e|d] eqn:L.
      * assert (Hn : namei env fs (MkPath r (rev rp ++ [x])) = inl e)
          by by rewrite namei_snoc, L.
        destruct (os_mkdir_fail _ _ _ _ Hn) as [-> _].
        destruct (decide (e = ENOENT)) as [->|Hne].
        -- specialize (IH fs Hwf Hst). unfold mkdir_sem in IH.
           rewrite Hc' in IH. cbn [parts] in IH.
           change (start env (MkPath r (rev rp)))
             with (start env (MkPath r [])) in IH.
           unfold mbind, M_bind, bind.
           destruct (mkdir_parents_rev env r rp fs) as [fs1 [e1|[]]] eqn:R;
             simpl in IH; rewrite <- IH; [done|].
           symmetry in IH.
           pose proof (mkdir_walk_made _ _ _ _ Hwf Hst IH) as L1.
           rewrite (mkdir_exist_ok_walk _ _ _ _ _ _ Hc L1). done.
        -- rewrite (mkdir_walk_stopped _ _ _ _ L Hne).
           destruct (forgive_fail env fs _ e _ Hn) as [Hok Hfs].
           destruct (lookup_dir_errno _ _ _ _ L) as [-> | [-> | ->]];
             [done| |]; by rewrite Hok, Hfs.
      * rewrite (mkdir_walk_found _ _ _ _ L).
        destruct (lookup_dir_inr _ _ _ _ L) as [<- _].
        pose proof (mkdir_exist_ok_walk env fs r (rev rp) x d Hc L) as Hw.
        rewrite <- Hw. unfold mkdir_exist_ok.
        destruct (long_name x) eqn:Hx.
        -- assert (Hn : namei env fs (MkPath r (rev rp ++ [x]))
                         = inl ENAMETOOLONG) by by rewrite namei_snoc, L, Hx.
           by destruct (os_mkdir_fail _ _ _ _ Hn) as [-> _].
        -- rewrite (os_mkdir_snoc _ _ _ _ _ _ Hc L Hx).
           by destruct (fs !! enter d x).
Qed.

Lemma mkdir_parents_walk env p fs :
  wf fs → fs !! start env p = Some Dir →
  ((mkdir_parents env p fs).1, ok (mkdir_parents env p fs).2)
  = mkdir_sem env p fs.
Proof.
  intros Hwf Hst. unfold mkdir_parents.
  rewrite mkdir_parents_rev_walk by done. rewrite rev_involutive.
  by destruct p.
Qed.

End FsFacts.

(** ** One entry of the archive *)

Module StepFacts.
Import PyStr PyStrFacts PurePath Fs Exn PathIO RenderApp FsFacts.
Import Words Canon Replay.
Local Open Scope list_scope.

Lemma bind_run {A B} (m : M A) (k : A → M B) (fs : FS) :
  (m ≫= k) fs
  = match m fs with
    | (fs', inl e) => (fs', inl e)
    | (fs', inr a) => k a fs'
    end.
Proof. done. Qed.

Lemma ready_start env fs p : ready env fs → fs !! start env p = Some Dir.
Proof.
  intros [Hwf Hcwd]. unfold start. destruct (root p); [done| |];
    apply (wf_root _ Hwf).
Qed.

Lemma namei_resolved env fs p d :
  path_check p = None → long_last p = false →
  lookup_dir fs (start env p) (removelast (parts p)) = inr d →
  namei env fs p = inr (target_loc env p).
Proof.
  intros Hc Hlast H. unfold namei, target_loc, long_last in *.
  rewrite Hc, H.
  destruct (lookup_dir_inr _ _ _ _ H) as [-> _].
  destruct (parts p) as [|x ps _] using rev_ind; [done|].
  rewrite last_snoc in *. rewrite Hlast.
  by rewrite removelast_snoc, fold_left_app.
Qed.

Lemma namei_long env fs p :
  existsb has_nul (parts p) = false →
  (∃ d, lookup_dir fs (start env p) (removelast (parts p)) = inr d) →
  long_path p || long_last p = true →
  namei env fs p = inl ENAMETOOLONG.
Proof.
  intros Hnul [d H] Hlong. unfold namei, path_check, long_last in *.
  rewrite Hnul. destruct (long_path p); [done|]. rewrite H.
  simpl in Hlong. destruct (last (parts p)); [|done]. by rewrite Hlong.
Qed.

Lemma within_no_nul env directory target :
  is_within_directory env directory target = true →
  existsb has_nul (parts target) = false.
Proof.
  unfold is_within_directory, resolve.
  destruct (existsb has_nul (parts directory)); [done|].
  by destruct (existsb has_nul (parts target)).
Qed.

Lemma path_check_short p :
  existsb has_nul (parts p) = false → long_path p = false →
  path_check p = None.
Proof. intros H1 H2. unfold path_check. by rewrite H1, H2. Qed.

Lemma try_pass_chmod env p l member fs c mode :
  namei env fs p = inr l → fs !! l = Some (File c mode) →
  apply_mode env p member fs
  = (<[l := File c (new_mode env l member mode)]> fs, inr tt).
Proof.
  intros Hn Hl. unfold apply_mode, new_mode, try_pass.
  case_bool_decide.
  - simpl. by rewrite insert_id.
  - unfold chmod, sys, os_chmod. rewrite Hn, Hl.
    destruct (chmod_permitted env l (unix_attr member)); [done|].
    by rewrite insert_id.
Qed.

Lemma write_step env p member overwrite fs d :
  existsb has_nul (parts p) = false →
  lookup_dir fs (start env p) (removelast (parts p)) = inr d →
  let res := (present ← path_exists env p;
              if present && negb overwrite then mret tt
              else write_bytes env p (fault member) (data member) ;;
                   apply_mode env p member)
               fs in
  (res.1, ok res.2)
  = if long_path p || long_last p then (fs, false)
    else write_sem env overwrite member (target_loc env p) fs.
Proof.
  intros Hnul H.
  destruct (long_path p || long_last p) eqn:Hlong.
  { pose proof (namei_long env fs p Hnul (ex_intro _ d H) Hlong) as Hn.
    unfold mbind, M_bind, bind, path_exists, exists_, stat_test, os_stat.
    by rewrite Hn. }
  apply orb_false_elim in Hlong as [Hlp Hll].
  pose proof (namei_resolved _ _ _ _ (path_check_short _ Hnul Hlp) Hll H) as Hn.
  set (l := target_loc env p) in *.
  unfold mbind, M_bind, bind, path_exists, exists_, stat_test, os_stat,
    write_sem, store.
  rewrite Hn.
  assert (Hafter : ∀ n, fs !! l ≠ Some Dir →
            namei env (<[l := n]> fs) p = inr l).
  { intros n Hd. apply (namei_resolved _ _ _ d); [by apply path_check_short|done|].
    by apply lookup_dir_insert_other. }
  destruct (fs !! l) as [[|c mode]|] eqn:E; simpl.
  - destruct overwrite; simpl; [|done].
    unfold write_bytes, sys, os_write, raise.
    destruct (fault member); try done; unfold mbind, M_bind, bind;
      by rewrite Hn, E.
  - destruct overwrite; simpl; [|done].
    unfold write_bytes, sys, os_write, raise.
    destruct (fault member); unfold mbind, M_bind, bind; rewrite ?Hn, ?E;
      destruct (open_permitted env l mode); try done.
    rewrite (try_pass_chmod env p l member _ (data member) mode);
      [|apply Hafter; congruence|by rewrite lookup_insert_eq].
    by rewrite insert_insert_eq.
  - unfold write_bytes, sys, os_write, raise.
    destruct (fault member); unfold mbind, M_bind, bind; rewrite ?Hn, ?E;
      try done.
    rewrite (try_pass_chmod env p l member _ (data member) (create_mode env));
      [|apply Hafter; congruence|by rewrite lookup_insert_eq].
    by rewrite insert_insert_eq.
Qed.

Lemma mkdir_sem_inv env p fs fs1 :
  mkdir_sem env p fs = (fs1, true) →
  path_check p = None ∧ mkdir_walk fs (start env p) (parts p) = (fs1, true).
Proof. unfold mkdir_sem. by destruct (path_check p). Qed.

Lemma mkdir_sem_grows env p fs fs1 b :
  mkdir_sem env p fs = (fs1, b) → grows fs fs1.
Proof.
  unfold mkdir_sem. destruct (path_check p).
  - intros [= <- _]. apply grows_refl.
  - apply mkdir_walk_grows.
Qed.

Lemma mkdir_sem_wf env p fs fs1 b :
  wf fs → fs !! start env p = Some Dir → mkdir_sem env p fs = (fs1, b) → wf fs1.
Proof.
  intros Hwf Hst. unfold mkdir_sem. destruct (path_check p).
  - by intros [= <- _].
  - by apply mkdir_walk_wf.
Qed.

(** [process_member] leaves the tree, and ends, as [step_sem] says. *)
Lemma process_member_sem env dest_dir overwrite root_ member fs :
  ready env fs →
  ((process_member env dest_dir overwrite root_ member fs).1,
   ok (process_member env dest_dir overwrite root_ member fs).2)
  = step_sem env dest_dir overwrite root_ member fs.
Proof.
  intros Hready. unfold process_member, step_sem.
  destruct (negb (truthy (effective_name root_ (filename member)))); [done|].
  set (tp := joinpath dest_dir (effective_name root_ (filename member))).
  destruct (is_within_directory env dest_dir tp) eqn:Hin; [|done]. simpl.
  pose proof (within_no_nul _ _ _ Hin) as Hnul.
  destruct Hready as [Hwf Hcwd].
  destruct (zip_is_dir member).
  - apply mkdir_parents_walk; [done|]. by apply ready_start.
  - pose proof (mkdir_parents_walk env (parent tp) fs Hwf
                  (ready_start _ _ _ (conj Hwf Hcwd))) as Hmk.
    rewrite bind_run.
    destruct (mkdir_parents env (parent tp) fs) as [fs1 [e|[]]];
      simpl in Hmk; rewrite <- Hmk; simpl; [done|].
    symmetry in Hmk. apply mkdir_sem_inv in Hmk as [_ Hmk].
    change (start env (parent tp)) with (start env tp) in Hmk.
    change (parts (parent tp)) with (removelast (parts tp)) in Hmk.
    pose proof (mkdir_walk_made _ _ _ _ Hwf
                  (ready_start _ _ tp (conj Hwf Hcwd)) Hmk) as L.
    apply (write_step env tp member overwrite fs1 _ Hnul L).
Qed.

Lemma ok_inr (r : exn + unit) : ok r = true → r = inr tt.
Proof. by destruct r as [|[]]. Qed.

(** *** What a step changes *)

(** After the parents are made, a missing target has a directory to go in. *)
Lemma slot_after_walk env fs p fs1 :
  ready env fs →
  mkdir_walk fs (start env p) (removelast (parts p)) = (fs1, true) →
  wf fs1 ∧
  (fs1 !! target_loc env p = None →
   ∃ d x, target_loc env p = d ++ [x] ∧ fs1 !! d = Some Dir).
Proof.
  intros Hready Hmk. pose proof (ready_start _ _ p Hready) as Hst.
  destruct Hready as [Hwf Hcwd].
  pose proof (mkdir_walk_wf _ _ _ _ _ Hwf Hst Hmk) as Hwf1.
  split; [done|]. intros Hnone.
  pose proof (mkdir_walk_made _ _ _ _ Hwf Hst Hmk) as L.
  destruct (mkdir_walk_grows _ _ _ _ _ Hmk) as [Hsub _].
  pose proof (lookup_weaken _ _ _ _ Hst Hsub) as Hst1.
  destruct (lookup_dir_inr _ _ _ _ L) as [_ Hd]. specialize (Hd Hst1).
  unfold target_loc in *.
  destruct (parts p) as [|x ps _] using rev_ind; simpl in *; [congruence|].
  rewrite removelast_snoc in Hd. rewrite fold_left_app in *. simpl in *.
  exists (fold_left enter ps (start env p)), x. split; [|done].
  by apply (enter_in_dir fs1).
Qed.

Lemma store_wf env member l mode fs fs' b :
  wf fs →
  match fs !! l with
  | Some (File _ _) => True
  | Some Dir => False
  | None => ∃ d x, l = d ++ [x] ∧ fs !! d = Some Dir
  end →
  store env member l mode fs = (fs', b) → wf fs'.
Proof.
  intros Hwf Hslot H. unfold store in H.
  assert (Hins : ∀ c m, wf (<[l := File c m]> fs)).
  { intros c m. destruct (fs !! l) as [[|c0 m0]|] eqn:E; [done| |].
    - by eapply wf_insert_file.
    - destruct Hslot as (d & x & -> & Hd). by apply wf_insert_child. }
  destruct (fault member); injection H as <- _; done.
Qed.

Lemma write_sem_wf env overwrite member l fs fs' b :
  wf fs → (fs !! l = None → ∃ d x, l = d ++ [x] ∧ fs !! d = Some Dir) →
  write_sem env overwrite member l fs = (fs', b) → wf fs'.
Proof.
  intros Hwf Hslot H. unfold write_sem in H.
  destruct (fs !! l) as [[|c mode]|] eqn:E.
  - by injection H as <- _.
  - destruct overwrite; [|by injection H as <- _].
    destruct (open_permitted env l mode); [|by injection H as <- _].
    eapply store_wf; [done| |exact H]. by rewrite E.
  - eapply store_wf; [done| |exact H]. rewrite E. by apply Hslot.
Qed.

Lemma store_frame env member l mode fs fs' b k :
  store env member l mode fs = (fs', b) → k ≠ l → fs' !! k = fs !! k.
Proof.
  intros H Hk. unfold store in H.
  destruct (fault member); injection H as <- _; try done;
    by rewrite lookup_insert_ne.
Qed.

Lemma write_sem_frame env overwrite member l fs fs' b k :
  write_sem env overwrite member l fs = (fs', b) → k ≠ l →
  fs' !! k = fs !! k.
Proof.
  intros H Hk. unfold write_sem in H.
  destruct (fs !! l) as [[|c mode]|].
  - by injection H as <- _.
  - destruct overwrite; [|by injection H as <- _].
    destruct (open_permitted env l mode); [|by injection H as <- _].
    by eapply store_frame.
  - by eapply store_frame.
Qed.

Lemma store_at env member l mode fs fs' b :
  store env member l mode fs = (fs', b) →
  fs' = fs ∨ ∃ mode', fs' !! l = Some (File (data member) mode').
Proof.
  unfold store. destruct (fault member); intros [= <- _];
    [right|by left|right]; rewrite lookup_insert_eq; eauto.
Qed.

Lemma write_sem_extends env overwrite member l fs fs' b :
  write_sem env overwrite member l fs = (fs', b) → extends fs fs'.
Proof.
  intros H k n Hk. destruct (decide (k = l)) as [->|Hne].
  - unfold write_sem in H. rewrite Hk in H.
    destruct n as [|c mode].
    + injection H as <- _. by exists Dir.
    + assert (Hsame : fs' = fs → ∃ n', fs' !! l = Some n'
                                       ∧ same_kind (File c mode) n').
      { intros ->. exists (File c mode). by rewrite Hk. }
      destruct overwrite; [|injection H as <- _; by apply Hsame].
      destruct (open_permitted env l mode);
        [|injection H as <- _; by apply Hsame].
      destruct (store_at _ _ _ _ _ _ _ H) as [->|[mode' ->]];
        [by apply Hsame|by eexists].
  - exists n. rewrite (write_sem_frame _ _ _ _ _ _ _ _ H Hne).
    split; [done|apply same_kind_refl].
Qed.

Lemma write_sem_keep env member l fs fs' b :
  write_sem env false member l fs = (fs', b) → fs ⊆ fs'.
Proof.
  unfold write_sem, store. intros H.
  destruct (fs !! l) as [[|c mode]|] eqn:E; try (by injection H as <- _).
  destruct (fault member); injection H as <- _; try done;
    by apply insert_subseteq.
Qed.

Lemma extends_ready env fs fs' : wf fs' → ready env fs → extends fs fs' → ready env fs'.
Proof. intros Hwf [_ Hcwd] Hext. split; [done|]. by eapply extends_dir. Qed.

Lemma step_sem_facts env dest_dir overwrite root_ member fs fs' b :
  ready env fs →
  step_sem env dest_dir overwrite root_ member fs = (fs', b) →
  ready env fs' ∧ extends fs fs' ∧
  (∀ k, k ≠ entry_loc env dest_dir root_ member →
        ∀ n, fs !! k = Some n → fs' !! k = Some n) ∧
  (overwrite = false → fs ⊆ fs').
Proof.
  intros Hready H. unfold step_sem in H. unfold entry_loc.
  set (tp := joinpath dest_dir (effective_name root_ (filename member))) in *.
  assert (Hsame : fs' = fs → ready env fs' ∧ extends fs fs' ∧
            (∀ k, k ≠ target_loc env tp →
                  ∀ n, fs !! k = Some n → fs' !! k = Some n) ∧
            (overwrite = false → fs ⊆ fs')).
  { intros ->. split; [done|]. split; [apply extends_refl|]. done. }
  destruct (negb (truthy _)); [injection H as <- _; by apply Hsame|].
  destruct (negb (is_within_directory _ _ _));
    [injection H as <- _; by apply Hsame|].
  pose proof (ready_start _ _ tp Hready) as Hst.
  assert (Hgrow : ∀ fs1, grows fs fs1 → wf fs1 →
            ready env fs1 ∧ extends fs fs1 ∧
            (∀ k, k ≠ target_loc env tp →
                  ∀ n, fs !! k = Some n → fs1 !! k = Some n) ∧
            (overwrite = false → fs ⊆ fs1)).
  { intros fs1 Hg Hwf1. pose proof (grows_extends _ _ Hg) as Hext.
    split; [by eapply extends_ready|]. split; [done|].
    destruct Hg as [Hsub _]. split; [|done].
    intros k _ n Hk. by eapply lookup_weaken. }
  destruct (zip_is_dir member).
  - apply Hgrow; [by eapply mkdir_sem_grows|].
    exact (mkdir_sem_wf env tp fs fs' b (proj1 Hready) Hst H).
  - destruct (mkdir_sem env (parent tp) fs) as [fs1 b1] eqn:Hmk.
    pose proof (mkdir_sem_grows _ _ _ _ _ Hmk) as Hg.
    assert (Hwf1 : wf fs1)
      by exact (mkdir_sem_wf env (parent tp) fs fs1 b1 (proj1 Hready) Hst Hmk).
    destruct b1; [|injection H as <- _; by apply Hgrow].
    destruct (long_path tp || long_last tp);
      [injection H as <- _; by apply Hgrow|].
    apply mkdir_sem_inv in Hmk as [_ Hmk].
    change (start env (parent tp)) with (start env tp) in Hmk.
    change (parts (parent tp)) with (removelast (parts tp)) in Hmk.
    destruct (slot_after_walk _ _ _ _ Hready Hmk) as [_ Hslot].
    destruct (Hgrow fs1 Hg Hwf1) as (Hr1 & He1 & Hf1 & Hs1).
    pose proof (write_sem_wf _ _ _ _ _ _ _ Hwf1 Hslot H) as Hwf'.
    pose proof (write_sem_extends _ _ _ _ _ _ _ H) as He'.
    split; [eapply extends_ready; [done|exact Hr1|done]|].
    split; [by eapply extends_trans|]. split.
    + intros k Hk n Hn.
      rewrite (write_sem_frame _ _ _ _ _ _ _ _ H Hk). by apply Hf1.
    + intros ->. etrans; [by apply Hs1|]. by eapply write_sem_keep.
Qed.

End StepFacts.

(** ** The whole archive *)

Module RunFacts.
Import PyStr PyStrFacts PurePath Fs Exn PathIO RenderApp FsFacts StepFacts.
Import Words Canon Replay.
Local Open Scope list_scope.

Lemma for_each_sem env dest_dir overwrite root_ members fs :
  ready env fs →
  ((for_each (process_member env dest_dir overwrite root_) members fs).1,
   ok (for_each (process_member env dest_dir overwrite root_) members fs).2)
  = run_sem env dest_dir overwrite root_ members fs.
Proof.
  revert fs. induction members as [|m rest IH]; intros fs Hready; [done|].
  cbn [for_each run_sem]. rewrite bind_run.
  pose proof (process_member_sem env dest_dir overwrite root_ m fs Hready) as Hs.
  destruct (process_member env dest_dir overwrite root_ m fs) as [fs1 [e|[]]];
    simpl in Hs; rewrite <- Hs; [done|].
  apply IH.
  by destruct (step_sem_facts _ _ _ _ _ _ _ _ Hready (eq_sym Hs)) as [? _].
Qed.

Lemma safe_extract_sem env members dest_dir overwrite keep_root fs :
  ready env fs →
  ((safe_extract env members dest_dir overwrite keep_root fs).1,
   ok (safe_extract env members dest_dir overwrite keep_root fs).2)
  = run_sem env dest_dir overwrite (common_root keep_root members) members fs.
Proof. apply for_each_sem. Qed.

Lemma run_sem_facts env dest_dir overwrite root_ members fs fs' b :
  ready env fs →
  run_sem env dest_dir overwrite root_ members fs = (fs', b) →
  ready env fs' ∧ extends fs fs' ∧ (overwrite = false → fs ⊆ fs').
Proof.
  revert fs. induction members as [|m rest IH]; intros fs Hready H;
    simpl in H.
  - injection H as <- _. split; [done|]. split; [apply extends_refl|done].
  - destruct (step_sem env dest_dir overwrite root_ m fs) as [fs1 b1] eqn:Hs.
    destruct (step_sem_facts _ _ _ _ _ _ _ _ Hready Hs) as (Hr1 & He1 & _ & Hk1).
    destruct b1.
    + destruct (IH _ Hr1 H) as (Hr & He & Hk).
      split; [done|]. split; [by eapply extends_trans|].
      intros E. etrans; [by apply Hk1|by apply Hk].
    + by injection H as <- _.
Qed.


End RunFacts.

(** ** Rejected entries *)

Module AbortFacts.
Import PyStr PyStrFacts PurePath Fs Exn PathIO RenderApp Sample ContainFacts.
Import Words Canon Replay.
Import FsFacts StepFacts RunFacts.
Local Open Scope list_scope.

(** An entry the check rejects raises, with the entry's own name, before
    anything is done to the tree. *)
Lemma rejected_entry_raises env dest_dir overwrite root_ member fs :
  effective_name root_ (filename member) ≠ "" →
  is_within_directory env dest_dir
    (joinpath dest_dir (effective_name root_ (filename member))) = false →
  process_member env dest_dir overwrite root_ member fs
  = (fs, inl (ExtractionOutside (filename member))).
Proof.
  intros Hname Hcheck. unfold process_member.
  destruct (effective_name root_ (filename member)) eqn:E; [done|].
  simpl. by rewrite Hcheck.
Qed.

Lemma for_each_app {A} (body : A → M unit) (before after : list A) (fs : FS) :
  for_each body (before ++ after) fs
  = match for_each body before fs with
    | (fs1, inl e) => (fs1, inl e)
    | (fs1, inr _) => for_each body after fs1
    end.
Proof.
  revert fs. induction before as [|x before IH]; intros fs; [done|].
  cbn [for_each app]. rewrite !bind_run.
  destruct (body x fs) as [fs1 [e|[]]]; [done|]. apply IH.
Qed.

(** The loop stops there: what the earlier entries wrote stays, nothing of
    the rejected entry or of the later ones is written. *)
Lemma rejected_entry_aborts env dest_dir overwrite root_ before member after
    fs fs1 :
  for_each (process_member env dest_dir overwrite root_) before fs
    = (fs1, inr tt) →
  effective_name root_ (filename member) ≠ "" →
  is_within_directory env dest_dir
    (joinpath dest_dir (effective_name root_ (filename member))) = false →
  for_each (process_member env dest_dir overwrite root_)
    (before ++ member :: after) fs
  = (fs1, inl (ExtractionOutside (filename member))).
Proof.
  intros Hbefore Hname Hcheck. rewrite for_each_app, Hbefore.
  cbn [for_each]. rewrite bind_run.
  by rewrite (rejected_entry_raises _ _ _ _ _ _ Hname Hcheck).
Qed.

Example traversal_rejected :
  safe_extract env0
    [file_entry "index.html" [x68; x69]; file_entry "../../etc/passwd" [x61];
     file_entry "late.txt" [x61]] site false true fs0
  = (<[ ["site"; "index.html"] := File [x68; x69] 420 ]> fs0,
     inl (ExtractionOutside "../../etc/passwd")).
Proof. by_compute. Qed.

(** C2 fails on the code, by the defect of C1. The target of the entry
    [../site-evil/x.txt] resolves to [/site-evil/x.txt], which does not lie
    within [/site]; yet the entry is not rejected: the step ends without an
    exception, after making [/site-evil] and writing the file. *)
Theorem sibling_entry_not_rejected :
  ¬ contained env0 site
      (joinpath site (effective_name "" "../site-evil/x.txt")) ∧
  process_member env0 site false "" (file_entry "../site-evil/x.txt" [x61]) fs0
  = (<[ ["site-evil"; "x.txt"] := File [x61] 420 ]>
       (<[ ["site-evil"] := Dir ]> fs0),
     inr tt).
Proof.
  split.
  - apply (bool_decide_eq_false_1 _). vm_compute. reflexivity.
  - by_compute.
Qed.

End AbortFacts.

(** ** Existing targets and the overwrite option *)

Module OverwriteFacts.
Import PyStr PyStrFacts PurePath Fs Exn PathIO RenderApp Sample.
Import Words Canon Replay.
Import FsFacts StepFacts RunFacts.
Local Open Scope list_scope.

Lemma sem_result (res : FS * (exn + unit)) (fs' : FS) :
  (res.1, ok res.2) = (fs', true) → res = (fs', inr tt).
Proof.
  destruct res as [fs1 r]. simpl. intros [= -> Hok].
  by rewrite (ok_inr r Hok).
Qed.








(** A run with [overwrite=False] keeps every node of the tree as it is. *)
Lemma no_overwrite_keeps env members dest_dir keep_root fs :
  ready env fs →
  fs ⊆ tree_after (safe_extract env members dest_dir false keep_root) fs ∧
  ready env (tree_after (safe_extract env members dest_dir false keep_root) fs).
Proof.
  intros Hready. unfold tree_after.
  pose proof (safe_extract_sem env members dest_dir false keep_root fs Hready)
    as Hs. symmetry in Hs.
  destruct (run_sem_facts _ _ _ _ _ _ _ _ Hready Hs) as (Hr & _ & Hk).
  split; [by apply Hk|done].
Qed.

(** A step that ends without an exception took a path the system takes
    and found or made the directories on the way. *)
Lemma step_sem_ok env dest_dir overwrite root_ member fs fs' :
  zip_is_dir member = false →
  effective_name root_ (filename member) ≠ "" →
  step_sem env dest_dir overwrite root_ member fs = (fs', true) →
  ∃ fs1,
    is_within_directory env dest_dir
      (joinpath dest_dir (effective_name root_ (filename member))) = true ∧
    mkdir_sem env
      (parent (joinpath dest_dir (effective_name root_ (filename member)))) fs
    = (fs1, true) ∧
    long_path (joinpath dest_dir (effective_name root_ (filename member)))
    = false ∧
    long_last (joinpath dest_dir (effective_name root_ (filename member)))
    = false ∧
    write_sem env overwrite member (entry_loc env dest_dir root_ member) fs1
    = (fs', true).
Proof.
  intros Hfile Hname. unfold step_sem, entry_loc.
  destruct (effective_name root_ (filename member)) eqn:E; [done|].
  rewrite <- E in *. replace (truthy _) with true by by rewrite E.
  simpl. destruct (is_within_directory _ _ _); [|done]. simpl.
  rewrite Hfile.
  destruct (mkdir_sem _ _ _) as [fs1 [|]]; [|done].
  destruct (long_path _) eqn:E1; [done|].
  destruct (long_last _) eqn:E2; [done|]. simpl.
  intros H. by exists fs1.
Qed.

Lemma store_ok env member l mode fs fs' :
  store env member l mode fs = (fs', true) →
  fault member = Sound ∧
  fs' = <[l := File (data member) (new_mode env l member mode)]> fs.
Proof. unfold store. by destruct (fault member); intros [= <-]. Qed.


Lemma run_sem_frame env dest_dir overwrite root_ members fs fs' b k n :
  ready env fs →
  run_sem env dest_dir overwrite root_ members fs = (fs', b) →
  (∀ m, m ∈ members → entry_loc env dest_dir root_ m ≠ k) →
  fs !! k = Some n → fs' !! k = Some n.
Proof.
  revert fs. induction members as [|m rest IH]; intros fs Hready H Hother Hk;
    simpl in H.
  - by injection H as <- _.
  - destruct (step_sem env dest_dir overwrite root_ m fs) as [fs1 b1] eqn:Hs.
    destruct (step_sem_facts _ _ _ _ _ _ _ _ Hready Hs) as (Hr1 & _ & Hf1 & _).
    assert (Hk1 : fs1 !! k = Some n).
    { apply Hf1; [|done]. intros ->. apply (Hother m); [|done].
      apply elem_of_cons. by left. }
    destruct b1; [|by injection H as <- _].
    apply (IH fs1); [done|done| |done].
    intros m' Hm'. apply Hother, elem_of_cons. by right.
Qed.





Example same_archive_twice_keeps :
  tree_after (safe_extract env0 [file_entry "index.html" [x61]] site false true)
    fs_with_index !! ["site"; "index.html"] = Some (File [x68; x69] 384).
Proof. by_compute. Qed.

Example same_archive_twice_replaces :
  tree_after (safe_extract env0 [file_entry "index.html" [x61]] site true true)
    fs_with_index !! ["site"; "index.html"] = Some (File [x61] 420).
Proof. by_compute. Qed.

End OverwriteFacts.

(** ** Directories are made before files *)

Module ParentFacts.
Import PyStr PyStrFacts PurePath Fs Exn PathIO RenderApp Sample.
Import Words Canon Replay.
Import FsFacts StepFacts RunFacts OverwriteFacts.
Local Open Scope list_scope.

(** In a well-formed tree every proper ancestor of a node is a directory. *)
Lemma wf_ancestors fs l n q :
  wf fs → fs !! l = Some n → q `prefix_of` l → q ≠ l → fs !! q = Some Dir.
Proof.
  intros Hwf. revert n.
  induction l as [|x l IH] using rev_ind; intros n Hl [r Hr] Hne.
  - symmetry in Hr. apply app_eq_nil in Hr as [-> _]. done.
  - pose proof (wf_parent_snoc _ _ _ _ Hwf Hl) as Hp.
    destruct r as [|y r _] using rev_ind.
    + rewrite app_nil_r in Hr. congruence.
    + rewrite app_assoc in Hr. apply app_inj_tail in Hr as [Hr _].
      destruct (decide (q = l)) as [->|Hq]; [done|].
      apply (IH Dir Hp); [by exists r|done].
Qed.

Lemma prefix_of_entered d x q :
  q `prefix_of` enter d x → q ≠ enter d x → q `prefix_of` d.
Proof.
  intros Hq Hne. destruct (enter_cases d x) as [[_ E]|[_ E]]; rewrite E in *.
  - etrans; [exact Hq|].
    destruct d as [|y d _] using rev_ind; [done|].
    rewrite removelast_snoc. by apply prefix_app_r.
  - destruct Hq as [r Hr]. destruct r as [|y r _] using rev_ind.
    + rewrite app_nil_r in Hr. congruence.
    + rewrite app_assoc in Hr. apply app_inj_tail in Hr as [-> _].
      by exists r.
Qed.

(** The proper ancestors of the location of [p] lie on the way to the
    directory [p] is looked up in. *)
Lemma ancestors_on_the_way env p q :
  q `prefix_of` target_loc env p → q ≠ target_loc env p →
  q `prefix_of` fold_left enter (removelast (parts p)) (start env p).
Proof.
  unfold target_loc. destruct (parts p) as [|x ps _] using rev_ind.
  - simpl. by intros.
  - rewrite removelast_snoc, fold_left_app. simpl. apply prefix_of_entered.
Qed.

Lemma lookup_dir_is_dir env fs r ps d :
  path_check (MkPath r ps) = None →
  fs !! start env (MkPath r []) = Some Dir →
  lookup_dir fs (start env (MkPath r [])) ps = inr d →
  is_dir env fs (MkPath r ps) = inr true.
Proof.
  intros Hc Hst L. unfold is_dir, stat_test.
  destruct ps as [|x ps _] using rev_ind.
  - unfold os_stat. by rewrite namei_nil, Hst.
  - rewrite lookup_dir_app in L.
    destruct (lookup_dir fs _ ps) as [|d'] eqn:L'; [done|].
    simpl in L. destruct (long_name x) eqn:Hx; [done|].
    rewrite (os_stat_snoc _ _ _ _ _ _ Hc L' Hx).
    by destruct (fs !! enter d' x) as [[|]|].
Qed.

(** After the walk every location up to the directory the walk ends in is
    a directory. *)
Lemma walk_ancestors env fs p fs1 q :
  ready env fs →
  mkdir_walk fs (start env p) (parts p) = (fs1, true) →
  q `prefix_of` target_loc env p → fs1 !! q = Some Dir.
Proof.
  intros Hready Hmk Hq. pose proof (ready_start _ _ p Hready) as Hst.
  destruct Hready as [Hwf Hcwd].
  pose proof (mkdir_walk_made _ _ _ _ Hwf Hst Hmk) as L.
  pose proof (mkdir_walk_wf _ _ _ _ _ Hwf Hst Hmk) as Hwf1.
  destruct (mkdir_walk_grows _ _ _ _ _ Hmk) as [Hsub _].
  pose proof (lookup_weaken _ _ _ _ Hst Hsub) as Hst'.
  destruct (lookup_dir_inr _ _ _ _ L) as [_ Hd]. specialize (Hd Hst').
  destruct (decide (q = target_loc env p)) as [->|Hne]; [done|].
  by eapply wf_ancestors.
Qed.

(** When the step of an entry ends without an exception every proper
    ancestor of its location is a directory, and for a directory entry
    the location itself. *)
Lemma step_leaves_directories (env : Env) (dest_dir : Path) (overwrite : bool)
    (root_ : string) (member : ZipInfo) (fs fs' : FS) :
  ready env fs →
  effective_name root_ (filename member) ≠ "" →
  process_member env dest_dir overwrite root_ member fs = (fs', inr tt) →
  is_Some (fs' !! entry_loc env dest_dir root_ member) ∧
  (∀ q, q `prefix_of` entry_loc env dest_dir root_ member →
        q ≠ entry_loc env dest_dir root_ member → fs' !! q = Some Dir) ∧
  (zip_is_dir member = true →
   fs' !! entry_loc env dest_dir root_ member = Some Dir).
Proof.
  intros Hready Hname Hrun.
  pose proof (process_member_sem env dest_dir overwrite root_ member fs Hready)
    as Hsem.
  rewrite Hrun in Hsem. simpl in Hsem. symmetry in Hsem.
  destruct (step_sem_facts _ _ _ _ _ _ _ _ Hready Hsem) as ([Hwf' _] & _).
  assert (Hsome : is_Some (fs' !! entry_loc env dest_dir root_ member) →
            ∀ q, q `prefix_of` entry_loc env dest_dir root_ member →
                 q ≠ entry_loc env dest_dir root_ member →
                 fs' !! q = Some Dir).
  { intros [n Hn] q Hq Hne. by eapply wf_ancestors. }
  destruct (zip_is_dir member) eqn:Hdir.
  - assert (Hl : fs' !! entry_loc env dest_dir root_ member = Some Dir).
    { unfold step_sem in Hsem. unfold entry_loc.
      destruct (effective_name root_ (filename member)) eqn:E; [done|].
      rewrite <- E in *. replace (truthy _) with true in * by by rewrite E.
      simpl in Hsem.
      destruct (negb (is_within_directory env dest_dir _)); [done|].
      rewrite Hdir in Hsem. apply mkdir_sem_inv in Hsem as [_ Hsem].
      by apply (walk_ancestors env fs _ fs' _ Hready Hsem). }
    split; [by rewrite Hl|]. split; [apply Hsome; by rewrite Hl|done].
  - destruct (step_sem_ok _ _ _ _ _ _ _ Hdir Hname Hsem)
      as (fs1 & _ & _ & _ & _ & Hw).
    assert (Hl : is_Some (fs' !! entry_loc env dest_dir root_ member)).
    { unfold write_sem in Hw.
      destruct (fs1 !! entry_loc env dest_dir root_ member) as [[|c mode]|]
        eqn:El.
      - destruct overwrite; [done|]. injection Hw as <-. by rewrite El.
      - destruct overwrite; [|injection Hw as <-; by rewrite El].
        destruct (open_permitted env _ mode); [|done].
        apply store_ok in Hw as [_ ->]. by rewrite lookup_insert_eq.
      - apply store_ok in Hw as [_ ->]. by rewrite lookup_insert_eq. }
    split; [done|]. split; [by apply Hsome|done].
Qed.

Lemma clear_walk_insert_dir fs cur ps l :
  clear_walk fs cur ps = true → clear_walk (<[l := Dir]> fs) cur ps = true.
Proof.
  revert cur. induction ps as [|x ps IH]; intros cur H; simpl in *; [done|].
  destruct (decide (l = enter cur x)) as [->|Hne].
  - rewrite lookup_insert_eq. apply IH.
    by destruct (fs !! enter cur x) as [[|]|].
  - rewrite lookup_insert_ne by done.
    destruct (fs !! enter cur x) as [[|]|]; [|done|]; by apply IH.
Qed.

(** [mkdir] is only stopped by a file that stands where a directory is
    needed, or by a name that is too long. *)
Lemma mkdir_walk_succeeds fs cur ps :
  clear_walk fs cur ps = true → existsb long_name ps = false →
  (mkdir_walk fs cur ps).2 = true.
Proof.
  revert fs cur. induction ps as [|x ps IH]; intros fs cur Hfree Hshort;
    [done|].
  simpl in *. apply orb_false_elim in Hshort as [-> Hshort].
  destruct (fs !! enter cur x) as [[|c mode]|] eqn:E; [|done|].
  - by apply IH.
  - apply IH; [|done]. by apply clear_walk_insert_dir.
Qed.

Lemma short_names_check p :
  existsb has_nul (parts p) = false → short_names p = true →
  path_check p = None ∧ existsb long_name (parts p) = false.
Proof.
  unfold short_names, path_check. intros -> [H1 H2]%andb_true_iff.
  apply negb_true_iff in H1, H2. by rewrite H1.
Qed.

Lemma existsb_removelast {A} (f : A → bool) (xs : list A) :
  existsb f xs = false → existsb f (removelast xs) = false.
Proof.
  destruct xs as [|x xs _] using rev_ind; [done|].
  rewrite removelast_last, existsb_app. by intros [? _]%orb_false_elim.
Qed.

Lemma existsb_last {A} (f : A → bool) (xs : list A) x :
  existsb f xs = false → last xs = Some x → f x = false.
Proof.
  destruct xs as [|y xs _] using rev_ind; [done|].
  rewrite last_snoc, existsb_app. simpl.
  intros [_ H]%orb_false_elim [= <-]. by destruct (f y).
Qed.

Lemma mkdir_sem_made env p fs :
  existsb has_nul (parts p) = false → short_names p = true →
  way_clear env p fs = true →
  mkdir_sem env p fs = (made env p fs, true).
Proof.
  intros Hnul Hshort Hclear.
  destruct (short_names_check _ Hnul Hshort) as [Hc Hnames].
  unfold mkdir_sem, made. rewrite Hc.
  pose proof (mkdir_walk_succeeds _ _ _ Hclear Hnames) as Hok.
  by destruct (mkdir_walk fs (start env p) (parts p)) as [fs1 []].
Qed.

Lemma short_names_parent p :
  short_names p = true → short_names (parent p) = true.
Proof.
  unfold short_names. intros [H1 H2]%andb_true_iff.
  apply negb_true_iff in H1, H2. apply andb_true_iff.
  split; apply negb_true_iff.
  - destruct p as [r ps]. unfold parent. cbn [root parts] in *.
    destruct ps as [|x ps _] using rev_ind; [done|].
    rewrite removelast_last. by eapply long_path_snoc.
  - by apply existsb_removelast.
Qed.

Lemma short_names_last p :
  short_names p = true → long_path p || long_last p = false.
Proof.
  unfold short_names, long_last. intros [H1 H2]%andb_true_iff.
  apply negb_true_iff in H1, H2. rewrite H1. simpl.
  destruct (last (parts p)) as [x|] eqn:E; [|done].
  by apply (existsb_last _ _ _ H2 E).
Qed.

(** C8, as amended. Whenever the step of an entry ends without an
    exception, every proper ancestor of its location is a directory, and
    for a directory entry the location itself.  And the directories are
    made: for an entry that passes the check, under a path that the system
    takes and on which no file stands where a directory is needed, the
    step of a directory entry returns, having made every missing directory
    up to its location and nothing else, and the loop goes on from there;
    the step of a file entry makes every missing directory up to the
    parent of the target: they are in the tree the step leaves however it
    ends, and when the target is missing the file is written into that
    tree and the step returns. *)
Theorem parents_made_first (env : Env) (dest_dir : Path) (overwrite : bool)
    (root_ : string) (member : ZipInfo) (fs : FS) :
  ready env fs →
  effective_name root_ (filename member) ≠ "" →
  (∀ fs',
     process_member env dest_dir overwrite root_ member fs = (fs', inr tt) →
     is_Some (fs' !! entry_loc env dest_dir root_ member) ∧
     (∀ q, q `prefix_of` entry_loc env dest_dir root_ member →
           q ≠ entry_loc env dest_dir root_ member → fs' !! q = Some Dir) ∧
     (zip_is_dir member = true →
      fs' !! entry_loc env dest_dir root_ member = Some Dir)) ∧
  (is_within_directory env dest_dir (entry_path dest_dir root_ member) = true →
   short_names (entry_path dest_dir root_ member) = true →
   (zip_is_dir member = true →
    way_clear env (entry_path dest_dir root_ member) fs = true →
    process_member env dest_dir overwrite root_ member fs
    = (made env (entry_path dest_dir root_ member) fs, inr tt) ∧
    grows fs (made env (entry_path dest_dir root_ member) fs) ∧
    (∀ q, q `prefix_of` entry_loc env dest_dir root_ member →
          made env (entry_path dest_dir root_ member) fs !! q = Some Dir) ∧
    (∀ rest,
       for_each (process_member env dest_dir overwrite root_) (member :: rest)
         fs
       = for_each (process_member env dest_dir overwrite root_) rest
           (made env (entry_path dest_dir root_ member) fs))) ∧
   (zip_is_dir member = false →
    way_clear env (parent (entry_path dest_dir root_ member)) fs = true →
    grows fs (made env (parent (entry_path dest_dir root_ member)) fs) ∧
    (∀ q, q `prefix_of` entry_loc env dest_dir root_ member →
          q ≠ entry_loc env dest_dir root_ member →
          made env (parent (entry_path dest_dir root_ member)) fs !! q
          = Some Dir) ∧
    extends (made env (parent (entry_path dest_dir root_ member)) fs)
      (tree_after (process_member env dest_dir overwrite root_ member) fs) ∧
    (made env (parent (entry_path dest_dir root_ member)) fs
       !! entry_loc env dest_dir root_ member = None →
     fault member = Sound →
     process_member env dest_dir overwrite root_ member fs
     = (<[entry_loc env dest_dir root_ member :=
            File (data member)
              (new_mode env (entry_loc env dest_dir root_ member) member
                 (create_mode env))]>
          (made env (parent (entry_path dest_dir root_ member)) fs),
        inr tt)))).
Proof.
  intros Hready Hname. split.
  { intros fs' Hrun.
    by apply (step_leaves_directories env dest_dir overwrite root_ member fs). }
  intros Hcheck Hshort. unfold entry_path, entry_loc in *.
  pose proof (within_no_nul _ _ _ Hcheck) as Hnul.
  pose proof (process_member_sem env dest_dir overwrite root_ member fs Hready)
    as Hsem.
  unfold step_sem in Hsem.
  destruct (effective_name root_ (filename member)) eqn:E; [done|].
  rewrite <- E in *. replace (truthy _) with true in * by by rewrite E.
  set (tp := joinpath dest_dir (effective_name root_ (filename member))) in *.
  rewrite Hcheck in Hsem. simpl in Hsem.
  split; intros Hdir Hclear; rewrite Hdir in Hsem.
  - pose proof (mkdir_sem_made env tp fs Hnul Hshort Hclear) as Hmk.
    rewrite Hmk in Hsem. apply sem_result in Hsem.
    split; [done|].
    apply mkdir_sem_inv in Hmk as [_ Hmk].
    split; [by eapply mkdir_walk_grows|]. split.
    + intros q Hq. by apply (walk_ancestors env fs tp _ q Hready Hmk).
    + intros rest. cbn [for_each]. by rewrite bind_run, Hsem.
  - assert (Hnul' : existsb has_nul (parts (parent tp)) = false)
      by by apply existsb_removelast.
    pose proof (mkdir_sem_made env (parent tp) fs Hnul'
                  (short_names_parent _ Hshort) Hclear) as Hmk.
    rewrite Hmk, (short_names_last _ Hshort) in Hsem.
    set (fs1 := made env (parent tp) fs) in *.
    apply mkdir_sem_inv in Hmk as [_ Hmk].
    split; [by eapply mkdir_walk_grows|]. split; [|split].
    + intros q Hq Hne.
      apply (walk_ancestors env fs (parent tp) fs1 q Hready Hmk).
      exact (ancestors_on_the_way env tp q Hq Hne).
    + unfold tree_after.
      destruct (write_sem env overwrite member (target_loc env tp) fs1)
        as [fs2 b] eqn:Hw.
      injection Hsem as -> _. by eapply write_sem_extends.
    + intros Hnone Hsound. apply sem_result. rewrite Hsem.
      unfold write_sem, store. by rewrite Hnone, Hsound.
Qed.

Lemma parents_made_first_witness :
  process_member env0 site false "" (file_entry "a/b/c.txt" [x61]) fs0
  = (<[ ["site"; "a"; "b"; "c.txt"] := File [x61] 420 ]>
       (<[ ["site"; "a"; "b"] := Dir ]> (<[ ["site"; "a"] := Dir ]> fs0)),
     inr tt).
Proof.
  destruct (parents_made_first env0 site false "" (file_entry "a/b/c.txt" [x61])
              fs0)
    as [_ H].
  - apply (bool_decide_eq_true_1 _). vm_compute. reflexivity.
  - discriminate.
  - destruct H as [_ H]; [reflexivity|reflexivity|].
    destruct H as (_ & _ & _ & H); [reflexivity|reflexivity|].
    rewrite H; [|reflexivity|reflexivity].
    apply (bool_decide_eq_true_1 _). vm_compute. reflexivity.
Defined.

(** C8, as stated, fails on the code.  Where a file stands on the way,
    [mkdir] raises and the directories are not made: after the file [a],
    the entry [a/b/c.txt] leaves neither a directory [a] nor [a/b], and the
    extraction stops.  A directory entry with a component over [NAME_MAX]
    bytes is not made either, and the entries behind it are not
    processed. *)
Lemma parents_need_a_clear_way :
  safe_extract env0 [file_entry "a" [x61]; file_entry "a/b/c.txt" [x62]] site
    false true fs0
  = (<[ ["site"; "a"] := File [x61] 420 ]> fs0, inl (OSError ENOTDIR)) ∧
  tree_after
    (safe_extract env0 [file_entry "a" [x61]; file_entry "a/b/c.txt" [x62]]
       site false true) fs0
  !! ["site"; "a"] ≠ Some Dir ∧
  tree_after
    (safe_extract env0 [file_entry "a" [x61]; file_entry "a/b/c.txt" [x62]]
       site false true) fs0
  !! ["site"; "a"; "b"] = None ∧
  safe_extract env0
    [dir_entry (long_component ++ "/"); file_entry "z.txt" [x61]] site false
    true fs0
  = (fs0, inl (OSError ENAMETOOLONG)).
Proof.
  split; [apply (bool_decide_eq_true_1 _); vm_compute; reflexivity|].
  split; [apply (bool_decide_eq_true_1 _); vm_compute; reflexivity|].
  split; apply (bool_decide_eq_true_1 _); vm_compute; reflexivity.
Qed.

(** The example of the specification: [a/b/c.txt] alone in the archive. *)
Example nested_file_makes_directories :
  outcome (safe_extract env0 [file_entry "a/b/c.txt" [x61]] site false true) fs0
    = inr tt ∧
  tree_after (safe_extract env0 [file_entry "a/b/c.txt" [x61]] site false true)
    fs0 !! ["site"; "a"] = Some Dir ∧
  tree_after (safe_extract env0 [file_entry "a/b/c.txt" [x61]] site false true)
    fs0 !! ["site"; "a"; "b"] = Some Dir ∧
  tree_after (safe_extract env0 [file_entry "a/b/c.txt" [x61]] site false true)
    fs0 !! ["site"; "a"; "b"; "c.txt"] = Some (File [x61] 420).
Proof. by_compute. Qed.

Example directory_entry_makes_parents :
  safe_extract env0 [dir_entry "x/y/"; file_entry "z.txt" [x61]] site false true
    fs0
  = (<[ ["site"; "z.txt"] := File [x61] 420 ]>
       (<[ ["site"; "x"; "y"] := Dir ]> (<[ ["site"; "x"] := Dir ]> fs0)),
     inr tt).
Proof. by_compute. Qed.

(** A name over [NAME_MAX] bytes stops the step at [mkdir], after the
    directories before it were made. *)
Example long_name_stops :
  safe_extract env0
    [file_entry ("a/" ++ long_component ++ "/c.txt") [x61]] site false true fs0
  = (<[ ["site"; "a"] := Dir ]> fs0, inl (OSError ENAMETOOLONG)).
Proof. by_compute. Qed.

End ParentFacts.

(** ** The nodes a run leaves *)

Module NodeFacts.
Import PyStr PyStrFacts PurePath Fs Exn PathIO RenderApp Sample.
Import Words Canon Replay.
Import FsFacts StepFacts RunFacts OverwriteFacts ParentFacts.
Local Open Scope list_scope.

(** A successful step leaves a node at the entry's location: a directory
    for a directory entry, a file for a file entry when [overwrite] is on. *)
Lemma step_sem_node env dest_dir overwrite root_ member fs fs' :
  ready env fs →
  effective_name root_ (filename member) ≠ "" →
  step_sem env dest_dir overwrite root_ member fs = (fs', true) →
  holds_entry fs' overwrite member (entry_loc env dest_dir root_ member).
Proof.
  intros Hready Hname H. unfold holds_entry.
  destruct (zip_is_dir member) eqn:Hdir.
  - assert (Hl : fs' !! entry_loc env dest_dir root_ member = Some Dir).
    { unfold step_sem in H. unfold entry_loc.
      destruct (effective_name root_ (filename member)) eqn:E; [done|].
      rewrite <- E in *. replace (truthy _) with true in * by by rewrite E.
      simpl in H.
      destruct (negb (is_within_directory env dest_dir _)); [done|].
      rewrite Hdir in H. apply mkdir_sem_inv in H as [_ H].
      by apply (walk_ancestors env fs _ fs' _ Hready H). }
    rewrite Hl. split; [eauto|]. split; done.
  - destruct (step_sem_ok _ _ _ _ _ _ _ Hdir Hname H)
      as (fs1 & _ & _ & _ & _ & Hw).
    unfold write_sem in Hw.
    destruct (fs1 !! entry_loc env dest_dir root_ member) as [[|c mode]|]
      eqn:El.
    + destruct overwrite; [done|]. injection Hw as <-. rewrite El.
      split; [eauto|]. split; done.
    + destruct overwrite.
      * destruct (open_permitted env _ mode); [|done].
        apply store_ok in Hw as [_ ->]. rewrite lookup_insert_eq.
        split; [eauto|]. split; [done|]. eauto.
      * injection Hw as <-. rewrite El. split; [eauto|]. split; done.
    + apply store_ok in Hw as [_ ->]. rewrite lookup_insert_eq.
      split; [eauto|]. split; [done|]. eauto.
Qed.

Lemma holds_entry_extends t t' overwrite member l :
  extends t t' → holds_entry t overwrite member l →
  holds_entry t' overwrite member l.
Proof.
  intros Hext (Hsome & Hdir & Hfile). split; [|split].
  - destruct Hsome as [n Hn]. destruct (Hext _ _ Hn) as (n' & -> & _). eauto.
  - intros Hd. by apply (extends_dir _ _ _ Hext), Hdir.
  - intros Hf Ho. destruct (Hfile Hf Ho) as (c & mode & Hn).
    by apply (extends_file _ _ _ _ _ Hext Hn).
Qed.

Lemma run_sem_nodes env dest_dir overwrite root_ members fs fs' m :
  ready env fs →
  run_sem env dest_dir overwrite root_ members fs = (fs', true) →
  m ∈ members →
  effective_name root_ (filename m) ≠ "" →
  holds_entry fs' overwrite m (entry_loc env dest_dir root_ m).
Proof.
  revert fs. induction members as [|m0 rest IH]; intros fs Hready H Hm Hname;
    [by apply elem_of_nil in Hm|].
  simpl in H.
  destruct (step_sem env dest_dir overwrite root_ m0 fs) as [fs1 [|]] eqn:Hs;
    [|done].
  destruct (step_sem_facts _ _ _ _ _ _ _ _ Hready Hs) as (Hr1 & _).
  apply elem_of_cons in Hm as [->|Hm]; [|by apply (IH fs1)].
  destruct (run_sem_facts _ _ _ _ _ _ _ _ Hr1 H) as (_ & Hext & _).
  eapply holds_entry_extends; [exact Hext|].
  by apply (step_sem_node env dest_dir overwrite root_ m0 fs).
Qed.

Lemma run_nodes env members dest_dir overwrite keep_root fs m :
  ready env fs →
  outcome (safe_extract env members dest_dir overwrite keep_root) fs = inr tt →
  m ∈ members →
  effective_name (common_root keep_root members) (filename m) ≠ "" →
  holds_entry
    (tree_after (safe_extract env members dest_dir overwrite keep_root) fs)
    overwrite m (entry_loc env dest_dir (common_root keep_root members) m).
Proof.
  intros Hready Hok Hm Hname. unfold tree_after, outcome in *.
  pose proof (safe_extract_sem env members dest_dir overwrite keep_root fs
                Hready) as Hs.
  rewrite Hok in Hs. simpl in Hs. symmetry in Hs.
  by apply (run_sem_nodes _ _ _ _ _ _ _ _ Hready Hs).
Qed.

End NodeFacts.

(** ** Permission bits *)

Module ModeFacts.
Import PyStr PyStrFacts PurePath Fs Exn PathIO RenderApp Sample.
Import Words Canon Replay.
Import FsFacts StepFacts RunFacts OverwriteFacts.
Local Open Scope list_scope.

Lemma same_files_refl fs : same_files fs fs.
Proof. intros l. by destruct (fs !! l) as [[|]|]. Qed.

Lemma same_files_insert fs fs' l n n' :
  same_files fs fs' → same_node (Some n) (Some n') →
  same_files (<[l := n]> fs) (<[l := n']> fs').
Proof.
  intros H Hn k. destruct (decide (l = k)) as [->|Hne].
  - by rewrite !lookup_insert_eq.
  - rewrite !lookup_insert_ne by done. apply H.
Qed.

(** What a call that found its location says of the path. *)
Lemma namei_inv env fs p l :
  namei env fs p = inr l →
  path_check p = None ∧ long_last p = false ∧ l = target_loc env p ∧
  ∃ d, lookup_dir fs (start env p) (removelast (parts p)) = inr d.
Proof.
  intros Hn. pose proof Hn as Hn'. unfold namei in Hn.
  destruct (path_check p) eqn:Hc; [done|].
  destruct (lookup_dir fs (start env p) (removelast (parts p))) as [e|d] eqn:L;
    [done|].
  assert (Hll : long_last p = false).
  { unfold long_last. destruct (last (parts p)); [|done].
    by destruct (long_name s). }
  rewrite (namei_resolved env fs p d Hc Hll L) in Hn'.
  injection Hn' as <-. eauto.
Qed.

(** A copy that went through left a file with the bytes read, at the
    location of the path, which still names it. *)
Lemma write_bytes_done env p how bytes fs fs2 :
  write_bytes env p how bytes fs = (fs2, inr tt) →
  how = Sound ∧
  namei env fs2 p = inr (target_loc env p) ∧
  ∃ mode, fs2 = <[target_loc env p := File bytes mode]> fs ∧
          fs !! target_loc env p ≠ Some Dir.
Proof.
  intros H. unfold write_bytes, raise in H. destruct how; [|done|].
  - unfold sys, os_write in H.
    destruct (namei env fs p) as [e|l] eqn:Hn; [done|].
    destruct (namei_inv _ _ _ _ Hn) as (Hc & Hll & -> & d & L).
    split; [done|].
    assert (Hafter : ∀ n, fs !! target_loc env p ≠ Some Dir →
              namei env (<[target_loc env p := n]> fs) p
              = inr (target_loc env p)).
    { intros n Hd. apply (namei_resolved _ _ _ d); [done|done|].
      by apply lookup_dir_insert_other. }
    destruct (fs !! target_loc env p) as [[|c mode]|] eqn:E; [done| |].
    + destruct (open_permitted env _ mode); [|done].
      injection H as <-. split; [by apply Hafter|]. eauto.
    + injection H as <-. split; [by apply Hafter|]. eauto.
  - rewrite bind_run in H. by destruct (sys _ fs) as [? [|]].
Qed.

(** Whatever [chmod] answers, the step of an entry ends the same way and
    leaves the same directories and the same bytes. *)
Lemma step_sem_chmod env permit dest_dir overwrite root_ member fs :
  (step_sem (with_chmod env permit) dest_dir overwrite root_ member fs).2
  = (step_sem env dest_dir overwrite root_ member fs).2 ∧
  same_files
    (step_sem (with_chmod env permit) dest_dir overwrite root_ member fs).1
    (step_sem env dest_dir overwrite root_ member fs).1.
Proof.
  unfold step_sem.
  destruct (negb (truthy _)); [split; [done|apply same_files_refl]|].
  set (tp := joinpath dest_dir (effective_name root_ (filename member))).
  change (is_within_directory (with_chmod env permit) dest_dir tp)
    with (is_within_directory env dest_dir tp).
  destruct (negb (is_within_directory env dest_dir tp));
    [split; [done|apply same_files_refl]|].
  change (mkdir_sem (with_chmod env permit)) with (mkdir_sem env).
  change (target_loc (with_chmod env permit) tp) with (target_loc env tp).
  destruct (zip_is_dir member); [split; [done|apply same_files_refl]|].
  destruct (mkdir_sem env (parent tp) fs) as [fs1 [|]];
    [|split; [done|apply same_files_refl]].
  destruct (long_path tp || long_last tp);
    [split; [done|apply same_files_refl]|].
  unfold write_sem, store.
  change (open_permitted (with_chmod env permit)) with (open_permitted env).
  change (create_mode (with_chmod env permit)) with (create_mode env).
  destruct (fs1 !! target_loc env tp) as [[|c mode]|];
    [split; [done|apply same_files_refl]| |].
  - destruct overwrite; [|split; [done|apply same_files_refl]].
    destruct (open_permitted env _ mode);
      [|split; [done|apply same_files_refl]].
    destruct (fault member); (split; [done|]);
      try apply same_files_refl;
      by apply same_files_insert; [apply same_files_refl|].
  - destruct (fault member); (split; [done|]);
      try apply same_files_refl;
      by apply same_files_insert; [apply same_files_refl|].
Qed.

Lemma apply_mode_returns env p member fs :
  (apply_mode env p member fs).2 = inr tt.
Proof.
  unfold apply_mode, try_pass. case_bool_decide; [done|].
  by destruct (chmod env p (unix_attr member) fs) as [? [|[]]].
Qed.

(** C9. The permission bits of an entry are
    [(external_attr >> 16) & 0o777].  When the copy of a file entry has
    gone through and the bits are not zero, [chmod] is called on the
    written file with them: permitted, the file ends with the entry's
    bits as its mode; refused, the file stays as written and the step
    returns all the same.  In both cases the loop goes on with the next
    entry.  No exception ever leaves lines 70-75, and whatever [chmod]
    answers the step of an entry ends the same way and leaves the same
    directories and the same bytes. *)
Theorem permissions_best_effort (env : Env) (dest_dir : Path)
    (overwrite : bool) (root_ : string) (member : ZipInfo) (fs fs1 fs2 : FS)
    (present : bool) :
  zip_is_dir member = false →
  effective_name root_ (filename member) ≠ "" →
  is_within_directory env dest_dir (entry_path dest_dir root_ member) = true →
  mkdir_parents env (parent (entry_path dest_dir root_ member)) fs
  = (fs1, inr tt) →
  path_exists env (entry_path dest_dir root_ member) fs1
  = (fs1, inr present) →
  present && negb overwrite = false →
  write_bytes env (entry_path dest_dir root_ member) (fault member)
    (data member) fs1
  = (fs2, inr tt) →
  unix_attr member = Z.land (Z.shiftr (external_attr member) 16) 511 ∧
  (∃ mode, fs2 !! entry_loc env dest_dir root_ member
           = Some (File (data member) mode)) ∧
  (unix_attr member = 0 →
   process_member env dest_dir overwrite root_ member fs = (fs2, inr tt)) ∧
  (unix_attr member ≠ 0 →
   apply_mode env (entry_path dest_dir root_ member) member fs2
   = try_pass (chmod env (entry_path dest_dir root_ member) (unix_attr member))
       fs2 ∧
   (chmod_permitted env (entry_loc env dest_dir root_ member) (unix_attr member)
    = true →
    process_member env dest_dir overwrite root_ member fs
    = (<[entry_loc env dest_dir root_ member :=
           File (data member) (unix_attr member)]> fs2,
       inr tt)) ∧
   (chmod_permitted env (entry_loc env dest_dir root_ member) (unix_attr member)
    = false →
    chmod env (entry_path dest_dir root_ member) (unix_attr member) fs2
    = (fs2, inl (OSError EPERM)) ∧
    process_member env dest_dir overwrite root_ member fs = (fs2, inr tt))) ∧
  (∀ rest,
     ∃ fs3,
       process_member env dest_dir overwrite root_ member fs = (fs3, inr tt) ∧
       for_each (process_member env dest_dir overwrite root_) (member :: rest)
         fs
       = for_each (process_member env dest_dir overwrite root_) rest fs3) ∧
  (∀ target member' fs', outcome (apply_mode env target member') fs' = inr tt) ∧
  (∀ permit,
     ready env fs →
     ok (outcome (process_member (with_chmod env permit) dest_dir overwrite
                    root_ member) fs)
     = ok (outcome (process_member env dest_dir overwrite root_ member) fs) ∧
     same_files
       (tree_after (process_member (with_chmod env permit) dest_dir overwrite
                      root_ member) fs)
       (tree_after (process_member env dest_dir overwrite root_ member) fs)).
Proof.
  intros Hfile Hname Hcheck Hmk Hex Hskip Hwrite.
  unfold entry_path, entry_loc in *.
  assert (Hstep : process_member env dest_dir overwrite root_ member fs
                  = apply_mode env
                      (joinpath dest_dir
                         (effective_name root_ (filename member)))
                      member fs2).
  { unfold process_member.
    destruct (effective_name root_ (filename member)) eqn:E; [done|].
    rewrite <- E in *. replace (truthy _) with true by by rewrite E.
    rewrite Hcheck, Hfile. simpl.
    rewrite bind_run, Hmk, bind_run, Hex, Hskip, bind_run.
    by rewrite Hwrite. }
  set (tp := joinpath dest_dir (effective_name root_ (filename member))) in *.
  destruct (write_bytes_done _ _ _ _ _ _ Hwrite)
    as (_ & Hn & mode & -> & Hnodir).
  set (l := target_loc env tp) in *.
  set (fs2 := <[l := File (data member) mode]> fs1) in *.
  assert (Hl : fs2 !! l = Some (File (data member) mode))
    by apply lookup_insert_eq.
  split; [done|]. split; [by exists mode|].
  split; [|split; [|split; [|split]]].
  - intros Hzero. rewrite Hstep. unfold apply_mode.
    by rewrite bool_decide_eq_true_2.
  - intros Hbits.
    assert (Hattempt : apply_mode env tp member fs2
                       = try_pass (chmod env tp (unix_attr member)) fs2).
    { unfold apply_mode. by rewrite bool_decide_eq_false_2. }
    split; [done|]. rewrite Hstep, Hattempt.
    unfold try_pass, chmod, sys, os_chmod. rewrite Hn, Hl.
    split; intros ->; [|done].
    unfold fs2. by rewrite insert_insert_eq.
  - intros rest. exists (apply_mode env tp member fs2).1.
    pose proof (apply_mode_returns env tp member fs2) as Hret.
    assert (Hres : process_member env dest_dir overwrite root_ member fs
                   = ((apply_mode env tp member fs2).1, inr tt)).
    { rewrite Hstep. destruct (apply_mode env tp member fs2) as [t r].
      simpl in *. by subst r. }
    split; [done|]. cbn [for_each]. by rewrite bind_run, Hres.
  - intros target member' fs'. apply apply_mode_returns.
  - intros permit Hready. unfold outcome, tree_after.
    assert (Hready' : ready (with_chmod env permit) fs) by done.
    pose proof (process_member_sem env dest_dir overwrite root_ member fs
                  Hready) as H1.
    pose proof (process_member_sem (with_chmod env permit) dest_dir overwrite
                  root_ member fs Hready') as H2.
    destruct (step_sem_chmod env permit dest_dir overwrite root_ member fs)
      as [Hb Hs].
    rewrite <- H1, <- H2 in Hb, Hs. done.
Qed.

Lemma permissions_best_effort_witness :
  process_member env_strict site false "" script_entry fs0
  = (<[ ["site"; "run.sh"] := File [x61] 420 ]> fs0, inr tt) ∧
  process_member env0 site false "" script_entry fs0
  = (<[ ["site"; "run.sh"] := File [x61] 493 ]> fs0, inr tt).
Proof.
  split.
  - destruct (permissions_best_effort env_strict site false "" script_entry
                fs0 fs0 (<[ ["site"; "run.sh"] := File [x61] 420 ]> fs0) false)
      as (_ & _ & _ & H & _).
    + reflexivity.
    + discriminate.
    + reflexivity.
    + apply (bool_decide_eq_true_1 _). vm_compute. reflexivity.
    + apply (bool_decide_eq_true_1 _). vm_compute. reflexivity.
    + reflexivity.
    + apply (bool_decide_eq_true_1 _). vm_compute. reflexivity.
    + destruct H as (_ & _ & H); [discriminate|].
      destruct H as [_ H]; [reflexivity|exact H].
  - destruct (permissions_best_effort env0 site false "" script_entry
                fs0 fs0 (<[ ["site"; "run.sh"] := File [x61] 420 ]> fs0) false)
      as (_ & _ & _ & H & _).
    + reflexivity.
    + discriminate.
    + reflexivity.
    + apply (bool_decide_eq_true_1 _). vm_compute. reflexivity.
    + apply (bool_decide_eq_true_1 _). vm_compute. reflexivity.
    + reflexivity.
    + apply (bool_decide_eq_true_1 _). vm_compute. reflexivity.
    + destruct H as (_ & H & _); [discriminate|].
      rewrite H; [|reflexivity].
      apply (bool_decide_eq_true_1 _). vm_compute. reflexivity.
Defined.

Example refused_chmod_keeps_mode :
  safe_extract env_strict [script_entry] site false true fs0
  = (<[ ["site"; "run.sh"] := File [x61] 420 ]> fs0, inr tt).
Proof. by_compute. Qed.

Example permitted_chmod_sets_mode :
  safe_extract env0 [script_entry] site false true fs0
  = (<[ ["site"; "run.sh"] := File [x61] 493 ]> fs0, inr tt).
Proof. by_compute. Qed.

(** Over a whole run the answer of [chmod] can matter: a mode that was
    set decides whether a later entry may open the file again. *)
Example permitted_chmod_locks :
  ok (outcome (safe_extract env0 [readonly_entry; readonly_entry] site true true)
        fs0) = false ∧
  ok (outcome (safe_extract env_strict [readonly_entry; readonly_entry] site
                 true true) fs0) = true.
Proof. by_compute. Qed.

End ModeFacts.

(** ** Running the same archive again *)

Module AgainFacts.
Import PyStr PyStrFacts PurePath Fs Exn PathIO RenderApp Sample.
Import Words Canon Replay.
Import FsFacts StepFacts RunFacts OverwriteFacts.
Local Open Scope list_scope.

Lemma new_mode_default env l member mode :
  new_mode env l member mode = default mode (mode_opt env l member).
Proof.
  unfold new_mode, mode_opt. case_bool_decide; [done|].
  by destruct (chmod_permitted env l (unix_attr member)).
Qed.

Lemma apply_action_lookup u a k :
  apply_action u a !! k = upd_at k (u !! k) a.
Proof.
  unfold apply_action, upd_at. destruct (decide (a_loc a = k)) as [<-|Hne].
  - destruct (u !! a_loc a) as [n|] eqn:E; [|by rewrite E].
    by rewrite lookup_insert_eq.
  - destruct (u !! a_loc a); [|done]. by rewrite lookup_insert_ne.
Qed.

Lemma replay_lookup acts u k : replay acts u !! k = replay_at acts k (u !! k).
Proof.
  revert u. induction acts as [|a acts IH]; intros u; [done|].
  unfold replay, replay_at in *. simpl. by rewrite IH, apply_action_lookup.
Qed.

Lemma replay_at_none acts k : replay_at acts k None = None.
Proof.
  induction acts as [|a acts IH]; [done|]. unfold replay_at in *. simpl.
  unfold upd_at at 2. by destruct (decide _).
Qed.

Lemma replay_at_dir acts k : replay_at acts k (Some Dir) = Some Dir.
Proof.
  induction acts as [|a acts IH]; [done|]. unfold replay_at in *. simpl.
  unfold upd_at at 2. by destruct (decide _).
Qed.

(** At one location the writes come to: maybe new bytes, maybe a new mode. *)
Lemma replay_at_file acts k :
  ∃ co mo, ∀ c mode,
    replay_at acts k (Some (File c mode))
    = Some (File (default c co) (default mode mo)).
Proof.
  induction acts as [|a acts IH] using rev_ind.
  - by exists None, None.
  - destruct IH as (co & mo & IH). unfold replay_at in *.
    destruct (decide (a_loc a = k)) as [E|E].
    + exists (Some (a_data a)),
             (match a_mode a with Some x => Some x | None => mo end).
      intros c mode. rewrite fold_left_app, IH. simpl.
      unfold upd_at. rewrite decide_True by done. simpl.
      by destruct (a_mode a).
    + exists co, mo. intros c mode. rewrite fold_left_app, IH. simpl.
      unfold upd_at. by rewrite decide_False.
Qed.

Lemma apply_action_extends u a : extends u (apply_action u a).
Proof.
  intros k n Hk. rewrite apply_action_lookup. unfold upd_at.
  destruct (decide _); rewrite Hk; simpl; eexists; (split; [done|]).
  - by destruct n.
  - apply same_kind_refl.
Qed.

(** *** A tree that has seen the archive takes it the same way *)

Lemma mkdir_walk_stable fs cur ps fs' b u :
  mkdir_walk fs cur ps = (fs', b) → extends fs' u →
  mkdir_walk u cur ps = (u, b).
Proof.
  revert fs cur. induction ps as [|x ps IH]; intros fs cur H He; simpl in *.
  - by injection H as _ <-.
  - destruct (long_name x); [by injection H as _ <-|].
    destruct (fs !! enter cur x) as [[|c mode]|] eqn:E.
    + destruct (mkdir_walk_grows _ _ _ _ _ H) as [Hsub _].
      rewrite (extends_dir _ _ _ He (lookup_weaken _ _ _ _ E Hsub)).
      by eapply IH.
    + injection H as <- <-.
      destruct (extends_file _ _ _ _ _ He E) as (c' & mode' & ->). done.
    + destruct (mkdir_walk_grows _ _ _ _ _ H) as [Hsub _].
      rewrite (extends_dir _ _ _ He
                 (lookup_weaken _ _ _ _ (lookup_insert_eq fs _ Dir) Hsub)).
      by eapply IH.
Qed.

Lemma mkdir_sem_stable env p fs fs' b u :
  mkdir_sem env p fs = (fs', b) → extends fs' u → mkdir_sem env p u = (u, b).
Proof.
  unfold mkdir_sem. destruct (path_check p).
  - by intros [= _ <-].
  - apply mkdir_walk_stable.
Qed.

Lemma grows_file_back fs fs1 l c m :
  grows fs fs1 → fs1 !! l = Some (File c m) → fs !! l = Some (File c m).
Proof.
  intros [Hsub Hnew] H. destruct (fs !! l) as [n|] eqn:E.
  - by rewrite (lookup_weaken _ _ _ _ E Hsub) in H.
  - rewrite (Hnew l E (mk_is_Some _ _ H)) in H. done.
Qed.

Lemma grows_none_back fs fs1 l :
  grows fs fs1 → fs1 !! l = None → fs !! l = None.
Proof.
  intros [Hsub _] H. destruct (fs !! l) as [n|] eqn:E; [|done].
  by rewrite (lookup_weaken _ _ _ _ E Hsub) in H.
Qed.

Lemma agree_refl env fs : agree env fs fs.
Proof. intros l c mode H. by rewrite H. Qed.

Lemma agree_grown env fs fs1 : grows fs fs1 → agree env fs fs1.
Proof.
  intros Hg l c mode H. by rewrite (grows_file_back _ _ _ _ _ Hg H).
Qed.

Lemma agree_grows env fs fs1 u :
  agree env fs u → grows fs fs1 → extends fs1 u → agree env fs1 u.
Proof.
  intros Ha Hg He l c mode Hu. rewrite (Ha l c mode Hu).
  destruct (fs1 !! l) as [[|c1 m1]|] eqn:E.
  - rewrite (extends_dir _ _ _ He E) in Hu. done.
  - by rewrite (grows_file_back _ _ _ _ _ Hg E).
  - by rewrite (grows_none_back _ _ _ Hg E).
Qed.

Lemma agree_trans env fs fs1 u :
  agree env fs fs1 → agree env fs1 u → extends fs fs1 → agree env fs u.
Proof.
  intros H1 H2 He l c mode Hu. rewrite (H2 l c mode Hu).
  destruct (fs1 !! l) as [[|c1 m1]|] eqn:E.
  - destruct (fs !! l) as [[|c0 m0]|] eqn:E0; try done.
    destruct (extends_file _ _ _ _ _ He E0) as (? & ? & ?). congruence.
  - apply (H1 l c1 m1 E).
  - destruct (fs !! l) as [[|c0 m0]|] eqn:E0; try done.
    destruct (extends_file _ _ _ _ _ He E0) as (? & ? & ?). congruence.
Qed.

(** What a write with [overwrite=True] that went through has done. *)
Lemma write_sem_done env member l fs1 fs' :
  write_sem env true member l fs1 = (fs', true) →
  ∃ mode0,
    fs' = <[l := File (data member) (new_mode env l member mode0)]> fs1 ∧
    match fs1 !! l with
    | Some (File _ m) => m = mode0 ∧ open_permitted env l m = true
    | Some Dir => False
    | None => mode0 = create_mode env
    end.
Proof.
  unfold write_sem. destruct (fs1 !! l) as [[|c m]|]; [done| |].
  - destruct (open_permitted env l m) eqn:Hp; [|done].
    intros [_ ->]%store_ok. by exists m.
  - intros [_ ->]%store_ok. by exists (create_mode env).
Qed.

Lemma write_sem_stopped env member l fs1 fs' :
  fault member = Sound →
  write_sem env true member l fs1 = (fs', false) → fs' = fs1.
Proof.
  intros Hs. unfold write_sem, store. rewrite Hs.
  destruct (fs1 !! l) as [[|c m]|]; [by intros [= <-]| |done].
  destruct (open_permitted env l m); [done|by intros [= <-]].
Qed.

(** A step of an entry that is read to its end either adds directories
    only, or makes the directories of the way and writes its file. *)
Lemma step_sem_cases env dest_dir root_ member fs fs' b :
  fault member = Sound →
  step_sem env dest_dir true root_ member fs = (fs', b) →
  (grows fs fs' ∧ (b = true → file_action env dest_dir root_ member = None)) ∨
  (b = true ∧ zip_is_dir member = false ∧
   file_action env dest_dir root_ member
   = Some (MkAction (entry_loc env dest_dir root_ member) (data member)
             (mode_opt env (entry_loc env dest_dir root_ member) member)) ∧
   ∃ fs1, grows fs fs1 ∧ (ready env fs → ready env fs1) ∧
          write_sem env true member (entry_loc env dest_dir root_ member) fs1
          = (fs', true)).
Proof.
  intros Hsound. unfold step_sem, file_action, entry_loc.
  destruct (negb (truthy _)); simpl.
  { intros [= <- <-]. left. split; [apply grows_refl|done]. }
  set (tp := joinpath dest_dir (effective_name root_ (filename member))).
  destruct (negb (is_within_directory env dest_dir tp)).
  { intros [= <- <-]. left. split; [apply grows_refl|done]. }
  destruct (zip_is_dir member).
  { intros H. left. split; [by eapply mkdir_sem_grows|done]. }
  destruct (mkdir_sem env (parent tp) fs) as [fs1 b1] eqn:Hmk.
  pose proof (mkdir_sem_grows _ _ _ _ _ Hmk) as Hg.
  destruct b1; [|intros [= <- <-]; left; by split].
  destruct (long_path tp || long_last tp); [intros [= <- <-]; left; by split|].
  destruct b; intros H.
  - right. split; [done|]. split; [done|]. split; [done|]. exists fs1.
    split; [done|]. split; [|done]. intros Hready.
    apply (extends_ready env fs); [|done|by apply grows_extends].
    exact (mkdir_sem_wf env (parent tp) fs fs1 true (proj1 Hready)
             (ready_start _ _ tp Hready) Hmk).
  - left. rewrite (write_sem_stopped _ _ _ _ _ Hsound H). by split.
Qed.

Lemma step_absorbed env dest_dir root_ member fs fs' b u :
  fault member = Sound →
  step_sem env dest_dir true root_ member fs = (fs', b) →
  extends fs' u → agree env fs u →
  step_sem env dest_dir true root_ member u
  = (if b then replay (option_list (file_action env dest_dir root_ member)) u
     else u, b).
Proof.
  intros Hsound. unfold step_sem, file_action, entry_loc.
  destruct (negb (truthy _)); simpl; [by intros [= <- <-]|].
  set (tp := joinpath dest_dir (effective_name root_ (filename member))).
  destruct (negb (is_within_directory env dest_dir tp));
    [by intros [= <- <-]|].
  destruct (zip_is_dir member); simpl.
  - intros H He _. rewrite (mkdir_sem_stable _ _ _ _ _ _ H He). by destruct b.
  - destruct (mkdir_sem env (parent tp) fs) as [fs1 b1] eqn:Hmk.
    destruct b1;
      [|intros [= <- <-] He _; by rewrite (mkdir_sem_stable _ _ _ _ _ _ Hmk He)].
    destruct (long_path tp || long_last tp);
      [intros [= <- <-] He _; by rewrite (mkdir_sem_stable _ _ _ _ _ _ Hmk He)|].
    intros H He Ha.
    pose proof (write_sem_extends _ _ _ _ _ _ _ H) as He1.
    pose proof (extends_trans _ _ _ He1 He) as He2.
    rewrite (mkdir_sem_stable _ _ _ _ _ _ Hmk He2).
    pose proof (agree_grows env fs fs1 u Ha (mkdir_sem_grows _ _ _ _ _ Hmk) He2)
      as Ha1.
    unfold write_sem, store in *. rewrite Hsound in *.
    unfold apply_action. simpl.
    destruct (fs1 !! target_loc env tp) as [[|c mode]|] eqn:El.
    + injection H as <- <-. by rewrite (extends_dir _ _ _ He El).
    + destruct (extends_file _ _ _ _ _ He2 El) as (c' & mode' & Hu).
      pose proof (Ha1 _ _ _ Hu) as Hp. rewrite El in Hp.
      rewrite Hu, Hp.
      destruct (open_permitted env (target_loc env tp) mode);
        injection H as <- <-; [|done].
      cbn [upd a_data a_mode]. by rewrite new_mode_default.
    + injection H as <- <-.
      destruct (extends_file _ _ _ _ _ He (lookup_insert_eq fs1 _ _))
        as (c' & mode' & Hu).
      pose proof (Ha1 _ _ _ Hu) as Hp. rewrite El in Hp.
      rewrite Hu, Hp.
      cbn [upd a_data a_mode]. by rewrite new_mode_default.
Qed.

Lemma replay_extends acts u : extends u (replay acts u).
Proof.
  revert u. induction acts as [|a acts IH]; intros u; [apply extends_refl|].
  eapply extends_trans; [apply apply_action_extends|apply IH].
Qed.

Lemma new_mode_permitted env l member mode :
  (unix_attr member ≠ 0 → open_permitted env l (unix_attr member) = true) →
  open_permitted env l mode = true →
  open_permitted env l (new_mode env l member mode) = true.
Proof.
  intros Hattr Hmode. unfold new_mode. case_bool_decide; [done|].
  destruct (chmod_permitted env l (unix_attr member)); [by apply Hattr|done].
Qed.

Lemma new_mode_agree env l member mode mode' :
  open_permitted env l mode' = open_permitted env l mode →
  open_permitted env l (new_mode env l member mode')
  = open_permitted env l (new_mode env l member mode).
Proof.
  intros H. unfold new_mode. case_bool_decide; [done|].
  by destruct (chmod_permitted env l (unix_attr member)).
Qed.

(** The tree a step leaves can be opened where the tree it found could. *)
Lemma step_agree_self env dest_dir root_ member fs fs' b :
  fault member = Sound → writable_entry env dest_dir root_ member →
  step_sem env dest_dir true root_ member fs = (fs', b) →
  agree env fs fs'.
Proof.
  intros Hsound Hw H.
  destruct (step_sem_cases _ _ _ _ _ _ _ Hsound H)
    as [[Hg _]|(_ & Hfile & _ & fs1 & Hg & _ & Hwr)]; [by apply agree_grown|].
  destruct (Hw Hfile) as [Hnew Hattr].
  destruct (write_sem_done _ _ _ _ _ Hwr) as (mode0 & -> & Hl).
  set (l := entry_loc env dest_dir root_ member) in *.
  intros k c mode Hk. destruct (decide (k = l)) as [->|Hne].
  - rewrite lookup_insert_eq in Hk. injection Hk as _ <-.
    destruct (fs1 !! l) as [[|c1 m1]|] eqn:El; [done| |].
    + destruct Hl as [-> Hp]. rewrite (grows_file_back _ _ _ _ _ Hg El), Hp.
      by apply new_mode_permitted.
    + subst mode0. rewrite (grows_none_back _ _ _ Hg El).
      by apply new_mode_permitted.
  - rewrite lookup_insert_ne in Hk by done.
    by rewrite (grows_file_back _ _ _ _ _ Hg Hk).
Qed.

(** And so can the tree that has absorbed the step. *)
Lemma agree_step env dest_dir root_ member fs fs' u :
  fault member = Sound → writable_entry env dest_dir root_ member →
  step_sem env dest_dir true root_ member fs = (fs', true) →
  extends fs' u → agree env fs u →
  agree env fs'
    (replay (option_list (file_action env dest_dir root_ member)) u).
Proof.
  intros Hsound Hw H He Ha.
  destruct (step_sem_cases _ _ _ _ _ _ _ Hsound H)
    as [[Hg Hnone]|(_ & Hfile & Hact & fs1 & Hg & _ & Hwr)].
  { rewrite (Hnone eq_refl). simpl. by apply (agree_grows env fs). }
  rewrite Hact. destruct (Hw Hfile) as [Hnew Hattr].
  pose proof (write_sem_extends _ _ _ _ _ _ _ Hwr) as He1.
  pose proof (agree_grows env fs fs1 u Ha Hg (extends_trans _ _ _ He1 He))
    as Ha1.
  destruct (write_sem_done _ _ _ _ _ Hwr) as (mode0 & -> & Hl).
  set (l := entry_loc env dest_dir root_ member) in *.
  destruct (extends_file _ _ l _ _ He
              (lookup_insert_eq fs1 l
                 (File (data member) (new_mode env l member mode0))))
    as (c' & mode' & Hu).
  assert (Hp : open_permitted env l mode' = open_permitted env l mode0).
  { rewrite (Ha1 _ _ _ Hu).
    destruct (fs1 !! l) as [[|c1 m1]|]; [done| |].
    - by destruct Hl as [-> _].
    - by subst mode0. }
  intros k c mode Hk. simpl in Hk. unfold replay in Hk. simpl in Hk.
  rewrite apply_action_lookup in Hk. unfold upd_at in Hk. cbn [a_loc] in Hk.
  destruct (decide (l = k)) as [<-|Hne].
  - rewrite Hu in Hk. simpl in Hk. injection Hk as _ <-.
    rewrite lookup_insert_eq, <- new_mode_default.
    by apply new_mode_agree.
  - rewrite lookup_insert_ne by done. exact (Ha1 k c mode Hk).
Qed.

Lemma run_agree env dest_dir root_ members fs t b :
  ready env fs → sound members → stays_writable env dest_dir root_ members →
  run_sem env dest_dir true root_ members fs = (t, b) →
  agree env fs t.
Proof.
  revert fs. induction members as [|m rest IH]; intros fs Hready Hs Hw H;
    simpl in *.
  - injection H as <- _. apply agree_refl.
  - apply Forall_cons in Hs as [Hs1 Hs]. apply Forall_cons in Hw as [Hw1 Hw].
    destruct (step_sem env dest_dir true root_ m fs) as [fs1 b1] eqn:Hstep.
    destruct (step_sem_facts _ _ _ _ _ _ _ _ Hready Hstep) as (Hr1 & He1 & _).
    pose proof (step_agree_self _ _ _ _ _ _ _ Hs1 Hw1 Hstep) as Ha1.
    destruct b1; [|by injection H as <- _].
    eapply agree_trans; [exact Ha1| |exact He1]. by apply IH.
Qed.

Lemma run_absorbed env dest_dir root_ members fs t b u :
  ready env fs → sound members → stays_writable env dest_dir root_ members →
  run_sem env dest_dir true root_ members fs = (t, b) →
  extends t u → agree env fs u →
  run_sem env dest_dir true root_ members u
  = (replay (trace env dest_dir root_ members fs) u, b).
Proof.
  revert fs u.
  induction members as [|m rest IH]; intros fs u Hready Hs Hw H He Ha;
    simpl in *.
  - by injection H as _ <-.
  - apply Forall_cons in Hs as [Hs1 Hs]. apply Forall_cons in Hw as [Hw1 Hw].
    destruct (step_sem env dest_dir true root_ m fs) as [fs1 b1] eqn:Hstep.
    destruct (step_sem_facts _ _ _ _ _ _ _ _ Hready Hstep) as (Hr1 & _).
    destruct b1.
    + destruct (run_sem_facts _ _ _ _ _ _ _ _ Hr1 H) as (_ & He1 & _).
      pose proof (extends_trans _ _ _ He1 He) as He2.
      rewrite (step_absorbed _ _ _ _ _ _ _ u Hs1 Hstep He2 Ha).
      unfold replay at 2. rewrite fold_left_app.
      apply (IH fs1); [done|done|done|done| |].
      * eapply extends_trans; [exact He|apply replay_extends].
      * by apply (agree_step _ _ _ _ fs).
    + injection H as <- <-.
      by rewrite (step_absorbed _ _ _ _ _ _ _ u Hs1 Hstep He Ha).
Qed.

(** *** The tree a run leaves has absorbed the run's writes *)

Lemma settled_replay acts t : settled acts t → replay acts t = t.
Proof. intros H. apply map_eq. intros k. by rewrite replay_lookup. Qed.

Lemma replay_at_untouched acts k o :
  (∀ a, a ∈ acts → a_loc a ≠ k) → replay_at acts k o = o.
Proof.
  revert o. induction acts as [|a acts IH]; intros o H; [done|].
  unfold replay_at in *. simpl. unfold upd_at at 2.
  rewrite decide_False by (apply H, elem_of_cons; by left).
  apply IH. intros a' Ha'. apply H, elem_of_cons. by right.
Qed.

Lemma replay_at_snoc acts a k o :
  replay_at (acts ++ [a]) k o = upd_at k (replay_at acts k o) a.
Proof. unfold replay_at. by rewrite fold_left_app. Qed.

Lemma inv_grows env acts s s1 :
  inv env acts s → grows s s1 → ready env s1 → inv env acts s1.
Proof.
  intros (_ & Hset & Hfiles) [Hsub Hnew] Hready. split; [done|]. split.
  - intros k. destruct (s !! k) as [n|] eqn:E.
    + rewrite (lookup_weaken _ _ _ _ E Hsub). rewrite <- E. apply Hset.
    + destruct (s1 !! k) as [n|] eqn:E1; [|apply replay_at_none].
      specialize (Hnew k E (mk_is_Some _ _ E1)). rewrite E1 in Hnew.
      injection Hnew as ->. apply replay_at_dir.
  - intros a Ha. destruct (Hfiles a Ha) as (c & mode & E).
    exists c, mode. by apply (lookup_weaken _ _ _ _ E Hsub).
Qed.

Lemma inv_write env acts s l c mo mode :
  inv env acts s →
  ready env (<[l := File c (default mode mo)]> s) →
  match s !! l with
  | Some (File _ mode') => mode' = mode
  | Some Dir => False
  | None => True
  end →
  inv env (acts ++ [MkAction l c mo]) (<[l := File c (default mode mo)]> s).
Proof.
  intros (_ & Hset & Hfiles) Hready Hl. split; [done|]. split.
  - intros k. rewrite replay_at_snoc. unfold upd_at. cbn [a_loc].
    destruct (decide (l = k)) as [<-|Hne].
    + rewrite lookup_insert_eq.
      destruct (replay_at_file acts l) as (co & mo' & Hsum).
      rewrite Hsum. simpl. f_equal. f_equal.
      destruct mo as [x|]; [done|]. simpl.
      assert (Hfix : ∃ c1, replay_at acts l (Some (File c1 mode))
                           = Some (File c1 mode)).
      { destruct (s !! l) as [[|c0 mode0]|] eqn:E; [done| |].
        - subst mode0. exists c0. rewrite <- E. apply Hset.
        - exists c. apply replay_at_untouched. intros a Ha Hal.
          destruct (Hfiles a Ha) as (? & ? & Hf). congruence. }
      destruct Hfix as [c1 Hfix]. rewrite Hsum in Hfix.
      by injection Hfix as _ ->.
    + rewrite lookup_insert_ne by done. apply Hset.
  - intros a [Ha| ->%list_elem_of_singleton]%elem_of_app.
    + destruct (decide (l = a_loc a)) as [<-|Hne].
      * rewrite lookup_insert_eq. eauto.
      * rewrite lookup_insert_ne by done. by apply Hfiles.
    + simpl. rewrite lookup_insert_eq. eauto.
Qed.

Lemma inv_step env dest_dir root_ member acts s s' b :
  fault member = Sound →
  inv env acts s →
  step_sem env dest_dir true root_ member s = (s', b) →
  inv env
    (acts ++ (if b then option_list (file_action env dest_dir root_ member)
              else []))
    s'.
Proof.
  intros Hsound Hinv H. pose proof Hinv as (Hready & _).
  destruct (step_sem_facts _ _ _ _ _ _ _ _ Hready H) as (Hready' & _).
  destruct (step_sem_cases _ _ _ _ _ _ _ Hsound H)
    as [[Hg Hnone]|(-> & Hfile & Hact & s1 & Hg & Hr1 & Hwr)].
  - assert (Hnil : (if b then option_list (file_action env dest_dir root_ member)
                    else []) = []).
    { destruct b; [|done]. by rewrite (Hnone eq_refl). }
    rewrite Hnil, app_nil_r. by eapply inv_grows.
  - rewrite Hact. simpl. specialize (Hr1 Hready).
    destruct (write_sem_done _ _ _ _ _ Hwr) as (mode0 & -> & Hl).
    set (l := entry_loc env dest_dir root_ member) in *.
    pose proof (inv_grows _ _ _ _ Hinv Hg Hr1) as Hinv1.
    rewrite new_mode_default in *.
    apply inv_write; [done|done|].
    destruct (s1 !! l) as [[|c1 m1]|]; [done| |done]. by destruct Hl.
Qed.

Lemma inv_run env dest_dir root_ members acts s t b :
  sound members →
  inv env acts s →
  run_sem env dest_dir true root_ members s = (t, b) →
  inv env (acts ++ trace env dest_dir root_ members s) t.
Proof.
  revert acts s. induction members as [|m rest IH]; intros acts s Hs Hinv H;
    simpl in *.
  - injection H as <- _. by rewrite app_nil_r.
  - apply Forall_cons in Hs as [Hs1 Hs].
    destruct (step_sem env dest_dir true root_ m s) as [s1 b1] eqn:Hstep.
    pose proof (inv_step _ _ _ _ _ _ _ _ Hs1 Hinv Hstep) as Hinv1.
    destruct b1.
    + rewrite app_assoc. by apply IH.
    + by injection H as <- _.
Qed.

Lemma run_twice env dest_dir root_ members fs t b :
  ready env fs → sound members → stays_writable env dest_dir root_ members →
  run_sem env dest_dir true root_ members fs = (t, b) →
  run_sem env dest_dir true root_ members t = (t, b).
Proof.
  intros Hready Hs Hw H.
  rewrite (run_absorbed _ _ _ _ _ _ _ t Hready Hs Hw H (extends_refl t)
             (run_agree _ _ _ _ _ _ _ Hready Hs Hw H)).
  f_equal. apply settled_replay.
  assert (Hinv : inv env [] fs).
  { split; [done|]. split; [done|]. by intros a ?%elem_of_nil. }
  by destruct (inv_run _ _ _ _ _ _ _ _ Hs Hinv H) as (_ & Hset & _).
Qed.




(** A run that raises half-way is absorbed as well. *)
Example failed_run_twice :
  safe_extract env0
    [file_entry "a/../f" [x61]; file_entry "f/g" [x62]; file_entry "h" [x63]]
    site true true fs0
  = (<[ ["site"; "f"] := File [x61] 420 ]> (<[ ["site"; "a"] := Dir ]> fs0),
     inl (OSError EEXIST)) ∧
  tree_after
    (safe_extract env0
       [file_entry "a/../f" [x61]; file_entry "f/g" [x62]; file_entry "h" [x63]]
       site true true)
    (<[ ["site"; "f"] := File [x61] 420 ]> (<[ ["site"; "a"] := Dir ]> fs0))
  = <[ ["site"; "f"] := File [x61] 420 ]> (<[ ["site"; "a"] := Dir ]> fs0).
Proof. by_compute. Qed.

End AgainFacts.

(** ** Where the entries of an archive with one top-level directory go *)

Module ProduceFacts.
Import PyStr PyStrFacts PurePath Fs Exn PathIO RenderApp Sample.
Import Words Canon Replay.
Import RootFacts StripFacts FsFacts StepFacts RunFacts OverwriteFacts.
Import ParentFacts NodeFacts.
Local Open Scope list_scope.




(** The example of the specification, run on an empty [/site]. *)
Example project_without_keep_root :
  let fs := tree_after (safe_extract env0 project_archive site false false) fs0 in
  outcome (safe_extract env0 project_archive site false false) fs0 = inr tt ∧
  fs !! ["site"; "index.html"] = Some (File [x68; x69] 420) ∧
  fs !! ["site"; "css"; "a.css"] = Some (File [x61] 420) ∧
  fs !! ["site"; "project"] = None.
Proof. by_compute. Qed.

Example project_with_keep_root :
  let fs := tree_after (safe_extract env0 project_archive site false true) fs0 in
  outcome (safe_extract env0 project_archive site false true) fs0 = inr tt ∧
  fs !! ["site"; "project"; "index.html"] = Some (File [x68; x69] 420) ∧
  fs !! ["site"; "project"; "css"; "a.css"] = Some (File [x61] 420) ∧
  fs !! ["site"; "index.html"] = None.
Proof. by_compute. Qed.


End ProduceFacts.

(** * Further properties *)

(** ** What the containment check accepts *)

Module CheckFacts.
Import PyStr PyStrFacts PurePath Fs Exn PathIO RenderApp Serve.
Import Words Canon MoreWords Sample ContainFacts.
Local Open Scope list_scope.

#[local] Arguments Ascii.eqb : simpl never.

Lemma no_slash_app (a b : string) :
  no_slash (a ++ b)%string = no_slash a && no_slash b.
Proof.
  induction a as [|c a IH]; cbn; [done|]. by rewrite IH, andb_assoc.
Qed.

Lemma startswith_cancel (a s pre : string) :
  startswith (a ++ s)%string (a ++ pre)%string = startswith s pre.
Proof.
  induction a as [|c a IH]; cbn; [done|]. by rewrite Ascii.eqb_refl, IH.
Qed.

(** Two names followed by a slash: the longer string starts with the
    shorter only if the names are the same. *)
Lemma startswith_segments (x y X Y : string) :
  no_slash x = true → no_slash y = true →
  startswith (y ++ "/" ++ Y)%string (x ++ "/" ++ X)%string = true →
  x = y ∧ startswith Y X = true.
Proof.
  revert y. induction x as [|a x IH]; intros y Hx Hy H.
  - destruct y as [|b y]; cbn in *.
    + by apply andb_true_iff in H as [_ H].
    + apply andb_true_iff in H as [Hb _]. apply Ascii.eqb_eq in Hb as <-.
      apply andb_true_iff in Hy as [Hy _]. by rewrite Ascii.eqb_refl in Hy.
  - cbn in Hx. apply andb_true_iff in Hx as [Ha Hx].
    destruct y as [|b y]; cbn in H.
    + apply andb_true_iff in H as [Hb _]. apply Ascii.eqb_eq in Hb as ->.
      by rewrite Ascii.eqb_refl in Ha.
    + apply andb_true_iff in H as [Hb H]. apply Ascii.eqb_eq in Hb as ->.
      cbn in Hy. apply andb_true_iff in Hy as [_ Hy].
      destruct (IH y Hx Hy H) as [-> ?]. done.
Qed.

(** A name without a slash does not start with something that has one. *)
Lemma startswith_no_slash (y x X : string) :
  no_slash y = true → startswith y (x ++ "/" ++ X)%string = false.
Proof.
  intros Hy. destruct (startswith y (x ++ "/" ++ X)%string) eqn:E; [|done].
  apply startswith_inv in E as [r ->].
  rewrite !no_slash_app in Hy. cbn in Hy.
  rewrite Ascii.eqb_refl in Hy. cbn in Hy.
  by rewrite andb_false_r in Hy.
Qed.

(** Whether a name and what follows start with a name is decided by the
    name alone. *)
Lemma startswith_first (y Y x : string) :
  no_slash x = true →
  startswith (y ++ "/" ++ Y)%string x = startswith y x.
Proof.
  revert y. induction x as [|a x IH]; intros y Hx; [done|].
  cbn in Hx. apply andb_true_iff in Hx as [Ha Hx].
  destruct y as [|b y]; cbn.
  - apply negb_true_iff in Ha. by rewrite Ha.
  - by rewrite IH.
Qed.

Lemma accepts_cons (x : string) (d t : list string) :
  d ≠ [] → accepts (x :: d) (x :: t) ↔ accepts d t.
Proof.
  intros Hd. unfold accepts. split.
  - intros [?|(pre & x0 & y & rest & Hdd & Ht & Hs)]; [done|]. right.
    destruct pre as [|p pre]; simpl in *.
    + injection Hdd as _ ->. done.
    + injection Hdd as _ ->. injection Ht as ->. by exists pre, x0, y, rest.
  - intros [?|(pre & x0 & y & rest & -> & -> & Hs)]; [done|]. right.
    by exists (x :: pre), x0, y, rest.
Qed.

Lemma join_startswith (d t : list string) :
  Forall (λ x, plain x = true) d → Forall (λ y, no_slash y = true) t →
  startswith (join_slash t) (join_slash d) = true ↔ accepts d t.
Proof.
  revert t. induction d as [|x d IH]; intros t Hd Ht.
  - split; [by left|done].
  - apply Forall_cons in Hd as [Hx Hd].
    apply andb_true_iff in Hx as [Hne Hx].
    destruct d as [|x' d].
    + (* the last component of the directory *)
      simpl. destruct t as [|y t].
      * destruct x; [done|]. simpl. split; [done|].
        intros [?|(pre & ? & ? & ? & _ & Ht' & _)]; [done|].
        by destruct pre.
      * assert (Hy : startswith (join_slash (y :: t)) x = startswith y x).
        { destruct t as [|y' t]; [done|].
          change (join_slash (y :: y' :: t))
            with (y ++ "/" ++ join_slash (y' :: t))%string.
          by apply startswith_first. }
        rewrite Hy. split.
        -- intros Hs. right. by exists [], x, y, t.
        -- intros [?|(pre & x0 & y0 & rest & Hdd & Ht' & Hs)]; [done|].
           destruct pre as [|? [|? ?]]; try done. simpl in *.
           injection Hdd as ->. by injection Ht' as -> _.
    + change (join_slash (x :: x' :: d))
        with (x ++ "/" ++ join_slash (x' :: d))%string.
      destruct t as [|y t].
      * split.
        -- simpl. by destruct x.
        -- intros [?|(pre & ? & ? & ? & _ & Ht' & _)]; [done|].
           by destruct pre.
      * apply Forall_cons in Ht as [Hy Ht].
        destruct t as [|y' t].
        -- simpl (join_slash [y]). rewrite startswith_no_slash by done.
           split; [done|].
           intros [?|(pre & x0 & y0 & rest & Hdd & Ht' & Hs)]; [done|].
           destruct pre as [|? [|? ?]]; try done.
        -- change (join_slash (y :: y' :: t))
             with (y ++ "/" ++ join_slash (y' :: t))%string.
           split.
           ++ intros H.
              destruct (startswith_segments _ _ _ _ Hx Hy H) as [-> H'].
              apply accepts_cons; [done|]. by apply IH.
           ++ intros Ha.
              assert (x = y) as ->.
              { destruct Ha as [?|(pre & x0 & y0 & rest & Hdd & Ht' & _)];
                  [done|].
                destruct pre as [|? ?]; [done|]. simpl in *. congruence. }
              rewrite startswith_cancel.
              change (startswith ("/" ++ join_slash (y' :: t))%string
                        ("/" ++ join_slash (x' :: d))%string)
                with (startswith (join_slash (y' :: t))
                        (join_slash (x' :: d))).
              apply IH; [done|done|]. by apply accepts_cons in Ha.
Qed.

Lemma check_accepts_for (env : Env) (directory target d t : Path) :
  resolve env directory = Some d →
  resolve env target = Some t →
  Forall (λ x, plain x = true) (parts d) →
  Forall (λ y, no_slash y = true) (parts t) →
  is_within_directory env directory target = true →
  accepts (parts d) (parts t).
Proof.
  intros Hd Ht Hpd Hpt. unfold is_within_directory. rewrite Hd, Ht.
  unfold resolve in Hd, Ht.
  destruct (existsb has_nul (parts directory)); [done|].
  destruct (existsb has_nul (parts target)); [done|].
  injection Hd as <-. injection Ht as <-. simpl in *.
  unfold to_str. simpl. by apply join_startswith.
Qed.

(** X1. A target that lies within the directory by components is never
    turned away by the check. *)
Theorem contained_is_accepted (env : Env) (directory target : Path) :
  contained env directory target →
  is_within_directory env directory target = true.
Proof. apply contained_accepted. Qed.

Lemma contained_is_accepted_witness :
  is_within_directory env0 site (joinpath site "a/../css/a.css") = true.
Proof.
  apply contained_is_accepted.
  apply (bool_decide_eq_true_1 _). vm_compute. reflexivity.
Defined.

(** X2. On resolved paths whose components are names, the check accepts
    exactly the targets that agree with the directory on all components but
    its last and hold, at that place, a name that starts with the
    directory's last component: the contained targets, and those below a
    sibling whose name the directory's name is a prefix of.  The root
    accepts every target. *)
Theorem check_accepts_exactly (env : Env) (directory target d t : Path) :
  resolve env directory = Some d →
  resolve env target = Some t →
  Forall (λ x, plain x = true) (parts d) →
  Forall (λ y, no_slash y = true) (parts t) →
  is_within_directory env directory target = true
  ↔ accepts (parts d) (parts t).
Proof.
  intros Hd Ht Hpd Hpt. unfold is_within_directory. rewrite Hd, Ht.
  unfold resolve in Hd, Ht.
  destruct (existsb has_nul (parts directory)); [done|].
  destruct (existsb has_nul (parts target)); [done|].
  injection Hd as <-. injection Ht as <-. simpl in *.
  unfold to_str. simpl. by apply join_startswith.
Qed.

Lemma check_accepts_exactly_witness :
  is_within_directory env0 site (joinpath site "../site-evil/x.txt") = true
  ↔ accepts ["site"] ["site-evil"; "x.txt"].
Proof.
  apply (check_accepts_exactly env0 site (joinpath site "../site-evil/x.txt")
           (MkPath Slash ["site"]) (MkPath Slash ["site-evil"; "x.txt"])).
  - reflexivity.
  - reflexivity.
  - repeat constructor.
  - repeat constructor.
Defined.

End CheckFacts.

(** ** What a run does to the tree *)

Module TreeFacts.
Import PyStr PyStrFacts PurePath Fs Exn PathIO RenderApp Serve.
Import Words Canon Replay MoreWords Sample.
Import FsFacts StepFacts RunFacts AbortFacts OverwriteFacts NodeFacts.
Local Open Scope list_scope.

Lemma grows_file fs fs1 l c mode :
  grows fs fs1 → fs1 !! l = Some (File c mode) → fs !! l = Some (File c mode).
Proof.
  intros [Hsub Hnew] H1. destruct (fs !! l) as [n|] eqn:E.
  - by rewrite (lookup_weaken _ _ _ _ E Hsub) in H1.
  - rewrite (Hnew l E (mk_is_Some _ _ H1)) in H1. done.
Qed.

Lemma store_files env member l0 mode0 fs fs' b l c mode :
  store env member l0 mode0 fs = (fs', b) →
  fs' !! l = Some (File c mode) →
  fs !! l = Some (File c mode) ∨ (l0 = l ∧ c = data member).
Proof.
  unfold store. intros H Hl.
  destruct (fault member); injection H as <- _; [|by left|];
    (destruct (decide (l0 = l)) as [->|Hne];
     [rewrite lookup_insert_eq in Hl; injection Hl as <- _; by right
     |rewrite lookup_insert_ne in Hl by done; by left]).
Qed.

Lemma write_sem_files env overwrite member l0 fs fs' b l c mode :
  write_sem env overwrite member l0 fs = (fs', b) →
  fs' !! l = Some (File c mode) →
  fs !! l = Some (File c mode) ∨ (l0 = l ∧ c = data member).
Proof.
  unfold write_sem. intros H Hl.
  destruct (fs !! l0) as [[|c0 mode0]|].
  - injection H as <- _. by left.
  - destruct overwrite; [|injection H as <- _; by left].
    destruct (open_permitted env l0 mode0); [|injection H as <- _; by left].
    by eapply store_files.
  - by eapply store_files.
Qed.

(** Every file a step leaves was there, bytes and mode, or is the one the
    entry wrote at its location. *)
Lemma step_sem_files env dest_dir overwrite root_ member fs fs' b l c mode :
  step_sem env dest_dir overwrite root_ member fs = (fs', b) →
  fs' !! l = Some (File c mode) →
  fs !! l = Some (File c mode) ∨
  (zip_is_dir member = false ∧ entry_loc env dest_dir root_ member = l ∧
   c = data member).
Proof.
  unfold step_sem, entry_loc.
  destruct (negb (truthy _)); [intros [= <- _]; by left|].
  set (tp := joinpath dest_dir (effective_name root_ (filename member))).
  destruct (negb (is_within_directory env dest_dir tp));
    [intros [= <- _]; by left|].
  destruct (zip_is_dir member).
  - intros H Hl. left. by eapply grows_file; [eapply mkdir_sem_grows|].
  - destruct (mkdir_sem env (parent tp) fs) as [fs1 b1] eqn:Hmk.
    pose proof (mkdir_sem_grows _ _ _ _ _ Hmk) as Hg.
    destruct b1; [|intros [= <- _] Hl; left; by eapply grows_file].
    destruct (long_path tp || long_last tp);
      [intros [= <- _] Hl; left; by eapply grows_file|].
    intros H Hl.
    destruct (write_sem_files _ _ _ _ _ _ _ _ _ _ H Hl) as [H1|[-> ->]].
    + left. by eapply grows_file.
    + by right.
Qed.

Lemma run_sem_files env dest_dir overwrite root_ members fs fs' b l c mode :
  run_sem env dest_dir overwrite root_ members fs = (fs', b) →
  fs' !! l = Some (File c mode) →
  fs !! l = Some (File c mode) ∨
  ∃ m, m ∈ members ∧ zip_is_dir m = false ∧
       entry_loc env dest_dir root_ m = l ∧ c = data m.
Proof.
  revert fs. induction members as [|m rest IH]; intros fs H Hl; simpl in H.
  - injection H as <- _. by left.
  - destruct (step_sem env dest_dir overwrite root_ m fs) as [fs1 b1] eqn:Hs.
    assert (Hstep : fs1 !! l = Some (File c mode) →
              fs !! l = Some (File c mode) ∨
              ∃ m', m' ∈ m :: rest ∧ zip_is_dir m' = false ∧
                    entry_loc env dest_dir root_ m' = l ∧ c = data m').
    { intros H1.
      destruct (step_sem_files _ _ _ _ _ _ _ _ _ _ _ Hs H1) as [?|(?&?&?)];
        [by left|right].
      exists m. split; [apply elem_of_cons; by left|done]. }
    destruct b1; [|injection H as <- _; by apply Hstep].
    destruct (IH fs1 H Hl) as [H1|(m' & Hm' & ?)]; [by apply Hstep|right].
    exists m'. split; [apply elem_of_cons; by right|done].
Qed.

(** With [overwrite=False] a tree that has what the step left takes the
    entry, when it is read to its end, without any change. *)
Lemma step_settled env dest_dir root_ member fs fs' b u :
  fault member = Sound →
  step_sem env dest_dir false root_ member fs = (fs', b) →
  extends fs' u →
  step_sem env dest_dir false root_ member u = (u, b).
Proof.
  intros Hsound. unfold step_sem.
  destruct (negb (truthy _)); [by intros [= <- <-]|].
  set (tp := joinpath dest_dir (effective_name root_ (filename member))).
  destruct (negb (is_within_directory env dest_dir tp));
    [by intros [= <- <-]|].
  destruct (zip_is_dir member).
  - intros H He. by apply (AgainFacts.mkdir_sem_stable _ _ _ _ _ _ H He).
  - destruct (mkdir_sem env (parent tp) fs) as [fs1 b1] eqn:Hmk.
    destruct b1;
      [|intros [= <- <-] He;
        by rewrite (AgainFacts.mkdir_sem_stable _ _ _ _ _ _ Hmk He)].
    destruct (long_path tp || long_last tp);
      [intros [= <- <-] He;
       by rewrite (AgainFacts.mkdir_sem_stable _ _ _ _ _ _ Hmk He)|].
    intros H He.
    pose proof (write_sem_extends _ _ _ _ _ _ _ H) as He1.
    rewrite (AgainFacts.mkdir_sem_stable _ _ _ _ _ _ Hmk
               (extends_trans _ _ _ He1 He)).
    unfold write_sem, store in *. rewrite Hsound in H.
    destruct (fs1 !! target_loc env tp) as [[|c mode]|] eqn:El.
    + injection H as <- <-. by rewrite (extends_dir _ _ _ He El).
    + injection H as <- <-.
      by destruct (extends_file _ _ _ _ _ He El) as (c' & mode' & ->).
    + injection H as <- <-.
      by destruct (extends_file _ _ _ _ _ He (lookup_insert_eq fs1 _ _))
        as (c' & mode' & ->).
Qed.

Lemma run_settled env dest_dir root_ members fs t b u :
  ready env fs → sound members →
  run_sem env dest_dir false root_ members fs = (t, b) →
  extends t u →
  run_sem env dest_dir false root_ members u = (u, b).
Proof.
  revert fs. induction members as [|m rest IH]; intros fs Hready Hsound H He;
    simpl in *.
  - by injection H as _ <-.
  - apply Forall_cons in Hsound as [Hs1 Hsound].
    destruct (step_sem env dest_dir false root_ m fs) as [fs1 b1] eqn:Hs.
    destruct (step_sem_facts _ _ _ _ _ _ _ _ Hready Hs) as (Hr1 & _).
    destruct b1.
    + destruct (run_sem_facts _ _ _ _ _ _ _ _ Hr1 H) as (_ & He1 & _).
      rewrite (step_settled _ _ _ _ _ _ _ u Hs1 Hs (extends_trans _ _ _ He1 He)).
      by apply (IH fs1).
    + injection H as <- <-.
      by rewrite (step_settled _ _ _ _ _ _ _ u Hs1 Hs He).
Qed.

(** X3. When the check rejects an entry, [safe_extract] raises the
    exception that carries the entry's own file name; the tree is the one
    the earlier entries left, and no later entry is looked at. *)
Theorem rejected_entry_stops_run (env : Env) (before : list ZipInfo)
    (member : ZipInfo) (after : list ZipInfo) (dest_dir : Path)
    (overwrite keep_root : bool) (fs fs1 : FS) :
  for_each
    (process_member env dest_dir overwrite
       (common_root keep_root (before ++ member :: after))) before fs
  = (fs1, inr tt) →
  effective_name (common_root keep_root (before ++ member :: after))
    (filename member) ≠ "" →
  is_within_directory env dest_dir
    (joinpath dest_dir
       (effective_name (common_root keep_root (before ++ member :: after))
          (filename member))) = false →
  safe_extract env (before ++ member :: after) dest_dir overwrite keep_root fs
  = (fs1, inl (ExtractionOutside (filename member))).
Proof. intros. unfold safe_extract. by apply rejected_entry_aborts. Qed.

Lemma rejected_entry_stops_run_witness :
  safe_extract env0
    ([file_entry "index.html" [x68; x69]]
     ++ file_entry "../../etc/passwd" [x61] :: [file_entry "late.txt" [x61]])
    site false true fs0
  = (<[ ["site"; "index.html"] := File [x68; x69] 420 ]> fs0,
     inl (ExtractionOutside "../../etc/passwd")).
Proof.
  apply rejected_entry_stops_run.
  - apply (bool_decide_eq_true_1 _). vm_compute. reflexivity.
  - discriminate.
  - reflexivity.
Defined.

(** X4. Whatever the archive and the options, a run removes nothing: every
    node of the tree is still there afterwards, a directory still a
    directory and a file still a file, and the tree is still well formed. *)
Theorem run_removes_nothing (env : Env) (members : list ZipInfo)
    (dest_dir : Path) (overwrite keep_root : bool) (fs : FS) :
  ready env fs →
  ready env
    (tree_after (safe_extract env members dest_dir overwrite keep_root) fs) ∧
  extends fs
    (tree_after (safe_extract env members dest_dir overwrite keep_root) fs).
Proof.
  intros Hready. unfold tree_after.
  pose proof (safe_extract_sem env members dest_dir overwrite keep_root fs
                Hready) as Hs. symmetry in Hs.
  by destruct (run_sem_facts _ _ _ _ _ _ _ _ Hready Hs) as (? & ? & _).
Qed.

Lemma run_removes_nothing_witness :
  extends fs_with_index
    (tree_after (safe_extract env0 project_archive site true false)
       fs_with_index).
Proof.
  apply (run_removes_nothing env0 project_archive site true false).
  apply (bool_decide_eq_true_1 _). vm_compute. reflexivity.
Defined.

(** X5. A node at a location that no entry of the archive is extracted to
    is left exactly as it is, bytes and mode, whatever the options. *)
Theorem untargeted_node_unchanged (env : Env) (members : list ZipInfo)
    (dest_dir : Path) (overwrite keep_root : bool) (fs : FS) (k : loc)
    (n : node) :
  ready env fs →
  (∀ m, m ∈ members →
     entry_loc env dest_dir (common_root keep_root members) m ≠ k) →
  fs !! k = Some n →
  tree_after (safe_extract env members dest_dir overwrite keep_root) fs !! k
  = Some n.
Proof.
  intros Hready Hother Hk. unfold tree_after.
  pose proof (safe_extract_sem env members dest_dir overwrite keep_root fs
                Hready) as Hs. symmetry in Hs.
  by eapply run_sem_frame.
Qed.

Lemma untargeted_node_unchanged_witness :
  tree_after (safe_extract env0 [script_entry] site true true) fs_with_index
    !! ["site"; "index.html"]
  = Some (File [x68; x69] 384).
Proof.
  apply untargeted_node_unchanged.
  - apply (bool_decide_eq_true_1 _). vm_compute. reflexivity.
  - intros m Hm. apply list_elem_of_singleton in Hm as ->.
    intros E. vm_compute in E. discriminate.
  - apply (bool_decide_eq_true_1 _). vm_compute. reflexivity.
Defined.

(** X6. After a run that ended without an exception every entry with a
    non-empty effective name has a node at its location: a directory for a
    directory entry and, when [overwrite] is on, a file for a file entry. *)
Theorem successful_run_leaves_entries (env : Env) (members : list ZipInfo)
    (dest_dir : Path) (overwrite keep_root : bool) (fs : FS) (m : ZipInfo) :
  ready env fs →
  outcome (safe_extract env members dest_dir overwrite keep_root) fs = inr tt →
  m ∈ members →
  effective_name (common_root keep_root members) (filename m) ≠ "" →
  is_Some
    (tree_after (safe_extract env members dest_dir overwrite keep_root) fs
     !! entry_loc env dest_dir (common_root keep_root members) m) ∧
  (zip_is_dir m = true →
   tree_after (safe_extract env members dest_dir overwrite keep_root) fs
   !! entry_loc env dest_dir (common_root keep_root members) m = Some Dir) ∧
  (zip_is_dir m = false → overwrite = true →
   ∃ c mode,
     tree_after (safe_extract env members dest_dir overwrite keep_root) fs
     !! entry_loc env dest_dir (common_root keep_root members) m
     = Some (File c mode)).
Proof.
  intros Hready Hok Hm Hname.
  exact (run_nodes env members dest_dir overwrite keep_root fs m Hready Hok Hm
           Hname).
Qed.

Lemma successful_run_leaves_entries_witness :
  tree_after (safe_extract env0 project_archive site false false) fs0
  !! entry_loc env0 site (common_root false project_archive)
       (dir_entry "project/css/") = Some Dir.
Proof.
  refine (proj1 (proj2 (successful_run_leaves_entries env0 project_archive site
                          false false fs0 (dir_entry "project/css/") _ _ _ _))
            _).
  - apply (bool_decide_eq_true_1 _). vm_compute. reflexivity.
  - apply (bool_decide_eq_true_1 _). vm_compute. reflexivity.
  - unfold project_archive. set_solver.
  - intros E. vm_compute in E. discriminate.
  - reflexivity.
Defined.

(** X7. Extracting an archive whose entries are all read to their end
    with [overwrite=False] into the tree that an extraction of the same
    archive with [overwrite=False] has left changes nothing and ends as the
    first extraction did. *)
Theorem extract_again_without_overwrite (env : Env) (members : list ZipInfo)
    (dest_dir : Path) (keep_root : bool) (fs : FS) :
  ready env fs →
  sound members →
  tree_after (safe_extract env members dest_dir false keep_root)
    (tree_after (safe_extract env members dest_dir false keep_root) fs)
  = tree_after (safe_extract env members dest_dir false keep_root) fs ∧
  ok (outcome (safe_extract env members dest_dir false keep_root)
        (tree_after (safe_extract env members dest_dir false keep_root) fs))
  = ok (outcome (safe_extract env members dest_dir false keep_root) fs).
Proof.
  intros Hready Hsound. unfold tree_after, outcome.
  pose proof (safe_extract_sem env members dest_dir false keep_root fs Hready)
    as H1. symmetry in H1.
  destruct (run_sem_facts _ _ _ _ _ _ _ _ Hready H1) as (Hready1 & _).
  pose proof (run_settled _ _ _ _ _ _ _ _ Hready Hsound H1 (extends_refl _))
    as H2.
  rewrite <- (safe_extract_sem env members dest_dir false keep_root _ Hready1)
    in H2.
  by injection H2 as -> ->.
Qed.

Lemma extract_again_without_overwrite_witness :
  tree_after (safe_extract env0 project_archive site false false)
    (tree_after (safe_extract env0 project_archive site false false) fs0)
  = tree_after (safe_extract env0 project_archive site false false) fs0.
Proof.
  apply (extract_again_without_overwrite env0 project_archive site false fs0).
  - apply (bool_decide_eq_true_1 _). vm_compute. reflexivity.
  - apply (bool_decide_eq_true_1 _). vm_compute. reflexivity.
Defined.

(** An entry with a wrong check sum breaks this: the first extraction
    leaves what was read of it and raises, the second one finds the file,
    skips the entry and goes on to the entries behind it. *)
Example corrupt_entry_breaks_repetition :
  safe_extract env0 [corrupt_entry; file_entry "late.txt" [x62]] site false
    true fs0
  = (<[ ["site"; "index.html"] := File [x61] 420 ]> fs0, inl ReadError) ∧
  safe_extract env0 [corrupt_entry; file_entry "late.txt" [x62]] site false
    true (<[ ["site"; "index.html"] := File [x61] 420 ]> fs0)
  = (<[ ["site"; "late.txt"] := File [x62] 420 ]>
       (<[ ["site"; "index.html"] := File [x61] 420 ]> fs0),
     inr tt).
Proof. by_compute. Qed.

(** X8. Every file in the tree after a run either was there before, with
    the same bytes and the same mode, or holds the bytes that reading a
    file entry of the archive that is extracted to its location delivered:
    all of the entry when it was read to its end, what came before the
    error otherwise. *)
Theorem files_after_run (env : Env) (members : list ZipInfo) (dest_dir : Path)
    (overwrite keep_root : bool) (fs : FS) (l : loc) (c : list byte)
    (mode : Z) :
  ready env fs →
  tree_after (safe_extract env members dest_dir overwrite keep_root) fs !! l
  = Some (File c mode) →
  fs !! l = Some (File c mode) ∨
  ∃ m, m ∈ members ∧ zip_is_dir m = false ∧
       entry_loc env dest_dir (common_root keep_root members) m = l ∧
       c = data m.
Proof.
  intros Hready Hl. unfold tree_after in Hl.
  pose proof (safe_extract_sem env members dest_dir overwrite keep_root fs
                Hready) as Hs. symmetry in Hs.
  by eapply run_sem_files.
Qed.

Lemma files_after_run_witness :
  fs0 !! ["site"; "css"; "a.css"] = Some (File [x61] 420) ∨
  ∃ m, m ∈ project_archive ∧ zip_is_dir m = false ∧
       entry_loc env0 site (common_root false project_archive) m
       = ["site"; "css"; "a.css"] ∧
       [x61] = data m.
Proof.
  apply (files_after_run env0 project_archive site false false fs0).
  - apply (bool_decide_eq_true_1 _). vm_compute. reflexivity.
  - apply (bool_decide_eq_true_1 _). vm_compute. reflexivity.
Defined.

(** The nine permission bits of an entry. *)
Lemma unix_attr_bounds (member : ZipInfo) : 0 ≤ unix_attr member ≤ 511.
Proof.
  unfold unix_attr. change 511 with (Z.ones 9).
  rewrite Z.land_ones by lia.
  pose proof (Z.mod_pos_bound (Z.shiftr (external_attr member) 16) (2 ^ 9)).
  change (Z.ones 9) with (2 ^ 9 - 1). lia.
Qed.

(** X9. Lines 70-75 never raise, and they leave the tree as it is or
    change the mode of one file and nothing else: the file the target
    path names keeps its bytes and gets the permission bits of the entry,
    which lie in [0o001 .. 0o777], so no type, setuid, setgid or sticky
    bit of [external_attr] reaches [chmod]. *)
Theorem apply_mode_is_harmless (env : Env) (target_path : Path)
    (member : ZipInfo) (fs : FS) :
  (apply_mode env target_path member fs).2 = inr tt ∧
  ((apply_mode env target_path member fs).1 = fs ∨
   ∃ k c old,
     namei env fs target_path = inr k ∧ fs !! k = Some (File c old) ∧
     (apply_mode env target_path member fs).1
     = <[k := File c (unix_attr member)]> fs ∧
     1 ≤ unix_attr member ≤ 511).
Proof.
  pose proof (unix_attr_bounds member) as Hb.
  unfold apply_mode, try_pass.
  case_bool_decide as Hz; [split; [done|by left]|].
  unfold chmod, sys, os_chmod.
  destruct (namei env fs target_path) as [e|l] eqn:Hn; [split; [done|by left]|].
  destruct (fs !! l) as [n0|] eqn:El; [|split; [done|by left]].
  destruct (chmod_permitted env l (unix_attr member));
    [|split; [done|by left]].
  destruct n0 as [|c old]; [split; [done|by left]|].
  split; [done|]. right. exists l, c, old. simpl.
  split; [done|]. split; [done|]. split; [done|lia].
Qed.

(** The permission bits come through as they are. *)
Example script_mode_applied :
  apply_mode env0 (joinpath site "run.sh") script_entry
    (<[ ["site"; "run.sh"] := File [x61] 420 ]> fs0)
  = (<[ ["site"; "run.sh"] := File [x61] 493 ]> fs0, inr tt).
Proof. by_compute. Qed.

End TreeFacts.

(** ** The routes and the start of the process *)

Module HttpFacts.
Import PyStr PyStrFacts PurePath Fs Exn PathIO RenderApp Serve.
Import Words Canon Replay MoreWords Sample.
Import UploadFacts FsFacts StepFacts RunFacts OverwriteFacts ParentFacts.
Import NodeFacts TreeFacts.
Local Open Scope list_scope.

Lemma SITE_DIR_eq env : SITE_DIR env = MkPath Slash (site_loc env).
Proof. reflexivity. Qed.

Lemma lookup_dir_extends fs u cur ps d :
  lookup_dir fs cur ps = inr d → extends fs u → lookup_dir u cur ps = inr d.
Proof.
  intros H He. revert cur H.
  induction ps as [|x ps IH]; intros cur H; simpl in *; [done|].
  destruct (long_name x); [done|].
  destruct (fs !! enter cur x) as [[|]|] eqn:E; try done.
  rewrite (extends_dir _ _ _ He E). by apply IH.
Qed.

Lemma dir_on_the_way fs cur x l :
  wf fs → fs !! (cur ++ x :: l) = Some Dir → fs !! (cur ++ [x]) = Some Dir.
Proof.
  intros Hwf Hd. destruct l as [|y l]; [done|].
  apply (wf_ancestors fs (cur ++ x :: y :: l) Dir); [done|done| |].
  - exists (y :: l). by rewrite <- app_assoc.
  - intros E. apply (f_equal length) in E.
    rewrite !length_app in E. simpl in E. lia.
Qed.

(** In a well-formed tree a directory is found by walking its names,
    unless one of them is too long. *)
Lemma lookup_dir_canonical fs cur l :
  wf fs → ".." ∉ l → fs !! (cur ++ l) = Some Dir →
  lookup_dir fs cur l
  = if existsb long_name l then inl ENAMETOOLONG else inr (cur ++ l).
Proof.
  intros Hwf. revert cur. induction l as [|x l IH]; intros cur Hl Hd.
  - by rewrite app_nil_r.
  - apply not_elem_of_cons in Hl as [Hx Hl]. simpl.
    destruct (long_name x); [done|]. simpl.
    destruct (enter_cases cur x) as [[? _]|[_ ->]]; [done|].
    rewrite (dir_on_the_way fs cur x l Hwf Hd).
    rewrite (IH (cur ++ [x])); [|done|by rewrite <- app_assoc].
    by rewrite <- app_assoc.
Qed.

(** After a successful step the system takes the path of a file entry,
    and the way to its target is there. *)
Lemma step_sem_reachable env dest_dir overwrite root_ member fs fs' :
  ready env fs →
  effective_name root_ (filename member) ≠ "" →
  zip_is_dir member = false →
  step_sem env dest_dir overwrite root_ member fs = (fs', true) →
  path_check (entry_path dest_dir root_ member) = None ∧
  long_last (entry_path dest_dir root_ member) = false ∧
  ∃ d,
    lookup_dir fs' (start env (entry_path dest_dir root_ member))
      (removelast (parts (entry_path dest_dir root_ member)))
    = inr d.
Proof.
  intros Hready Hname Hfile H. unfold entry_path.
  destruct (step_sem_ok _ _ _ _ _ _ _ Hfile Hname H)
    as (fs1 & Hin & Hmk & Hlp & Hll & Hw).
  set (tp := joinpath dest_dir (effective_name root_ (filename member))) in *.
  split; [apply path_check_short; [by eapply within_no_nul|done]|].
  split; [done|].
  apply mkdir_sem_inv in Hmk as [_ Hmk].
  pose proof (mkdir_walk_made _ _ _ _ (proj1 Hready)
                (ready_start _ _ (parent tp) Hready) Hmk) as L.
  eexists. eapply lookup_dir_extends; [exact L|].
  by eapply write_sem_extends.
Qed.

Lemma run_sem_reachable env dest_dir overwrite root_ members fs fs' m :
  ready env fs →
  run_sem env dest_dir overwrite root_ members fs = (fs', true) →
  m ∈ members →
  effective_name root_ (filename m) ≠ "" →
  zip_is_dir m = false →
  path_check (entry_path dest_dir root_ m) = None ∧
  long_last (entry_path dest_dir root_ m) = false ∧
  ∃ d,
    lookup_dir fs' (start env (entry_path dest_dir root_ m))
      (removelast (parts (entry_path dest_dir root_ m)))
    = inr d.
Proof.
  revert fs. induction members as [|m0 rest IH];
    intros fs Hready H Hm Hname Hfile; [by apply elem_of_nil in Hm|].
  simpl in H.
  destruct (step_sem env dest_dir overwrite root_ m0 fs) as [fs1 [|]] eqn:Hs;
    [|done].
  destruct (step_sem_facts _ _ _ _ _ _ _ _ Hready Hs) as (Hr1 & _).
  apply elem_of_cons in Hm as [->|Hm]; [|by apply (IH fs1)].
  destruct (step_sem_reachable _ _ _ _ _ _ _ Hready Hname Hfile Hs)
    as (Hc & Hll & d & L).
  destruct (run_sem_facts _ _ _ _ _ _ _ _ Hr1 H) as (_ & Hext & _).
  split; [done|]. split; [done|]. exists d. by eapply lookup_dir_extends.
Qed.

(** The file of an entry that a successful run has extracted is found by
    [stat]. *)
Lemma run_stat env members dest_dir overwrite keep_root fs m :
  ready env fs →
  outcome (safe_extract env members dest_dir overwrite keep_root) fs = inr tt →
  m ∈ members →
  zip_is_dir m = false →
  effective_name (common_root keep_root members) (filename m) ≠ "" →
  ∃ n,
    tree_after (safe_extract env members dest_dir overwrite keep_root) fs
    !! entry_loc env dest_dir (common_root keep_root members) m = Some n ∧
    os_stat env
      (tree_after (safe_extract env members dest_dir overwrite keep_root) fs)
      (entry_path dest_dir (common_root keep_root members) m)
    = inr n ∧
    (overwrite = true → ∃ c mode, n = File c mode).
Proof.
  intros Hready Hok Hm Hfile Hname.
  destruct (run_nodes env members dest_dir overwrite keep_root fs m Hready Hok
              Hm Hname) as ([n Hn] & _ & Hf).
  unfold tree_after, outcome in *.
  pose proof (safe_extract_sem env members dest_dir overwrite keep_root
                fs Hready) as Hs.
  rewrite Hok in Hs. simpl in Hs. symmetry in Hs.
  destruct (run_sem_reachable _ _ _ _ _ _ _ _ Hready Hs Hm Hname Hfile)
    as (Hc & Hll & d & L).
  exists n. split; [done|]. split.
  - unfold os_stat. rewrite (namei_resolved _ _ _ _ Hc Hll L).
    unfold entry_loc, entry_path in *. by rewrite Hn.
  - intros Ho. destruct (Hf Hfile Ho) as (c & mode & Hn').
    rewrite Hn in Hn'. injection Hn' as ->. eauto.
Qed.

(** Running the same archive again, with either value of [overwrite]. *)
Lemma run_again env members dest_dir overwrite keep_root fs :
  ready env fs →
  sound members →
  (overwrite = true →
   stays_writable env dest_dir (common_root keep_root members) members) →
  safe_extract env members dest_dir overwrite keep_root
    (tree_after (safe_extract env members dest_dir overwrite keep_root) fs)
  = (tree_after (safe_extract env members dest_dir overwrite keep_root) fs,
     (safe_extract env members dest_dir overwrite keep_root
        (tree_after (safe_extract env members dest_dir overwrite keep_root) fs)).2)
  ∧
  ok (safe_extract env members dest_dir overwrite keep_root
        (tree_after (safe_extract env members dest_dir overwrite keep_root) fs)).2
  = ok (safe_extract env members dest_dir overwrite keep_root fs).2.
Proof.
  intros Hready Hsound Hw. unfold tree_after.
  pose proof (safe_extract_sem env members dest_dir overwrite keep_root fs
                Hready) as H1. symmetry in H1.
  destruct (run_sem_facts _ _ _ _ _ _ _ _ Hready H1) as (Hready1 & _).
  assert (H2 : run_sem env dest_dir overwrite (common_root keep_root members)
                 members
                 (safe_extract env members dest_dir overwrite keep_root fs).1
               = ((safe_extract env members dest_dir overwrite keep_root fs).1,
                  ok (safe_extract env members dest_dir overwrite keep_root
                        fs).2)).
  { destruct overwrite.
    - by apply (AgainFacts.run_twice _ _ _ _ fs); [| |apply Hw|].
    - by apply (run_settled _ _ _ _ fs _ _ _ Hready Hsound H1), extends_refl. }
  rewrite <- (safe_extract_sem env members dest_dir overwrite keep_root _
                Hready1) in H2.
  injection H2 as Ht Hb. split; [|done].
  destruct (safe_extract env members dest_dir overwrite keep_root
              (safe_extract env members dest_dir overwrite keep_root fs).1)
    as [t r]. simpl in *. by subst.
Qed.

Lemma fold_enter_canonical (cur l : loc) :
  ".." ∉ l → fold_left enter l cur = cur ++ l.
Proof.
  revert cur. induction l as [|x l IH]; intros cur Hl; simpl.
  - by rewrite app_nil_r.
  - apply not_elem_of_cons in Hl as [Hx Hl].
    destruct (enter_cases cur x) as [[? _]|[_ ->]]; [done|].
    rewrite IH by done. by rewrite <- app_assoc.
Qed.

(** [mkdir] of a path whose parent is there. *)
Lemma mkdir_parents_last env r ps x fs d :
  path_check (MkPath r (ps ++ [x])) = None →
  lookup_dir fs (start env (MkPath r [])) ps = inr d →
  long_name x = false →
  mkdir_parents env (MkPath r (ps ++ [x])) fs
  = match fs !! enter d x with
    | None => (<[enter d x := Dir]> fs, inr tt)
    | Some Dir => (fs, inr tt)
    | Some (File _ _) => (fs, inl (OSError EEXIST))
    end.
Proof.
  intros Hc L Hx. unfold mkdir_parents. cbn [root parts].
  rewrite rev_app_distr. cbn [rev app mkdir_parents_rev].
  rewrite rev_involutive, (os_mkdir_snoc _ _ _ _ _ _ Hc L Hx).
  unfold forgive, is_dir, stat_test.
  rewrite (os_stat_snoc _ _ _ _ _ _ Hc L Hx).
  by destruct (fs !! enter d x) as [[|]|].
Qed.

(** [mkdir] of a path the system does not take. *)
Lemma mkdir_parents_refused env p fs e :
  namei env fs p = inl e → e = NulByte ∨ e = ENAMETOOLONG →
  mkdir_parents env p fs = (fs, inl (raised e)).
Proof.
  intros Hn He. unfold mkdir_parents.
  assert (Hmk : os_mkdir env fs (MkPath (root p) (rev (rev (parts p)))) = inl e).
  { rewrite rev_involutive. unfold os_mkdir. destruct p. cbn [root parts].
    by rewrite Hn. }
  assert (Hst : os_stat env fs (MkPath (root p) (rev (rev (parts p)))) = inl e).
  { rewrite rev_involutive. unfold os_stat. destruct p. cbn [root parts].
    by rewrite Hn. }
  destruct (rev (parts p)) as [|x rp]; cbn [mkdir_parents_rev];
    rewrite Hmk; destruct He as [-> | ->]; try done;
    unfold forgive, is_dir, stat_test; by rewrite Hst.
Qed.

Lemma path_error_site env :
  path_error (SITE_DIR env) = None →
  path_check (MkPath Slash (cwd env ++ ["site"])) = None ∧
  existsb long_name (cwd env) = false.
Proof.
  rewrite SITE_DIR_eq. unfold path_error, site_loc. cbn [parts].
  destruct (path_check _); [done|]. rewrite existsb_app.
  destruct (existsb long_name (cwd env)); [done|]. done.
Qed.

(** X10. Line 28, on a well-formed tree.  When the system does not take
    the path of [SITE_DIR] (a NUL byte, a component over [NAME_MAX] or
    [PATH_MAX] bytes and more in all) the call raises and nothing changes.
    Otherwise: when nothing is at [cwd/site] the directory is made and
    nothing else changes; when a directory is there nothing changes; when
    a file is there the call raises [FileExistsError] and nothing changes.
    Whenever it returns, [SITE_DIR] is a directory and the tree is still
    well formed. *)
Theorem startup_makes_site (env : Env) (fs : FS) :
  ready env fs → canonical env →
  match path_error (SITE_DIR env) with
  | Some e => startup env fs = (fs, inl (raised e))
  | None =>
      match fs !! site_loc env with
      | None => startup env fs = (<[site_loc env := Dir]> fs, inr tt)
      | Some Dir => startup env fs = (fs, inr tt)
      | Some (File _ _) => startup env fs = (fs, inl (OSError EEXIST))
      end
  end ∧
  (ok (startup env fs).2 = true →
   is_dir env (startup env fs).1 (SITE_DIR env) = inr true ∧
   ready env (startup env fs).1).
Proof.
  intros [Hwf Hcwd] Hc.
  pose proof (lookup_dir_canonical fs [] (cwd env) Hwf Hc Hcwd) as L.
  assert (Hcan : ".." ∉ cwd env ++ ["site"]).
  { intros [?|?%list_elem_of_singleton]%elem_of_app; done. }
  destruct (path_error (SITE_DIR env)) as [e|] eqn:Herr.
  - assert (Hrun : startup env fs = (fs, inl (raised e))).
    { unfold startup. rewrite SITE_DIR_eq in *. unfold path_error, site_loc in *.
      cbn [parts] in Herr.
      destruct (path_check (MkPath Slash (cwd env ++ ["site"]))) as [e'|] eqn:Hpc.
      - injection Herr as ->.
        apply mkdir_parents_refused; [by apply namei_refused|].
        by apply (path_check_errno _ _ Hpc).
      - rewrite existsb_app in Herr.
        destruct (existsb long_name (cwd env)) eqn:Hlong; [|done].
        injection Herr as <-.
        apply mkdir_parents_refused; [|by right].
        rewrite namei_snoc by done.
        change (start env (MkPath Slash [])) with (@nil string).
        by rewrite L. }
    split; [done|]. rewrite Hrun. by destruct e.
  - destruct (path_error_site env Herr) as [Hpc Hshort].
    rewrite Hshort in L.
    assert (Hrun : startup env fs
                   = match fs !! site_loc env with
                     | None => (<[site_loc env := Dir]> fs, inr tt)
                     | Some Dir => (fs, inr tt)
                     | Some (File _ _) => (fs, inl (OSError EEXIST))
                     end).
    { unfold startup. rewrite SITE_DIR_eq. unfold site_loc.
      by rewrite (mkdir_parents_last env Slash (cwd env) "site" fs _ Hpc L). }
    split; [by destruct (fs !! site_loc env) as [[|]|]|].
    assert (Hshort' : existsb long_name (cwd env ++ ["site"]) = false).
    { rewrite existsb_app, Hshort. done. }
    assert (Hfound : ∀ t, wf t → t !! (cwd env ++ ["site"]) = Some Dir →
              is_dir env t (MkPath Slash (cwd env ++ ["site"])) = inr true).
    { intros t Hwft Hd.
      apply (lookup_dir_is_dir env t Slash (cwd env ++ ["site"])
               (cwd env ++ ["site"])); [done|apply (wf_root _ Hwft)|].
      pose proof (lookup_dir_canonical t [] (cwd env ++ ["site"]) Hwft Hcan Hd)
        as Lt.
      by rewrite Hshort' in Lt. }
    rewrite Hrun, SITE_DIR_eq. unfold site_loc in *.
    destruct (fs !! (cwd env ++ ["site"])) as [[|c mode]|] eqn:E; simpl;
      [intros _|done|intros _].
    + split; [by apply Hfound|done].
    + assert (Hwf' : wf (<[cwd env ++ ["site"] := Dir]> fs))
        by by apply wf_insert_child.
      split.
      * apply Hfound; [done|by rewrite lookup_insert_eq].
      * split; [done|]. rewrite lookup_insert_ne; [done|apply snoc_neq].
Qed.

Lemma startup_makes_site_witness :
  startup env0 (<[ [] := Dir ]> ∅) = (fs0, inr tt).
Proof.
  refine (proj1 (startup_makes_site env0 (<[ [] := Dir ]> ∅) _ _)).
  - apply (bool_decide_eq_true_1 _). vm_compute. reflexivity.
  - apply (bool_decide_eq_true_1 _). vm_compute. reflexivity.
Defined.

(** X11. After an extraction into [SITE_DIR] that ended without an
    exception, a request for the effective name of a file entry is answered
    with [send_from_directory(SITE_DIR, name)], provided a file is at the
    entry's location, which is so whenever [overwrite] is on. *)
Theorem extracted_file_is_served (env : Env) (members : list ZipInfo)
    (overwrite keep_root : bool) (fs : FS) (m : ZipInfo) :
  ready env fs →
  outcome (safe_extract env members (SITE_DIR env) overwrite keep_root) fs
    = inr tt →
  m ∈ members →
  zip_is_dir m = false →
  effective_name (common_root keep_root members) (filename m) ≠ "" →
  overwrite = true ∨
  tree_after (safe_extract env members (SITE_DIR env) overwrite keep_root) fs
    !! entry_loc env (SITE_DIR env) (common_root keep_root members) m
  ≠ Some Dir →
  serve_site env
    (tree_after (safe_extract env members (SITE_DIR env) overwrite keep_root) fs)
    (effective_name (common_root keep_root members) (filename m))
  = SendFromDirectory (to_str (SITE_DIR env))
      (effective_name (common_root keep_root members) (filename m)).
Proof.
  intros Hready Hok Hm Hfile Hname Hwritten.
  destruct (run_stat env members (SITE_DIR env) overwrite keep_root fs m Hready
              Hok Hm Hfile Hname) as (n & Hn & Hstat & Hf).
  assert (Hisfile : ∃ c mode, n = File c mode).
  { destruct Hwritten as [->|Hnd]; [by apply Hf|].
    destruct n as [|c mode]; [by rewrite Hn in Hnd|eauto]. }
  destruct Hisfile as (c & mode & ->).
  unfold serve_site, exists_, is_file, stat_test. unfold entry_path in Hstat.
  by rewrite Hstat.
Qed.

Lemma extracted_file_is_served_witness :
  serve_site env0
    (tree_after (safe_extract env0 project_archive (SITE_DIR env0) true false)
       fs0)
    (effective_name (common_root false project_archive)
       (filename (file_entry "project/css/a.css" [x61])))
  = SendFromDirectory (to_str (SITE_DIR env0))
      (effective_name (common_root false project_archive)
         (filename (file_entry "project/css/a.css" [x61]))).
Proof.
  apply (extracted_file_is_served env0 project_archive true false fs0
           (file_entry "project/css/a.css" [x61])).
  - apply (bool_decide_eq_true_1 _). vm_compute. reflexivity.
  - apply (bool_decide_eq_true_1 _). vm_compute. reflexivity.
  - unfold project_archive. set_solver.
  - reflexivity.
  - intros E. vm_compute in E. discriminate.
  - by left.
Defined.

(** [stat] raises for a name or a path that is too long, and for nothing
    else. *)
Lemma exists_raises env fs p e :
  exists_ env fs p = inl e →
  e = ENAMETOOLONG ∧ existsb has_nul (parts p) = false ∧
  short_names p = false.
Proof.
  unfold exists_, stat_test, os_stat, namei, path_check, short_names.
  destruct (existsb has_nul (parts p)); [done|].
  destruct (long_path p) eqn:Hlp; [by intros [= <-]|]. simpl.
  destruct (lookup_dir fs (start env p) (removelast (parts p))) as [e'|d] eqn:L.
  - destruct (lookup_dir_errno _ _ _ _ L) as [-> | [-> | ->]]; try done.
    intros [= <-]. split; [done|]. split; [done|].
    apply negb_false_iff.
    destruct (existsb long_name (parts p)) eqn:Hn; [done|].
    apply existsb_removelast in Hn.
    assert (Hno : ∀ cur, lookup_dir fs cur (removelast (parts p))
                         ≠ inl ENAMETOOLONG).
    { clear L. induction (removelast (parts p)) as [|x ps IH]; intros cur;
        simpl in *; [done|].
      apply orb_false_elim in Hn as [-> Hn].
      destruct (fs !! enter cur x) as [[|]|]; try done. by apply IH. }
    by destruct (Hno _ L).
  - destruct (last (parts p)) as [x|] eqn:Hl.
    + destruct (long_name x) eqn:Hx.
      * intros [= <-]. split; [done|]. split; [done|].
        apply negb_false_iff.
        destruct (existsb long_name (parts p)) eqn:Hn; [done|].
        by rewrite (existsb_last _ _ _ Hn Hl) in Hx.
      * by destruct (fs !! enter d x).
    + by destruct (fs !! d).
Qed.

(** X12. After an extraction into [SITE_DIR] that ended without an
    exception and had a file entry with the effective name [index.html],
    no request is answered with [abort(404)].  A request whose path the
    system takes is answered with the file at that path when one is there
    and with [index.html] otherwise; the only other answer is the
    exception of [stat] for a component over [NAME_MAX] bytes or a path of
    [PATH_MAX] bytes or more, which leaves the view. *)
Theorem index_ends_not_found (env : Env) (members : list ZipInfo)
    (overwrite keep_root : bool) (fs : FS) (m : ZipInfo) (path : string) :
  ready env fs →
  outcome (safe_extract env members (SITE_DIR env) overwrite keep_root) fs
    = inr tt →
  m ∈ members →
  zip_is_dir m = false →
  effective_name (common_root keep_root members) (filename m) = "index.html" →
  serve_site env
    (tree_after (safe_extract env members (SITE_DIR env) overwrite keep_root) fs)
    path
  ≠ Abort 404 ∧
  (short_names (joinpath (SITE_DIR env) path) = true →
   serve_site env
     (tree_after (safe_extract env members (SITE_DIR env) overwrite keep_root)
        fs)
     path
   = match
       os_stat env
         (tree_after
            (safe_extract env members (SITE_DIR env) overwrite keep_root) fs)
         (joinpath (SITE_DIR env) path)
     with
     | inr (File _ _) => SendFromDirectory (to_str (SITE_DIR env)) path
     | _ => SendFromDirectory (to_str (SITE_DIR env)) "index.html"
     end) ∧
  (∀ e,
     serve_site env
       (tree_after (safe_extract env members (SITE_DIR env) overwrite keep_root)
          fs)
       path
     = Uncaught e →
     e = OSError ENAMETOOLONG ∧
     short_names (joinpath (SITE_DIR env) path) = false).
Proof.
  intros Hready Hok Hm Hfile Hname.
  destruct (run_stat env members (SITE_DIR env) overwrite keep_root fs m Hready
              Hok Hm Hfile) as (n & _ & Hstat & _).
  { by rewrite Hname. }
  unfold entry_path in Hstat. rewrite Hname in Hstat.
  set (t := tree_after
              (safe_extract env members (SITE_DIR env) overwrite keep_root) fs)
    in *.
  assert (Hindex : exists_ env t (joinpath (SITE_DIR env) "index.html")
                   = inr true).
  { unfold exists_, stat_test. by rewrite Hstat. }
  assert (Hserve : serve_site env t path
                   = match exists_ env t (joinpath (SITE_DIR env) path) with
                     | inl e => Uncaught (raised e)
                     | inr _ =>
                         match os_stat env t (joinpath (SITE_DIR env) path) with
                         | inr (File _ _) =>
                             SendFromDirectory (to_str (SITE_DIR env)) path
                         | _ =>
                             SendFromDirectory (to_str (SITE_DIR env))
                               "index.html"
                         end
                     end).
  { unfold serve_site. rewrite Hindex. unfold exists_, is_file, stat_test.
    destruct (os_stat env t (joinpath (SITE_DIR env) path)) as [e|[|c mode]];
      [by destruct (ignored e)|done|done]. }
  rewrite Hserve.
  destruct (exists_ env t (joinpath (SITE_DIR env) path)) as [e|b] eqn:Hex.
  - destruct (exists_raises _ _ _ _ Hex) as (-> & _ & Hshort).
    split; [done|]. split; [by rewrite Hshort|].
    by intros e' [= <-].
  - split; [|split].
    + by destruct (os_stat env t (joinpath (SITE_DIR env) path)) as [?|[|]].
    + done.
    + intros e.
      by destruct (os_stat env t (joinpath (SITE_DIR env) path)) as [?|[|]].
Qed.

Lemma index_ends_not_found_witness :
  serve_site env0
    (tree_after (safe_extract env0 project_archive (SITE_DIR env0) false false)
       fs0)
    "no/such/page"
  = SendFromDirectory "/site" "index.html".
Proof.
  destruct (index_ends_not_found env0 project_archive false false fs0
              (file_entry "project/index.html" [x68; x69]) "no/such/page")
    as (_ & H & _).
  - apply (bool_decide_eq_true_1 _). vm_compute. reflexivity.
  - apply (bool_decide_eq_true_1 _). vm_compute. reflexivity.
  - unfold project_archive. set_solver.
  - reflexivity.
  - apply (bool_decide_eq_true_1 _). vm_compute. reflexivity.
  - rewrite H; [|reflexivity].
    apply (bool_decide_eq_true_1 _). vm_compute. reflexivity.
Defined.

(** A request with a component of 256 bytes is not answered at all. *)
Example long_request_raises :
  serve_site env0
    (tree_after (safe_extract env0 project_archive (SITE_DIR env0) false false)
       fs0)
    long_component
  = Uncaught (OSError ENAMETOOLONG).
Proof. by_compute. Qed.

(** X13. [upload_zip] answers 200 or 400 and nothing else; 200 exactly when
    the field [zip] is there, its file name is not empty, the upload is an
    archive and its extraction into [SITE_DIR], with the options of the
    query string, raised nothing.  A request turned away before the
    extraction leaves the tree as it is, and in every case no node of the
    tree is removed or changes its kind. *)
Theorem upload_zip_answers (env : Env) (req : Request) (fs : FS) :
  ready env fs →
  ((upload_zip env req fs).2 = 200 ∨ (upload_zip env req fs).2 = 400) ∧
  ((upload_zip env req fs).2 = 200 ↔
   ∃ file members,
     files_get (files req) "zip" = Some file ∧ upload_name file ≠ "" ∧
     archive file = Some members ∧
     outcome (safe_extract env members (SITE_DIR env) (overwrite_option req)
                (keep_root_option req)) fs = inr tt) ∧
  (files_get (files req) "zip" = None ∨
   (∃ file, files_get (files req) "zip" = Some file ∧
            (upload_name file = "" ∨ archive file = None)) →
   upload_zip env req fs = (fs, 400)) ∧
  ready env (upload_zip env req fs).1 ∧
  extends fs (upload_zip env req fs).1.
Proof.
  intros Hready. unfold upload_zip, outcome.
  destruct (files_get (files req) "zip") as [file|] eqn:Hfile.
  2:{ split; [by right|]. split; [|split; [done|]].
      - split; [done|]. by intros (? & ? & [=] & _).
      - split; [done|apply extends_refl]. }
  destruct (String.eqb_spec (upload_name file) "") as [Hn|Hn].
  { split; [by right|]. split; [|split; [done|]].
    - split; [done|]. intros (? & ? & [= <-] & ? & _). done.
    - split; [done|apply extends_refl]. }
  destruct (archive file) as [members|] eqn:Harch.
  2:{ split; [by right|]. split; [|split; [done|]].
      - split; [done|]. intros (? & ? & [= <-] & _ & ? & _). congruence.
      - split; [done|apply extends_refl]. }
  pose proof (safe_extract_sem env members (SITE_DIR env) (overwrite_option req)
                (keep_root_option req) fs Hready) as Hs. symmetry in Hs.
  destruct (run_sem_facts _ _ _ _ _ _ _ _ Hready Hs) as (Hr & He & _).
  destruct (safe_extract env members (SITE_DIR env) (overwrite_option req)
              (keep_root_option req) fs) as [fs' [e|[]]] eqn:Hrun; simpl in *.
  - split; [by right|]. split; [|split; [|done]].
    + split; [done|].
      intros (? & ? & [= <-] & _ & Ha & Ho). rewrite Harch in Ha.
      injection Ha as <-. by rewrite Hrun in Ho.
    + intros [?|(? & [= <-] & [?|?])]; congruence.
  - split; [by left|]. split; [|split; [|done]].
    + split; [|done]. intros _. exists file, members. by rewrite Hrun.
    + intros [?|(? & [= <-] & [?|?])]; congruence.
Qed.

Lemma upload_zip_answers_witness :
  (upload_zip env0
     (MkRequest [("zip", MkUpload "site.zip" (Some project_archive))] [])
     fs0).2 = 200.
Proof.
  destruct (upload_zip_answers env0
              (MkRequest [("zip", MkUpload "site.zip" (Some project_archive))]
                 [])
              fs0) as (_ & H & _).
  - apply (bool_decide_eq_true_1 _). vm_compute. reflexivity.
  - apply H. exists (MkUpload "site.zip" (Some project_archive)), project_archive.
    split; [reflexivity|]. split; [discriminate|]. split; [reflexivity|].
    apply (bool_decide_eq_true_1 _). vm_compute. reflexivity.
Defined.

(** X14. An upload whose query string gives [overwrite] no value that
    spells [true] leaves every file and directory of the tree exactly as it
    is, whatever the archive holds. *)
Theorem upload_without_overwrite_keeps (env : Env) (req : Request) (fs : FS) :
  ready env fs →
  (∀ v, query_value (args req) "overwrite" = Some v → ¬ spells_true v) →
  fs ⊆ (upload_zip env req fs).1.
Proof.
  intros Hready Hno.
  assert (Ho : overwrite_option req = false).
  { destruct (overwrite_option req) eqn:E; [|done].
    unfold overwrite_option in E. apply option_true_iff in E as (v & Hv & Hs).
    by destruct (Hno v Hv). }
  unfold upload_zip. rewrite Ho.
  destruct (files_get (files req) "zip") as [file|]; [|done].
  destruct (String.eqb (upload_name file) ""); [done|].
  destruct (archive file) as [members|]; [|done].
  destruct (no_overwrite_keeps env members (SITE_DIR env) (keep_root_option req)
              fs Hready) as [Hkeep _].
  unfold tree_after in Hkeep.
  by destruct (safe_extract env members (SITE_DIR env) false
                 (keep_root_option req) fs) as [fs' [e|[]]].
Qed.

Lemma upload_without_overwrite_keeps_witness :
  fs_with_index
  ⊆ (upload_zip env0
       (MkRequest
          [("zip", MkUpload "site.zip" (Some [file_entry "index.html" [x61]]))]
          [("overwrite", "yes")])
       fs_with_index).1.
Proof.
  apply upload_without_overwrite_keeps.
  - apply (bool_decide_eq_true_1 _). vm_compute. reflexivity.
  - intros v [= <-] (a & b & c & d & [=] & _).
Defined.

(** X15. Sending the same request again changes nothing, for an archive
    whose entries are all read to their end and, when [overwrite] is on,
    whose files stay writable for the process: the second call leaves the
    tree the first one left and answers as the first did. *)
Theorem upload_again (env : Env) (req : Request) (fs : FS) :
  ready env fs →
  repeatable env req →
  upload_zip env req (upload_zip env req fs).1 = upload_zip env req fs.
Proof.
  intros Hready Hrep. unfold upload_zip. unfold repeatable in Hrep.
  destruct (files_get (files req) "zip") as [file|]; [|done].
  destruct (String.eqb (upload_name file) ""); [done|].
  destruct (archive file) as [members|] eqn:Harch; [|done].
  destruct (Hrep file members eq_refl Harch) as [Hsound Hw].
  destruct (run_again env members (SITE_DIR env) (overwrite_option req)
              (keep_root_option req) fs Hready Hsound Hw) as [Ht Hb].
  unfold tree_after in *.
  destruct (safe_extract env members (SITE_DIR env) (overwrite_option req)
              (keep_root_option req) fs) as [fs1 r1] eqn:H1.
  simpl in *.
  assert (Hfst : (match r1 with
                  | inl _ => (fs1, 400)
                  | inr _ => (fs1, 200)
                  end).1 = fs1) by by destruct r1.
  rewrite Hfst, Ht.
  destruct (safe_extract env members (SITE_DIR env) (overwrite_option req)
              (keep_root_option req) fs1).2 as [e2|[]], r1 as [e1|[]];
    simpl in *; done.
Qed.

Lemma upload_again_witness :
  upload_zip env0
    (MkRequest [("zip", MkUpload "site.zip" (Some project_archive))]
       [("overwrite", "true")])
    (upload_zip env0
       (MkRequest [("zip", MkUpload "site.zip" (Some project_archive))]
          [("overwrite", "true")])
       fs0).1
  = upload_zip env0
      (MkRequest [("zip", MkUpload "site.zip" (Some project_archive))]
         [("overwrite", "true")])
      fs0.
Proof.
  apply upload_again.
  - apply (bool_decide_eq_true_1 _). vm_compute. reflexivity.
  - intros file members [= <-] [= <-]. split.
    + apply (bool_decide_eq_true_1 _). vm_compute. reflexivity.
    + intros _. apply (bool_decide_eq_true_1 _). vm_compute. reflexivity.
Defined.

(** Without that, a second upload can leave another tree: the read-only
    file of the first stops the second after it has written [a.txt]. *)
Example upload_again_locked :
  upload_zip env0
    (MkRequest [("zip", MkUpload "site.zip" (Some locked_archive))]
       [("overwrite", "true")]) fs0
  = (<[ ["site"; "f.txt"] := File [x62] 292 ]>
       (<[ ["site"; "a.txt"] := File [x63] 420 ]> fs0), 200) ∧
  upload_zip env0
    (MkRequest [("zip", MkUpload "site.zip" (Some locked_archive))]
       [("overwrite", "true")])
    (<[ ["site"; "f.txt"] := File [x62] 292 ]>
       (<[ ["site"; "a.txt"] := File [x63] 420 ]> fs0))
  = (<[ ["site"; "f.txt"] := File [x62] 292 ]>
       (<[ ["site"; "a.txt"] := File [x61] 420 ]> fs0), 400).
Proof. by_compute. Qed.

End HttpFacts.

(** ** Where a run can write *)

Module ReachFacts.
Import PyStr PyStrFacts PurePath Fs Exn PathIO RenderApp Serve.
Import Words Canon Replay MoreWords Sample.
Import RootFacts FsFacts StepFacts RunFacts OverwriteFacts TreeFacts CheckFacts.
Local Open Scope list_scope.

Lemma split_slash_no_slashes (s : string) :
  Forall (λ w, no_slash w = true) (split_slash s).
Proof.
  induction s as [|c s IH]; simpl; [by repeat constructor|].
  destruct (Ascii.eqb c "/"%char) eqn:E; [by constructor|].
  destruct (split_slash s) as [|w ws]; [by repeat constructor; simpl; rewrite E|].
  apply Forall_cons in IH as [Hw Hws]. constructor; [|done].
  simpl. by rewrite E, Hw.
Qed.

Lemma parse_parts_plain (s : string) :
  Forall (λ w, plain w = true) (parts (parse s)).
Proof.
  unfold parse. simpl. apply Forall_forall. intros w Hw.
  apply list_elem_of_In, filter_In in Hw as [Hin Hkeep].
  pose proof (split_slash_no_slashes s) as Hall.
  rewrite Forall_forall in Hall.
  specialize (Hall w (proj2 (list_elem_of_In _ _) Hin)).
  unfold plain, keep_part in *. rewrite Hall, andb_true_r.
  by destruct w.
Qed.

Lemma Forall_removelast {A} (P : A → Prop) (l : list A) :
  Forall P l → Forall P (removelast l).
Proof.
  destruct l as [|x l _] using rev_ind; [done|].
  rewrite removelast_last. by intros [? _]%Forall_app.
Qed.

Lemma Forall_entered (P : string → Prop) (ps cur : loc) :
  Forall P cur → Forall P ps → Forall P (fold_left enter ps cur).
Proof.
  revert cur. induction ps as [|x ps IH]; intros cur Hcur Hps; [done|].
  apply Forall_cons in Hps as [Hx Hps]. simpl. apply IH; [|done].
  unfold enter. destruct (String.eqb x "..").
  - by apply Forall_removelast.
  - apply Forall_app. by split; [|constructor].
Qed.

Lemma joinpath_plain (p : Path) (s : string) :
  Forall (λ w, plain w = true) (parts p) →
  Forall (λ w, plain w = true) (parts (joinpath p s)).
Proof.
  intros Hp. unfold joinpath.
  pose proof (parse_parts_plain s) as Hq.
  destruct (root (parse s)); [|done|done].
  simpl. apply Forall_app. by split.
Qed.

Lemma target_loc_plain env p :
  Forall (λ w, plain w = true) (cwd env) →
  Forall (λ w, plain w = true) (parts p) →
  Forall (λ w, plain w = true) (target_loc env p).
Proof.
  intros Hcwd Hp. unfold target_loc. apply Forall_entered; [|done].
  unfold start. by destruct (root p).
Qed.

Lemma plain_no_slash (l : loc) :
  Forall (λ w, plain w = true) l → Forall (λ w, no_slash w = true) l.
Proof.
  intros Hl. eapply Forall_impl; [exact Hl|]. intros w H. unfold plain in H.
  by apply andb_true_iff in H as [_ ?].
Qed.

Lemma resolve_target_loc env p q :
  resolve env p = Some q → q = MkPath Slash (target_loc env p).
Proof.
  unfold resolve. destruct (existsb has_nul (parts p)); [done|].
  by intros [= <-].
Qed.

(** A file a step wrote passed the check. *)
Lemma step_sem_files_checked env dest_dir overwrite root_ member fs fs' b l c
    mode :
  step_sem env dest_dir overwrite root_ member fs = (fs', b) →
  fs' !! l = Some (File c mode) →
  fs !! l = Some (File c mode) ∨
  (entry_loc env dest_dir root_ member = l ∧
   is_within_directory env dest_dir
     (joinpath dest_dir (effective_name root_ (filename member))) = true).
Proof.
  intros H Hl.
  destruct (step_sem_files _ _ _ _ _ _ _ _ _ _ _ H Hl) as [?|(_ & Hloc & _)];
    [by left|].
  destruct (is_within_directory env dest_dir
              (joinpath dest_dir (effective_name root_ (filename member))))
    eqn:Hcheck; [by right|left].
  unfold step_sem in H. rewrite Hcheck in H. simpl in H.
  destruct (negb (truthy _)); injection H as <- _; done.
Qed.

Lemma run_sem_files_checked env dest_dir overwrite root_ members fs fs' b l c
    mode :
  run_sem env dest_dir overwrite root_ members fs = (fs', b) →
  fs' !! l = Some (File c mode) →
  fs !! l = Some (File c mode) ∨
  ∃ m, m ∈ members ∧ entry_loc env dest_dir root_ m = l ∧
       is_within_directory env dest_dir
         (joinpath dest_dir (effective_name root_ (filename m))) = true.
Proof.
  revert fs. induction members as [|m rest IH]; intros fs H Hl; simpl in H.
  - injection H as <- _. by left.
  - destruct (step_sem env dest_dir overwrite root_ m fs) as [fs1 b1] eqn:Hs.
    assert (Hstep : fs1 !! l = Some (File c mode) →
              fs !! l = Some (File c mode) ∨
              ∃ m', m' ∈ m :: rest ∧ entry_loc env dest_dir root_ m' = l ∧
                    is_within_directory env dest_dir
                      (joinpath dest_dir (effective_name root_ (filename m')))
                    = true).
    { intros H1.
      destruct (step_sem_files_checked _ _ _ _ _ _ _ _ _ _ _ Hs H1)
        as [?|[? ?]]; [by left|right].
      exists m. split; [apply elem_of_cons; by left|done]. }
    destruct b1; [|injection H as <- _; by apply Hstep].
    destruct (IH fs1 H Hl) as [H1|(m' & Hm' & ?)]; [by apply Hstep|right].
    exists m'. split; [apply elem_of_cons; by right|done].
Qed.

(** X16. Where a run can write files.  With a working directory and a
    destination given by names, every file that a run creates or changes
    lies at a location the check accepts: it agrees with the destination on
    all components but the last, and holds there a name that starts with
    the destination's last component.  So the files a run writes are
    inside the destination or below a sibling whose name starts with the
    destination's.  This bounds files only: directories are made along the
    target path as it is written, before its [..] components are followed,
    and can be made anywhere ([directory_made_elsewhere] below). *)
Theorem written_files_are_accepted (env : Env) (members : list ZipInfo)
    (dest_dir : Path) (overwrite keep_root : bool) (fs : FS) (l : loc)
    (c : list byte) (mode : Z) :
  ready env fs →
  Forall (λ w, plain w = true) (cwd env) →
  Forall (λ w, plain w = true) (parts dest_dir) →
  tree_after (safe_extract env members dest_dir overwrite keep_root) fs !! l
  = Some (File c mode) →
  fs !! l ≠ Some (File c mode) →
  accepts (target_loc env dest_dir) l.
Proof.
  intros Hready Hcwd Hdest Hl Hnew. unfold tree_after in Hl.
  pose proof (safe_extract_sem env members dest_dir overwrite keep_root fs
                Hready) as Hs. symmetry in Hs.
  destruct (run_sem_files_checked _ _ _ _ _ _ _ _ _ _ _ Hs Hl)
    as [?|(m & _ & <- & Hcheck)]; [done|].
  set (tp := joinpath dest_dir
               (effective_name (common_root keep_root members) (filename m)))
    in *.
  pose proof Hcheck as Hc. unfold is_within_directory in Hc.
  destruct (resolve env dest_dir) as [d|] eqn:Hd; [|done].
  destruct (resolve env tp) as [t|] eqn:Ht; [|done]. clear Hc.
  pose proof (resolve_target_loc _ _ _ Hd) as ->.
  pose proof (resolve_target_loc _ _ _ Ht) as ->.
  apply (check_accepts_for env dest_dir tp _ _ Hd Ht); [| |done].
  - by apply target_loc_plain.
  - apply plain_no_slash, target_loc_plain; [done|]. by apply joinpath_plain.
Qed.

Lemma written_files_are_accepted_witness :
  accepts (target_loc env0 site) ["site-evil"; "x.txt"].
Proof.
  apply (written_files_are_accepted env0 sibling_archive site false false fs0
           ["site-evil"; "x.txt"] [x61] 420).
  - apply (bool_decide_eq_true_1 _). vm_compute. reflexivity.
  - constructor.
  - repeat constructor.
  - apply (bool_decide_eq_true_1 _). vm_compute. reflexivity.
  - apply (bool_decide_eq_true_1 _). vm_compute. reflexivity.
Defined.

(** A directory entry whose resolved target is the destination itself
    passes the check, and [mkdir] makes [/etc/cron.d] on its way there. *)
Example directory_made_elsewhere :
  is_within_directory env0 site (joinpath site "../etc/cron.d/../../site/")
  = true ∧
  safe_extract env0 [dir_entry "../etc/cron.d/../../site/"] site false true fs0
  = (<[ ["etc"; "cron.d"] := Dir ]> (<[ ["etc"] := Dir ]> fs0), inr tt).
Proof. by_compute. Qed.

End ReachFacts.

(** ** Names and the common root, further *)

Module NameFacts.
Import PyStr PyStrFacts PurePath Fs Exn PathIO RenderApp Serve.
Import Words Canon Replay MoreWords Sample.
Import RootFacts StripFacts ContainFacts.
Local Open Scope list_scope.

Lemma slice_from_all (s : string) : slice_from (String.length s) s = "".
Proof. induction s; simpl; auto. Qed.

Lemma startswith_refl (s : string) : startswith s s = true.
Proof. induction s as [|c s IH]; simpl; [done|]. by rewrite Ascii.eqb_refl. Qed.

(** X17. An entry is skipped exactly when its name is empty or is the
    common root itself. *)
Theorem skipped_exactly (root_ name : string) :
  effective_name root_ name = "" ↔ name = "" ∨ (root_ ≠ "" ∧ name = root_).
Proof.
  unfold effective_name. split.
  - destruct (truthy root_ && startswith name root_) eqn:E; [|by left].
    apply andb_true_iff in E as [Ht Hs].
    apply startswith_inv in Hs as [r ->].
    rewrite slice_from_app. intros ->. right.
    split; [by destruct root_|]. apply string_app_empty.
  - intros [->|[Hne ->]].
    + destruct root_; [done|]. by rewrite andb_false_r.
    + rewrite startswith_refl, andb_true_r.
      destruct root_; [done|]. simpl. apply slice_from_all.
Qed.

(** X18. The common root is empty, or it is the first segment of a file
    entry of the archive followed by one slash, and holds no other slash:
    stripping never takes more than one directory level off a name. *)
Theorem common_root_shape (keep_root : bool) (members : list ZipInfo) :
  common_root keep_root members = "" ∨
  ∃ m, m ∈ members ∧ is_file_entry m ∧
       no_slash (first_segment (filename m)) = true ∧
       common_root keep_root members
       = (first_segment (filename m) ++ "/")%string.
Proof.
  unfold common_root. destruct keep_root; [by left|].
  case_bool_decide as Hsize; [|by left].
  apply size_1_elem_of in Hsize as [seg Hseg].
  apply leibniz_equiv in Hseg.
  assert (Hin : seg ∈ top_levels members) by (rewrite Hseg; set_solver).
  apply elem_of_top_levels in Hin as (m & Hm & Hfile & <-).
  right. exists m. split; [done|]. split; [done|].
  split; [apply first_segment_no_slash|].
  by rewrite Hseg, elements_singleton.
Qed.

End NameFacts.
